(** * Mirascope/tips: the markdown-to-social pipeline

    A shallow embedding of [scripts/process_post.py],
    [scripts/prepare_social_post.py] and [scripts/generate_images.py].

    - Python [str] values are lists of 8-bit code points ([list ascii],
      the Latin-1 range of [str]); the character classes of the [re]
      module ([\w], [\s], [.]) and of [str.strip] / [str.lower] are
      written out for that range.
    - The patterns of the scripts are written as terms of a small regular
      expression type and run by a backtracking matcher with the
      priorities of [re].
    - The dictionaries the scripts build from literals are records; the
      image manifest, a dictionary filled by key, is a [gmap].
    - Files, directories and subprocesses live in a [World] that the
      effectful functions pass along; exceptions are results.  What the
      platform decides (the outcome of a process, the name of a temporary
      file, the verdict of the builtin [compile]) comes from an [Env].
    - Console output ([print]) is not modelled. *)

From Stdlib Require Import Ascii String List Bool Arith Lia DecimalString.
From stdpp Require Import base option list gmap strings.
Import ListNotations.

Set Warnings "-register-all".

Local Open Scope list_scope.

(** ** Characters and strings *)

Definition str := list ascii.

Coercion list_ascii_of_string : string >-> list.

(** [ord(c)] *)
Definition ord (c : ascii) : nat := nat_of_ascii c.

Definition in_range (lo hi : nat) (c : ascii) : bool :=
  (lo <=? ord c) && (ord c <=? hi).

Definition nl : ascii := "010"%char.

(** [str.isspace] on one code point below 256 (also [\s] in a [str]
    pattern): TAB..CR, FS..US, space, NEL and NBSP. *)
Definition is_space (c : ascii) : bool :=
  in_range 9 13 c || in_range 28 32 c || (ord c =? 133) || (ord c =? 160).

(** [\w] in a [str] pattern: alphanumeric code points and the underscore. *)
Definition is_word (c : ascii) : bool :=
  in_range 48 57 c || in_range 65 90 c || (ord c =? 95) || in_range 97 122 c
  || (ord c =? 170) || in_range 178 179 c || (ord c =? 181)
  || in_range 185 186 c || in_range 188 190 c
  || in_range 192 214 c || in_range 216 246 c || in_range 248 255 c.

(** [str.lower] on one code point below 256. *)
Definition lower_char (c : ascii) : ascii :=
  if in_range 65 90 c || in_range 192 214 c || in_range 216 222 c
  then ascii_of_nat (ord c + 32) else c.

Definition lower (s : str) : str := map lower_char s.

Definition ascii_eqb (a b : ascii) : bool := Ascii.eqb a b.

Fixpoint str_eqb (a b : str) : bool :=
  match a, b with
  | [], [] => true
  | x :: a', y :: b' => ascii_eqb x y && str_eqb a' b'
  | _, _ => false
  end.

(** The truth value of a string. *)
Definition nonempty (s : str) : bool := match s with [] => false | _ => true end.

(** [s.startswith(p)] *)
Fixpoint startswith (p s : str) : bool :=
  match p, s with
  | [], _ => true
  | x :: p', y :: s' => ascii_eqb x y && startswith p' s'
  | _ :: _, [] => false
  end.

(** [s.endswith(p)] *)
Definition endswith (p s : str) : bool := startswith (rev p) (rev s).

(** [p in s] for strings *)
Fixpoint contains (p s : str) : bool :=
  startswith p s ||
  match s with
  | [] => false
  | _ :: s' => contains p s'
  end.

Fixpoint lstrip (s : str) : str :=
  match s with
  | c :: s' => if is_space c then lstrip s' else s
  | [] => []
  end.

Definition rstrip (s : str) : str := rev (lstrip (rev s)).

(** [s.strip()] *)
Definition strip (s : str) : str := rstrip (lstrip s).

(** [s[a:b]] for [0 <= a] and [0 <= b] (empty when [b <= a]) *)
Definition slice (a b : nat) (s : str) : str := take (b - a) (drop a s).

(** [s[a:]] *)
Definition slice_from (a : nat) (s : str) : str := drop a s.

(** [s.replace(old, new)] for a non-empty [old]: the occurrences are taken
    left to right and do not overlap.  [skip] counts the characters of the
    occurrence just replaced that are still to be passed over. *)
Fixpoint replace_go (old new : str) (skip : nat) (s : str) : str :=
  match s with
  | [] => []
  | x :: t =>
      match skip with
      | S k => replace_go old new k t
      | O => if startswith old s
             then new ++ replace_go old new (length old - 1) t
             else x :: replace_go old new 0 t
      end
  end.

Definition replace (old new s : str) : str := replace_go old new 0 s.

(** [sep.join(parts)] *)
Fixpoint join (sep : str) (parts : list str) : str :=
  match parts with
  | [] => []
  | [p] => p
  | p :: rest => p ++ sep ++ join sep rest
  end.

(** [s.split(sep)] for a one-character separator *)
Fixpoint split_char_go (sep : ascii) (cur : str) (s : str) : list str :=
  match s with
  | [] => [rev cur]
  | x :: t => if ascii_eqb x sep then rev cur :: split_char_go sep [] t
              else split_char_go sep (x :: cur) t
  end.

Definition split_char (sep : ascii) (s : str) : list str := split_char_go sep [] s.

(** [s.split(sep)[0]] for a one-character separator *)
Fixpoint before_first (sep : ascii) (s : str) : str :=
  match s with
  | [] => []
  | x :: t => if ascii_eqb x sep then [] else x :: before_first sep t
  end.

(** ** Regular expressions of the [re] module

    The patterns of the scripts repeat single characters only, so a
    repetition carries a character class.  Matching is the backtracking
    search of [re]: alternatives are tried in priority order (a greedy
    repetition takes as many characters as it can first, a lazy one as few
    as it can) and the first one for which the rest of the pattern matches
    is the result. *)

Inductive cclass :=
  | CChar (c : ascii)            (* a literal character *)
  | CAny                          (* .  *)
  | CWord                         (* \w *)
  | CSpace                        (* \s *)
  | COr (c1 c2 : cclass).         (* [c1c2], a set of two *)

Inductive greed := Greedy | Lazy.

Inductive regex :=
  | Lit (l : str)                                       (* literal text *)
  | Chr (c : cclass)                                    (* one character *)
  | Rep (c : cclass) (lo : nat) (hi : option nat) (g : greed)  (* c{lo,hi} *)
  | Bol                                                 (* ^ *)
  | Eol                                                 (* $ *)
  | Grp (n : nat) (r : regex)                           (* ( ... ), group n *)
  | Seq (r1 r2 : regex).

Declare Scope regex_scope.
Delimit Scope regex_scope with re.
Infix "·" := Seq (at level 60, right associativity) : regex_scope.

Definition Star (c : cclass) : regex := Rep c 0 None Greedy.      (* c*  *)
Definition Plus (c : cclass) : regex := Rep c 1 None Greedy.      (* c+  *)
Definition StarLazy (c : cclass) : regex := Rep c 0 None Lazy.    (* c*? *)
Definition PlusLazy (c : cclass) : regex := Rep c 1 None Lazy.    (* c+? *)

Record flags := { MULTILINE : bool; DOTALL : bool }.

Definition no_flags : flags := {| MULTILINE := false; DOTALL := false |}.
Definition re_M : flags := {| MULTILINE := true; DOTALL := false |}.
Definition re_S : flags := {| MULTILINE := false; DOTALL := true |}.

Fixpoint cmatch (fl : flags) (c : cclass) (x : ascii) : bool :=
  match c with
  | CChar y => ascii_eqb x y
  | CAny => DOTALL fl || negb (ascii_eqb x nl)
  | CWord => is_word x
  | CSpace => is_space x
  | COr c1 c2 => cmatch fl c1 x || cmatch fl c2 x
  end.

(** The matcher's position in the subject: the offset from the place the
    attempt started at, the character just before the position (if any),
    the text still ahead, and the groups closed so far. *)
Record mstate := {
  off : nat;
  before : option ascii;
  ahead : str;
  caps : list (nat * (nat * nat))
}.

Definition step (x : ascii) (t : str) (st : mstate) : mstate :=
  {| off := S (off st); before := Some x; ahead := t; caps := caps st |}.

(** [^] looks at the character before the position, [$] at the text
    ahead of it. *)
Definition at_bol (fl : flags) (prev : option ascii) : bool :=
  match prev with
  | None => true
  | Some c => MULTILINE fl && ascii_eqb c nl
  end.

Definition at_eol (fl : flags) (s : str) : bool :=
  match s with
  | [] => true
  | c :: t => ascii_eqb c nl && (MULTILINE fl || match t with [] => true | _ => false end)
  end.

Definition kont := mstate -> option mstate.

Fixpoint m_lit (l : str) (k : kont) (st : mstate) : option mstate :=
  match l with
  | [] => k st
  | y :: l' =>
      match ahead st with
      | x :: t => if ascii_eqb x y then m_lit l' k (step x t st) else None
      | [] => None
      end
  end.

Definition dec_hi (hi : option nat) : option nat :=
  match hi with Some h => Some (pred h) | None => None end.

Definition hi_is_zero (hi : option nat) : bool :=
  match hi with Some O => true | _ => false end.

(** [c{lo,hi}] at [st], by recursion on the text ahead: [lo] characters
    are owed, at most [hi] may be taken. *)
Fixpoint m_rep (fl : flags) (c : cclass) (g : greed) (k : kont)
    (s : str) (lo : nat) (hi : option nat) (st : mstate) : option mstate :=
  let more :=
    match s with
    | x :: t =>
        if cmatch fl c x && negb (hi_is_zero hi)
        then m_rep fl c g k t (pred lo) (dec_hi hi) (step x t st)
        else None
    | [] => None
    end in
  match lo with
  | S _ => more
  | O =>
      match g with
      | Greedy => match more with Some r => Some r | None => k st end
      | Lazy => match k st with Some r => Some r | None => more end
      end
  end.

Fixpoint m (fl : flags) (r : regex) (k : kont) (st : mstate) : option mstate :=
  match r with
  | Lit l => m_lit l k st
  | Chr c =>
      match ahead st with
      | x :: t => if cmatch fl c x then k (step x t st) else None
      | [] => None
      end
  | Rep c lo hi g => m_rep fl c g k (ahead st) lo hi st
  | Bol => if at_bol fl (before st) then k st else None
  | Eol => if at_eol fl (ahead st) then k st else None
  | Grp n r' =>
      m fl r' (fun st' =>
        k {| off := off st'; before := before st'; ahead := ahead st';
             caps := (n, (off st, off st')) :: caps st' |}) st
  | Seq r1 r2 => m fl r1 (m fl r2 k) st
  end.

(** A match found at some position: its length and its groups, as offsets
    from the start of the match. *)
Record rmatch := { m_len : nat; m_caps : list (nat * (nat * nat)) }.

(** One attempt at the position whose text ahead is [s] and whose previous
    character is [prev].  With [must_advance] an empty match is refused
    (the matcher backtracks into the next alternative). *)
Definition match_at (fl : flags) (r : regex) (must_advance : bool)
    (prev : option ascii) (s : str) : option rmatch :=
  match m fl r
          (fun st => if must_advance && (off st =? 0) then None else Some st)
          {| off := 0; before := prev; ahead := s; caps := [] |} with
  | Some st => Some {| m_len := off st; m_caps := caps st |}
  | None => None
  end.

Fixpoint lookup_cap (n : nat) (cs : list (nat * (nat * nat))) : option (nat * nat) :=
  match cs with
  | [] => None
  | (n', span) :: cs' => if n =? n' then Some span else lookup_cap n cs'
  end.

(** [match.group(n)] for a match that starts where [s] starts; a group
    that took no part in the match reads as the empty string. *)
Definition group (n : nat) (mt : rmatch) (s : str) : str :=
  match n with
  | O => take (m_len mt) s
  | _ => match lookup_cap n (m_caps mt) with
         | Some (a, b) => slice a b s
         | None => []
         end
  end.

(** A match together with where it starts in the subject. *)
Record found := { f_start : nat; f_match : rmatch; f_text : str }.

Definition f_end (f : found) : nat := f_start f + m_len (f_match f).
Definition f_group (n : nat) (f : found) : str := group n (f_match f) (f_text f).

(** [re.search(r, s, flags)]: the attempt is made at each position from
    the left. *)
Fixpoint search_from (fl : flags) (r : regex) (pos : nat)
    (prev : option ascii) (s : str) : option found :=
  match match_at fl r false prev s with
  | Some mt => Some {| f_start := pos; f_match := mt; f_text := s |}
  | None =>
      match s with
      | [] => None
      | x :: t => search_from fl r (S pos) (Some x) t
      end
  end.

Definition re_search (fl : flags) (r : regex) (s : str) : option found :=
  search_from fl r 0 None s.

(** The scan shared by [re.sub], [re.findall] and [re.split]: the subject
    cut into the characters no match covers and the successive
    non-overlapping matches.  After an empty match the next attempt at the
    same position must advance. *)
Inductive piece := Text (c : ascii) | Hit (mt : rmatch) (s : str).

Fixpoint scan (fl : flags) (r : regex) (prev : option ascii) (skip : nat)
    (s : str) : list piece :=
  match skip with
  | S k =>
      match s with
      | [] => []
      | x :: t => scan fl r (Some x) k t
      end
  | O =>
      let pass :=
        match s with
        | [] => []
        | x :: t => Text x :: scan fl r (Some x) 0 t
        end in
      let jump (mt : rmatch) :=
        match s with
        | [] => []
        | x :: t => scan fl r (Some x) (pred (m_len mt)) t
        end in
      match match_at fl r false prev s with
      | None => pass
      | Some mt =>
          match m_len mt with
          | S _ => Hit mt s :: jump mt
          | O =>
              Hit mt s ::
              match match_at fl r true prev s with
              | Some mt' => Hit mt' s :: jump mt'
              | None => pass
              end
          end
      end
  end.

(** A replacement template: literal text and group references [\n]. *)
Inductive ritem := RText (t : str) | RGroup (n : nat).

Definition expand (repl : list ritem) (mt : rmatch) (s : str) : str :=
  concat (map (fun it => match it with
                         | RText t => t
                         | RGroup n => group n mt s
                         end) repl).

Definition sub_pieces (repl : list ritem) (ps : list piece) : str :=
  concat (map (fun p => match p with
                        | Text c => [c]
                        | Hit mt s => expand repl mt s
                        end) ps).

(** [re.sub(r, repl, s, flags=fl)] *)
Definition re_sub (fl : flags) (r : regex) (repl : list ritem) (s : str) : str :=
  sub_pieces repl (scan fl r None 0 s).

(** The matches of a scan, in order. *)
Fixpoint hits (ps : list piece) : list (rmatch * str) :=
  match ps with
  | [] => []
  | Text _ :: ps' => hits ps'
  | Hit mt s :: ps' => (mt, s) :: hits ps'
  end.

(** [re.split(r, s)] for a pattern without groups. *)
Fixpoint split_pieces (cur : str) (ps : list piece) : list str :=
  match ps with
  | [] => [rev cur]
  | Text c :: ps' => split_pieces (c :: cur) ps'
  | Hit _ _ :: ps' => rev cur :: split_pieces [] ps'
  end.

Definition re_split (fl : flags) (r : regex) (s : str) : list str :=
  split_pieces [] (scan fl r None 0 s).

(** ** The operating system, as far as the scripts use it *)

Inductive exn :=
  | FileNotFoundError            (* an [OSError] *)
  | IsADirectoryError            (* an [OSError] *)
  | FileExistsError              (* an [OSError] *)
  | NotADirectoryError           (* an [OSError] *)
  | OSError                      (* any other [OSError] *)
  | CalledProcessError           (* non-zero exit under [check=True] *)
  | TimeoutExpired
  | SyntaxError
  | ValueError
  | RecursionError
  | UnicodeDecodeError.

Definition is_OSError (e : exn) : bool :=
  match e with
  | FileNotFoundError | IsADirectoryError | FileExistsError | NotADirectoryError
  | OSError => true
  | _ => false
  end.

Definition is_CalledProcessError (e : exn) : bool :=
  match e with CalledProcessError => true | _ => false end.

Definition is_SyntaxError (e : exn) : bool :=
  match e with SyntaxError => true | _ => false end.

(** What [subprocess.run(argv, check=True, ...)] does: it returns with the
    captured standard output, or raises. *)
Inductive run_result := Completed (stdout : str) | Failed (e : exn).

(** The file system and the record of the processes started. *)
Record World := {
  files : gmap str str;          (* regular files and their text *)
  dirs : gset str;               (* directories *)
  temps : nat;                   (* temporary files created so far *)
  trace : list (list str)        (* argv of every subprocess run, oldest first *)
}.

(** What making a temporary file and writing a text to it comes to. *)
Inductive temp_outcome :=
  | Written                           (* the file is there and holds the text *)
  | NotCreated (e : exn)              (* making the file raises: there is no file *)
  | NotWritten (e : exn) (partial : str). (* writing raises: the file stays, holding [partial] *)

(** The parts of the platform that are not code of the repository. *)
Record Env := {
  (* outcome of running [argv] on the given files *)
  spawn : list str -> gmap str str -> run_result;
  (* the output captured from a failed run of [argv] is not valid UTF-8 *)
  undecodable : list str -> gmap str str -> bool;
  (* name picked for the n-th temporary file with the given suffix *)
  mkstemp : nat -> str -> str;
  (* what becomes of the n-th temporary file with the given suffix and text *)
  temp_file : nat -> str -> str -> temp_outcome;
  (* the builtin [compile(code, '<string>', 'exec')]: [None] when it accepts
     the code, else the exception it raises *)
  builtin_compile : str -> option exn;
  (* the image files a successful [carbon-now] run leaves behind *)
  rendered : list str -> list (str * str);
  (* the byte-code files a successful [py_compile] run leaves behind, and
     the directories it makes for them *)
  cached : list str -> list (str * str);
  cache_dirs : list str -> list str
}.

Inductive result (A : Type) := Ok (a : A) | Raise (e : exn).
Arguments Ok {A} a.
Arguments Raise {A} e.

(** Computations that change the world and may raise. *)
Definition M (A : Type) : Type := World -> result A * World.

Definition ret {A} (a : A) : M A := fun w => (Ok a, w).

Definition raise {A} (e : exn) : M A := fun w => (Raise e, w).

Definition bind {A B} (c : M A) (f : A -> M B) : M B :=
  fun w => match c w with
           | (Ok a, w') => f a w'
           | (Raise e, w') => (Raise e, w')
           end.

Declare Scope py_scope.
Delimit Scope py_scope with py.
Notation "x <- c ;; k" := (bind c (fun x => k))
  (at level 100, c at next level, right associativity) : py_scope.
Notation "c ;;; k" := (bind c (fun _ => k))
  (at level 100, right associativity) : py_scope.

(** [try: body  except <caught>: handler] *)
Definition try_except {A} (body : M A) (caught : exn -> bool) (handler : M A) : M A :=
  fun w => match body w with
           | (Raise e, w') => if caught e then handler w' else (Raise e, w')
           | ok => ok
           end.

(** [try: body  finally: cleanup] *)
Definition try_finally {A} (body : M A) (cleanup : M unit) : M A :=
  fun w => match body w with
           | (r, w') =>
               match cleanup w' with
               | (Ok _, w'') => (r, w'')
               | (Raise e, w'') => (Raise e, w'')
               end
           end.

Definition get_world : M World := fun w => (Ok w, w).

Definition set_files (f : gmap str str -> gmap str str) : M unit :=
  fun w => (Ok tt, {| files := f (files w); dirs := dirs w;
                      temps := temps w; trace := trace w |}).

(** [open(path, 'w').write(text)]; a directory cannot be opened. *)
Definition write_file (path text : str) : M unit :=
  fun w => if bool_decide (path ∈ dirs w) then (Raise IsADirectoryError, w)
           else set_files (insert path text) w.

(** [open(path).read()] and [Path(path).read_text()] *)
Definition read_text (path : str) : M str :=
  fun w => match files w !! path with
           | Some text => (Ok text, w)
           | None => if bool_decide (path ∈ dirs w) then (Raise IsADirectoryError, w)
                     else (Raise FileNotFoundError, w)
           end.

(** [os.unlink(path)] *)
Definition unlink (path : str) : M unit :=
  fun w => match files w !! path with
           | Some _ => set_files (delete path) w
           | None => (Raise FileNotFoundError, w)
           end.

(** The directories above a path, outermost first: what stands before
    each slash of it (nothing before a leading slash or a repeated one). *)
Fixpoint parents_go (seen p : str) : list str :=
  match p with
  | [] => []
  | c :: p' =>
      (if ascii_eqb c "/"
          && match seen with [] => false | d :: _ => negb (ascii_eqb d "/") end
       then [rev seen] else [])
      ++ parents_go (c :: seen) p'
  end.

Definition parents (path : str) : list str := parents_go [] path.

(** [os.makedirs(path, exist_ok=True)]: the directory and the missing
    directories above it are made; the empty path, a regular file at the
    path and a regular file above it make it raise. *)
Definition makedirs (path : str) : M unit :=
  fun w =>
    match path with
    | [] => (Raise FileNotFoundError, w)
    | _ =>
        if existsb (fun p => bool_decide (is_Some (files w !! p))) (parents path)
        then (Raise NotADirectoryError, w)
        else if bool_decide (is_Some (files w !! path))
        then (Raise FileExistsError, w)
        else (Ok tt, {| files := files w;
                        dirs := {[ path ]} ∪ list_to_set (parents path) ∪ dirs w;
                        temps := temps w; trace := trace w |})
    end.

(** [os.path.exists(path)] *)
Definition path_exists (path : str) (w : World) : bool :=
  bool_decide (is_Some (files w !! path)) || bool_decide (path ∈ dirs w).

(** [with tempfile.NamedTemporaryFile(suffix=..., mode='w+', delete=False)
    as temp: temp_path = temp.name; temp.write(text)]: a new file under a
    name of the platform's choosing, which stays after the [with] block,
    also when the writing raises. *)
Definition named_temporary_file (env : Env) (suffix text : str) : M str :=
  fun w =>
    let path := mkstemp env (temps w) suffix in
    match temp_file env (temps w) suffix text with
    | Written =>
        (Ok path, {| files := <[path := text]> (files w); dirs := dirs w;
                     temps := S (temps w); trace := trace w |})
    | NotCreated e => (Raise e, w)
    | NotWritten e partial =>
        (Raise e, {| files := <[path := partial]> (files w); dirs := dirs w;
                     temps := S (temps w); trace := trace w |})
    end.

(** [subprocess.run(argv, check=True, ...)]; the files are left as they
    are (the callers below add what a successful [py_compile], [mv] or
    [carbon-now] does). *)
Definition subprocess_run (env : Env) (argv : list str) : M str :=
  fun w =>
    let w' := {| files := files w; dirs := dirs w; temps := temps w;
                 trace := trace w ++ [argv] |} in
    match spawn env argv (files w) with
    | Completed out => (Ok out, w')
    | Failed e => (Raise e, w')
    end.

(** [os.path.basename(p)] *)
Fixpoint basename_go (cur : str) (p : str) : str :=
  match p with
  | [] => rev cur
  | c :: p' => if ascii_eqb c "/" then basename_go [] p' else basename_go (c :: cur) p'
  end.

Definition basename (p : str) : str := basename_go [] p.

(** [os.path.dirname(p)]: up to the last slash, without trailing slashes
    unless it is the root. *)
Fixpoint rstrip_slash (r : str) : str :=
  match r with
  | c :: r' => if ascii_eqb c "/" then rstrip_slash r' else r
  | [] => []
  end.

Definition dirname (p : str) : str :=
  let head := take (length p - length (basename p)) p in
  match rstrip_slash (rev head) with
  | [] => head
  | r => rev r
  end.

(** [os.path.join(a, b)] *)
Definition path_join (a b : str) : str :=
  if startswith "/" b then b
  else match a with
       | [] => b
       | _ => if endswith "/" a then a ++ b else a ++ "/" ++ b
       end.

(** [Path(p).stem]: the final component without its last suffix. *)
Fixpoint rfind_dot (i : nat) (s : str) : option nat :=
  match s with
  | [] => None
  | c :: s' =>
      match rfind_dot (S i) s' with
      | Some j => Some j
      | None => if ascii_eqb c "." then Some i else None
      end
  end.

(** The name of a [Path]: its last component, where empty components and
    single dots do not count. *)
Definition final_component (p : str) : str :=
  default [] (last (filter (fun part => nonempty part && negb (str_eqb part ".") = true)
                           (split_char "/" p))).

Definition path_stem (p : str) : str :=
  let name := final_component p in
  match rfind_dot 0 name with
  | Some i => if (0 <? i) && (i <? length name - 1) then take i name else name
  | None => name
  end.

(** ** scripts/process_post.py *)

Local Open Scope regex_scope.
Local Open Scope py_scope.

Definition backticks : str := "```".

(** The fence pattern of [extract_code_blocks]: three backticks, group 1
    of word characters (greedy star), a newline, group 2 of any characters
    (lazy star, DOTALL), three backticks. *)
Definition fence_groups_re : regex :=
  Lit backticks · Grp 1 (Star CWord) · Chr (CChar nl) · Grp 2 (StarLazy CAny)
  · Lit backticks.

(** The patterns  ^#\s*BEFORE:  and  ^#\s*AFTER:  (MULTILINE). *)
Definition before_re : regex := Bol · Chr (CChar "#") · Star CSpace · Lit "BEFORE:".
Definition after_re : regex := Bol · Chr (CChar "#") · Star CSpace · Lit "AFTER:".

(** A code block: (language, code, label). *)
Definition CodeBlock : Type := str * str * str.

Definition block_label (code : str) : str :=
  let before_match := re_search re_M before_re code in
  let after_match := re_search re_M after_re code in
  if bool_decide (is_Some before_match) then "BEFORE" : str
  else if bool_decide (is_Some after_match) then "AFTER" : str
  else "" : str.

Definition extract_code_blocks (markdown_content : str) : list CodeBlock :=
  let blocks := hits (scan re_S fence_groups_re None 0 markdown_content) in
  map (fun '(mt, s) =>
         let lang := group 1 mt s in
         let code := group 2 mt s in
         (lang, code, block_label code))
      blocks.

Definition has_framework_marker (code : str) : bool :=
  contains "mirascope" code || contains "@llm.call" code
  || contains "@prompt_template" code.

Definition py_compile_argv (temp_path : str) : list str :=
  ["python" : str; "-m" : str; "py_compile" : str; temp_path].

(** The builtin [compile(code, '<string>', 'exec')], called for its
    exceptions only. *)
Definition compile_source (env : Env) (code : str) : M unit :=
  fun w => match builtin_compile env code with
           | None => (Ok tt, w)
           | Some e => (Raise e, w)
           end.

(** What a successful [python -m py_compile] leaves behind: the byte code
    and the directory it is put in. *)
Definition write_byte_code (env : Env) (argv : list str) : M unit :=
  fun w => (Ok tt, {| files := foldr (fun '(p, code) acc => <[p := code]> acc)
                                     (files w) (cached env argv);
                      dirs := list_to_set (cache_dirs env argv) ∪ dirs w;
                      temps := temps w; trace := trace w |}).

(** The handler of [CalledProcessError] prints the captured output after
    decoding it, which raises when the output is not valid UTF-8. *)
Definition report_failure (env : Env) (argv : list str) : M unit :=
  fun w => if undecodable env argv (files w) then (Raise UnicodeDecodeError, w)
           else (Ok tt, w).

Definition verify_python_code (env : Env) (code : str) : M bool :=
  if has_framework_marker code then
    try_except
      (compile_source env code ;;; ret true)
      is_SyntaxError
      (ret false)
  else
    temp_path <- named_temporary_file env ".py" code ;;
    let argv := py_compile_argv temp_path in
    try_finally
      (try_except
         (subprocess_run env argv ;;;
          write_byte_code env argv ;;;
          ret true)
         is_CalledProcessError
         (report_failure env argv ;;; ret false))
      (unlink temp_path).

Definition placeholder : str := "[Code example - see attached image]".

(** The fence pattern of [clean_for_social]: the same without groups. *)
Definition fence_re : regex :=
  Lit backticks · Star CWord · Chr (CChar nl) · StarLazy CAny · Lit backticks.

(** The pattern  ^#{1,6}\s+(.+)$  (MULTILINE). *)
Definition header_re : regex :=
  Bol · Rep (CChar "#") 1 (Some 6) Greedy · Plus CSpace · Grp 1 (Plus CAny) · Eol.

(** The pattern  ^Python\s*$  (MULTILINE). *)
Definition python_line_re : regex := Bol · Lit "Python" · Star CSpace · Eol.

(** The pattern  \n{3,}  *)
Definition blank_lines_re : regex := Rep (CChar nl) 3 None Greedy.

Definition clean_for_social (markdown_content : str) : str :=
  let clean_content := re_sub re_S fence_re [RText placeholder] markdown_content in
  let clean_content := re_sub re_M header_re [RGroup 1] clean_content in
  let clean_content := re_sub re_M python_line_re [] clean_content in
  let clean_content := re_sub no_flags blank_lines_re [RText [nl; nl]] clean_content in
  strip clean_content.

(** The dictionary [process_markdown_file] returns: a literal with these
    eight keys, always all present. *)
Record PostData := {
  title : str;
  hook : str;
  first_tweet : str;
  solution : str;
  takeaway : str;
  clean_content : str;
  code_blocks : list CodeBlock;
  verified : bool
}.

(** The pattern  ^##\s+(.+)$  (MULTILINE). *)
Definition title_re : regex := Bol · Lit "##" · Plus CSpace · Grp 1 (Plus CAny) · Eol.

(** The pattern  ^\s*\*\*(.+?)\*\*  (MULTILINE). *)
Definition hook_re : regex :=
  Bol · Star CSpace · Lit "**" · Grp 1 (PlusLazy CAny) · Lit "**".

(** The pattern  ###\s+The Problem  *)
Definition problem_re : regex := Lit "###" · Plus CSpace · Lit "The Problem".

(** The pattern  \n\n+  *)
Definition paragraph_break_re : regex := Chr (CChar nl) · Plus (CChar nl).

(** The pattern  ###\s+The Solution[:\s]  *)
Definition solution_re : regex :=
  Lit "###" · Plus CSpace · Lit "The Solution" · Chr (COr (CChar ":") CSpace).

(** The pattern  ###\s+The Takeaway  *)
Definition takeaway_re : regex := Lit "###" · Plus CSpace · Lit "The Takeaway".

(** The loop over the code blocks: every Python block is verified, and a
    failure only clears the flag. *)
Fixpoint verify_blocks (env : Env) (blocks : list CodeBlock) (verified : bool) : M bool :=
  match blocks with
  | [] => ret verified
  | (lang, code, label) :: rest =>
      if str_eqb (lower lang) "python" then
        ok <- verify_python_code env code ;;
        verify_blocks env rest (if negb ok then false else verified)
      else verify_blocks env rest verified
  end.

Definition process_markdown_file (env : Env) (file_path : str) : M PostData :=
  w <- get_world ;;
  if negb (path_exists file_path w) then raise FileNotFoundError
  else
      content <- read_text file_path ;;
      let title_match := re_search re_M title_re content in
      let title :=
        match title_match with
        | Some tm => f_group 1 tm
        | None => path_stem file_path
        end in
      let after_title :=
        match title_match with
        | Some tm => slice_from (f_end tm) content
        | None => content
        end in
      let hook_match := re_search re_M hook_re after_title in
      let hook :=
        match hook_match with
        | Some hm => f_group 1 hm
        | None => []
        end in
      let problem_heading_match := re_search no_flags problem_re content in
      let first_tweet_content :=
        match problem_heading_match with
        | Some pm => strip (slice 0 (f_start pm) content)
        | None =>
            let paragraphs := re_split no_flags paragraph_break_re content in
            if 2 <? length paragraphs
            then strip (join [nl; nl] (take 2 (drop 1 paragraphs)))
            else []
        end in
      let code_blocks := extract_code_blocks content in
      verified <- verify_blocks env code_blocks true ;;
      let clean_content := clean_for_social content in
      let solution_heading_match := re_search no_flags solution_re content in
      let takeaway_heading_match := re_search no_flags takeaway_re content in
      let '(solution_content, takeaway_content) :=
        match solution_heading_match, takeaway_heading_match with
        | Some sm, Some tm =>
            (strip (slice (f_start sm) (f_start tm) content),
             strip (slice_from (f_start tm) content))
        | _, _ => ([], [])
        end in
      ret {| title := title;
             hook := hook;
             first_tweet := first_tweet_content;
             solution := solution_content;
             takeaway := takeaway_content;
             clean_content := clean_content;
             code_blocks := code_blocks;
             verified := verified |}.

(** ** scripts/generate_images.py *)

(** JSON values handed to [json.dumps] / [json.dump]; the serializer is
    the library's and is passed in. *)
Inductive json :=
  | JStr (s : str)
  | JBool (b : bool)
  | JNum (n : nat)
  | JList (l : list json)
  | JObj (l : list (str * json)).

Definition Serializer : Type := json -> str.

Definition carbon_argv (json_dumps : Serializer)
    (temp_path output_path language theme : str) : list str :=
  let name := before_first "." (basename output_path) in
  ["carbon-now" : str; temp_path;
   "--save-to" : str; dirname output_path;
   "--save-as" : str; name;
   "--settings" : str;
   json_dumps (JObj [("titleBar" : str, JStr name);
                     ("language" : str, JStr language);
                     ("theme" : str, JStr theme)])].

(** The temporary file is created with [delete=False] and is not removed;
    the run is checked, so a failure of the tool (missing, non-zero exit,
    timeout) propagates.  The function returns [None]. *)
Definition generate_image_with_carbon (env : Env) (json_dumps : Serializer)
    (code language output_path theme : str) : M unit :=
  temp_path <- named_temporary_file env ("." ++ language) code ;;
  let argv := carbon_argv json_dumps temp_path output_path language theme in
  subprocess_run env argv ;;;
  set_files (fun fs => foldr (fun '(p, img) acc => <[p := img]> acc) fs (rendered env argv)).

Definition recognized_languages : list str :=
  ["python" : str; "javascript" : str; "typescript" : str; "java" : str;
   "bash" : str; "sh" : str; "txt" : str; "sql" : str].

Definition is_recognized (lang : str) : bool :=
  existsb (str_eqb (lower lang)) recognized_languages.

Definition output_filename (base_filename label : str) : str :=
  if str_eqb label "BEFORE" then base_filename ++ "_BEFORE.png"
  else if str_eqb label "AFTER" then base_filename ++ "_AFTER.png"
  else base_filename ++ "_code.png".

Fixpoint render_blocks (env : Env) (json_dumps : Serializer)
    (output_dir base_filename theme : str) (blocks : list CodeBlock)
    (image_paths : list str) : M (list str) :=
  match blocks with
  | [] => ret image_paths
  | (lang, code, label) :: rest =>
      let lang := match lang with [] => "txt" : str | _ => lang end in
      if negb (is_recognized lang)
      then render_blocks env json_dumps output_dir base_filename theme rest image_paths
      else
        makedirs output_dir ;;;
        let output_path := path_join output_dir (output_filename base_filename label) in
        generate_image_with_carbon env json_dumps code lang output_path theme ;;;
        render_blocks env json_dumps output_dir base_filename theme rest
                      (image_paths ++ [output_path])
  end.

Definition process_code_blocks_from_file (env : Env) (json_dumps : Serializer)
    (markdown_file output_dir theme : str) : M (list str) :=
  content <- read_text markdown_file ;;
  let blocks := extract_code_blocks content in
  makedirs output_dir ;;;
  let base_filename := before_first "." (basename markdown_file) in
  render_blocks env json_dumps output_dir base_filename theme blocks [].

(** ** scripts/prepare_social_post.py *)

(** The pattern  ^##.*?\n\n  (no flags: the start of the text only). *)
Definition title_line_re : regex := Bol · Lit "##" · StarLazy CAny · Lit [nl; nl].

Definition footer : str := [nl; nl] ++ "#EffectiveAI #AIEngineering".

(** [post_data] is the dictionary of [process_markdown_file], so the key
    tests [in post_data] hold and [get] never uses its default; what is
    left of each condition is the truth value of the string. *)
Definition create_twitter_thread (post_data : PostData)
    (image_paths : gmap str (list str)) : list str :=
  let tweet_1 : str :=
    if nonempty (hook post_data) then "**" ++ hook post_data ++ "**" else [] in
  let tweet_1 :=
    if nonempty (first_tweet post_data) then
      (* the pattern is the escaped hook between escaped asterisks: a literal *)
      let hook_pattern := Lit ("**" ++ hook post_data ++ "**") in
      let intro_text := re_sub no_flags title_line_re [] (first_tweet post_data) in
      let intro_text := strip (re_sub no_flags hook_pattern [] intro_text) in
      if nonempty intro_text then
        if nonempty tweet_1 then tweet_1 ++ [nl; nl] ++ intro_text
        else intro_text
      else tweet_1
    else tweet_1 in
  let tweet_2 : str :=
    if nonempty (solution post_data) then
      let solution_text :=
        replace "### The Solution " "**"
          (replace "### The Solution: " "**" (solution post_data)) in
      if negb (startswith "**" solution_text) then "**Solution:** " ++ solution_text
      else solution_text ++ "**"
    else [] in
  let tweet_2 :=
    if nonempty (takeaway post_data) then
      let takeaway_text :=
        strip (replace "### The Takeaway" "**Takeaway:**" (takeaway post_data)) in
      if nonempty tweet_2 then tweet_2 ++ [nl; nl] ++ takeaway_text
      else takeaway_text
    else tweet_2 in
  let tweet_2 := tweet_2 ++ footer in
  [tweet_1; tweet_2].

(** The dictionary [prepare_social_post] returns. *)
Record SocialResult := {
  r_title : str;
  r_verified : bool;
  r_image_paths : gmap str (list str);
  r_thread : list str;
  r_thread_count : nat;
  r_linkedin : str
}.

Definition decimal (n : nat) : str :=
  list_ascii_of_string (NilZero.string_of_uint (Nat.to_uint n)).

(** One [find search_dir -maxdepth 1 -name pattern]: the non-empty lines
    of its output, or nothing when it exits with an error. *)
Definition find_images (env : Env) (search_dir pattern : str) : M (list str) :=
  try_except
    (out <- subprocess_run env ["find" : str; search_dir; "-maxdepth" : str; "1" : str;
                                "-name" : str; pattern] ;;
     ret (filter (fun path => nonempty path = true) (split_char nl (strip out))))
    is_CalledProcessError
    (ret []).

Definition find_in_dir (env : Env) (base_filename search_dir : str) : M (list str) :=
  a <- find_images env search_dir (base_filename ++ "-*.png") ;;
  b <- find_images env search_dir (base_filename ++ "_BEFORE_*.png") ;;
  c <- find_images env search_dir (base_filename ++ "_AFTER_*.png") ;;
  d <- find_images env search_dir (base_filename ++ "_code_*.png") ;;
  ret (a ++ b ++ c ++ d).

Definition move_file (src dest : str) (fs : gmap str str) : gmap str str :=
  match fs !! src with
  | Some img => <[dest := img]> (delete src fs)
  | None => fs
  end.

(** The body of the loop that moves a found image; the manifest entries
    whose base name is the image's are pointed at the new place. *)
Definition move_image (env : Env) (images_dir img_path : str)
    (image_paths : gmap str (list str)) : M (gmap str (list str)) :=
  if nonempty img_path && negb (str_eqb img_path ".") && negb (str_eqb img_path "..")
  then
    try_except
      (let img_name := basename img_path in
       let dest_path := path_join images_dir img_name in
       makedirs images_dir ;;;
       subprocess_run env ["mv" : str; img_path; dest_path] ;;;
       set_files (move_file img_path dest_path) ;;;
       ret ((fun paths =>
               map (fun path => if str_eqb (basename path) img_name
                                then dest_path else path) paths) <$> image_paths))
      (fun e => is_CalledProcessError e || is_OSError e)
      (ret image_paths)
  else ret image_paths.

Fixpoint move_images (env : Env) (images_dir : str) (root_images : list str)
    (image_paths : gmap str (list str)) : M (gmap str (list str)) :=
  match root_images with
  | [] => ret image_paths
  | img_path :: rest =>
      image_paths <- move_image env images_dir img_path image_paths ;;
      move_images env images_dir rest image_paths
  end.

Fixpoint write_tweets (output_dir : str) (i : nat) (tweets : list str) : M unit :=
  match tweets with
  | [] => ret tt
  | tweet :: rest =>
      write_file (path_join output_dir ("twitter_" ++ decimal (i + 1) ++ ".txt")) tweet ;;;
      write_tweets output_dir (S i) rest
  end.

Definition summary_json (result : SocialResult) (image_paths : gmap str (list str)) : json :=
  JObj [("title" : str, JStr (r_title result));
        ("verified" : str, JBool (r_verified result));
        ("image_paths" : str, JList (map (fun p => JStr (basename p.1)) (map_to_list image_paths)));
        ("platforms" : str,
         JObj [("twitter" : str,
                JObj [("thread" : str, JList (map JStr (r_thread result)));
                      ("thread_count" : str, JNum (r_thread_count result))]);
               ("linkedin" : str,
                JObj [("content" : str, JStr (r_linkedin result))])])].

Definition prepare_social_post (env : Env) (json_dumps : Serializer)
    (markdown_file output_dir theme : str) : M SocialResult :=
  makedirs output_dir ;;;
  post_data <- process_markdown_file env markdown_file ;;
  let images_dir := path_join output_dir "images" in
  (* the call of process_code_blocks_from_file is commented out in the
     source; the manifest starts, and stays, an empty dictionary *)
  let image_paths : gmap str (list str) := ∅ in
  let linkedin_content := clean_content post_data in
  let linkedin_content := re_sub no_flags title_line_re [] linkedin_content in
  let twitter_threads := create_twitter_thread post_data image_paths in
  let result :=
    {| r_title := title post_data;
       r_verified := verified post_data;
       r_image_paths := image_paths;
       r_thread := twitter_threads;
       r_thread_count := length twitter_threads;
       r_linkedin := linkedin_content |} in
  write_file (path_join output_dir "linkedin.txt") linkedin_content ;;;
  write_tweets output_dir 0 twitter_threads ;;;
  w <- get_world ;;
  (if negb (path_exists images_dir w)
      || negb (existsb (fun p => path_exists p.1 w) (map_to_list image_paths))
   then makedirs images_dir else ret tt) ;;;
  let base_filename := before_first "." (basename markdown_file) in
  here <- find_in_dir env base_filename "." ;;
  above <- find_in_dir env base_filename ".." ;;
  let root_images := here ++ above in
  image_paths <- move_images env images_dir root_images image_paths ;;
  write_file (path_join output_dir "summary.json")
             (json_dumps (summary_json result image_paths)) ;;;
  (* [result] holds the very dictionary the loop above updates *)
  ret {| r_title := r_title result;
         r_verified := r_verified result;
         r_image_paths := image_paths;
         r_thread := r_thread result;
         r_thread_count := r_thread_count result;
         r_linkedin := r_linkedin result |}.

(** * What the claims speak of *)

(** ** What a pattern matches *)

(** The character before the position reached after reading [w]. *)
Definition last_char (prev : option ascii) (w : str) : option ascii :=
  match last w with
  | Some c => Some c
  | None => prev
  end.

Definition within (hi : option nat) (n : nat) : Prop :=
  match hi with
  | Some h => n <= h
  | None => True
  end.

(** [matches fl r prev w next]: the pattern [r] matches exactly the text
    [w] when [prev] is the character before it and [next] the text after
    it.  Priorities play no part here: this is what can match, not what
    the search picks. *)
Fixpoint matches (fl : flags) (r : regex) (prev : option ascii) (w next : str) : Prop :=
  match r with
  | Lit l => w = l
  | Chr c => exists x, w = [x] /\ cmatch fl c x = true
  | Rep c lo hi _ =>
      lo <= length w /\ within hi (length w) /\ Forall (fun x => cmatch fl c x = true) w
  | Bol => w = [] /\ at_bol fl prev = true
  | Eol => w = [] /\ at_eol fl next = true
  | Grp _ r' => matches fl r' prev w next
  | Seq r1 r2 =>
      exists w1 w2, w = w1 ++ w2
        /\ matches fl r1 prev w1 (w2 ++ next)
        /\ matches fl r2 (last_char prev w1) w2 next
  end.

(** The pattern matches somewhere in [s]. *)
Definition occurs (fl : flags) (r : regex) (s : str) : Prop :=
  exists pre w next, s = pre ++ w ++ next /\ matches fl r (last_char None pre) w next.

(** The matcher has moved from [st] to [st'] by reading [w]. *)
Definition advances (st : mstate) (w : str) (st' : mstate) : Prop :=
  ahead st = w ++ ahead st'
  /\ off st' = off st + length w
  /\ before st' = last_char (before st) w.

(** The continuation [k] accepts every state reached from [st] by reading
    [w]. *)
Definition accepts (k : kont) (st : mstate) (w : str) : Prop :=
  forall st', advances st w st' -> is_Some (k st').

(** ** Markers, headings and lines, spelled out *)

(** [p] is a substring of [s]. *)
Definition substring (p s : str) : Prop := exists pre post, s = pre ++ p ++ post.


Definition all_space (ws : str) : Prop := Forall (fun c => is_space c = true) ws.

(** [pre] ends where a line starts; [post] starts where a line ends. *)
Definition line_start (pre : str) : Prop := pre = [] \/ last pre = Some nl.

Definition line_end (post : str) : Prop := post = [] \/ head post = Some nl.

(** A marker line, spelled out: at the start of the code or right after a
    newline, a hash, any whitespace, the keyword with its colon. *)
Definition has_marker (keyword code : str) : Prop :=
  exists pre ws post,
    code = pre ++ "#" ++ ws ++ keyword ++ post /\ line_start pre /\ all_space ws.

(** The two section headings the parser looks for, spelled out: three
    hashes, at least one whitespace character, the name; the solution
    heading is followed by a colon or a whitespace character. *)
Definition has_takeaway_heading (content : str) : Prop :=
  exists pre ws post,
    content = pre ++ "###" ++ ws ++ "The Takeaway" ++ post
    /\ 0 < length ws /\ all_space ws.

Definition has_solution_heading (content : str) : Prop :=
  exists pre ws c post,
    content = pre ++ "###" ++ ws ++ "The Solution" ++ c :: post
    /\ 0 < length ws /\ all_space ws
    /\ (c = ":"%char \/ is_space c = true).

(** What a second cleaning pass could still rewrite: a fenced code block,
    a heading line, a Python caption line. *)
Definition has_fence (t : str) : Prop :=
  exists pre lang body post,
    t = pre ++ backticks ++ lang ++ [nl] ++ body ++ backticks ++ post
    /\ Forall (fun c => is_word c = true) lang.

Definition has_heading_line (t : str) : Prop :=
  exists pre hashes ws text post,
    t = pre ++ hashes ++ ws ++ text ++ post
    /\ line_start pre
    /\ 1 <= length hashes <= 6 /\ Forall (fun c => c = "#"%char) hashes
    /\ 0 < length ws /\ all_space ws
    /\ 0 < length text /\ Forall (fun c => c <> nl) text
    /\ line_end post.

Definition has_python_line (t : str) : Prop :=
  exists pre ws post,
    t = pre ++ "Python" ++ ws ++ post
    /\ line_start pre /\ all_space ws /\ line_end post.

(** The label as the specification words it: decided by the first line of
    the block alone. *)
Definition first_line (code : str) : str := before_first nl code.

Definition spec_block_label (code : str) : str :=
  if bool_decide (is_Some (re_search re_M before_re (first_line code))) then "BEFORE" : str
  else if bool_decide (is_Some (re_search re_M after_re (first_line code))) then "AFTER" : str
  else "" : str.

(** ** Runs of newlines *)

(** The number of newlines a text starts with. *)
Fixpoint lead (s : str) : nat :=
  match s with
  | c :: t => if ascii_eqb c nl then S (lead t) else 0
  | [] => 0
  end.

(** No three newlines in a row anywhere in the text. *)
Fixpoint calm (s : str) : Prop :=
  lead s < 3 /\ match s with [] => True | _ :: t => calm t end.

(** The blank-line substitution, started with any previous character. *)
Definition collapse_from (prev : option ascii) (s : str) : str :=
  sub_pieces [RText [nl; nl]] (scan no_flags blank_lines_re prev 0 s).

(** ** Verification, processes and results *)

(** The Python blocks of a document, the ones the verifier is run on. *)
Definition is_python (b : CodeBlock) : bool := str_eqb (lower b.1.1) "python".

Definition python_blocks (content : str) : list CodeBlock :=
  filter (fun b => is_python b = true) (extract_code_blocks content).

(** The verification results of a list of blocks, one after the other. *)
Fixpoint verify_each (env : Env) (blocks : list CodeBlock) : M (list bool) :=
  match blocks with
  | [] => ret []
  | (_, code, _) :: rest =>
      ok <- verify_python_code env code ;;
      oks <- verify_each env rest ;;
      ret (ok :: oks)
  end.

(** Every process the environment runs succeeds. *)
Definition all_succeed (env : Env) : Prop :=
  forall argv fs, exists out, spawn env argv fs = Completed out.

(** A document in the file system. *)
Definition holds (w : World) (file_path content : str) : Prop :=
  files w !! file_path = Some content.

(** Every process a computation starts satisfies [P]. *)
Definition runs_only {A} (P : list str -> Prop) (c : M A) : Prop :=
  forall w, exists added, trace (c w).2 = trace w ++ added /\ Forall P added.

(** Every value a computation returns satisfies [Q]. *)
Definition returns {A} (Q : A -> Prop) (c : M A) : Prop :=
  forall w a w', c w = (Ok a, w') -> Q a.

(** The tool of an [argv] is not the image renderer. *)
Definition not_renderer (argv : list str) : Prop := head argv <> Some ("carbon-now" : str).

(** A block [process_code_blocks_from_file] renders: its language, [txt]
    when none is declared, is a recognized one. *)
Definition renderable (b : CodeBlock) : bool :=
  let lang := b.1.1 in
  is_recognized (match lang with [] => "txt" : str | _ => lang end).

(** ** Documents and environments to run the code on *)

(** Lines joined by newlines, to write documents down. *)
Definition lines (ls : list string) : str := join [nl] (map list_ascii_of_string ls).

(** The byte code [python -m py_compile path] leaves beside the file, and
    the directory it makes for it. *)
Definition byte_code_of (argv : list str) : list (str * str) :=
  match argv with
  | [_; _; _; path] =>
      [(path_join (path_join (dirname path) "__pycache__")
                  (path_stem path ++ ".cpython-311.pyc"),
        "byte code" : str)]
  | _ => []
  end.

Definition byte_code_dirs (argv : list str) : list str :=
  match argv with
  | [_; _; _; path] => [path_join (dirname path) "__pycache__"]
  | _ => []
  end.

(** An environment in which every process succeeds silently and every
    compilation is accepted, and a world holding one document. *)
Definition quiet_env : Env :=
  {| spawn := fun _ _ => Completed [];
     undecodable := fun _ _ => false;
     mkstemp := fun n suffix => ("/tmp/tmp" : str) ++ decimal n ++ suffix;
     temp_file := fun _ _ _ => Written;
     builtin_compile := fun _ => None;
     rendered := fun _ => [];
     cached := byte_code_of;
     cache_dirs := byte_code_dirs |}.

(** An environment whose syntax checker rejects code with an opening
    parenthesis, and a document whose first Python block has one. *)
Definition picky_env : Env :=
  {| spawn := fun argv fs =>
       match argv with
       | [_; _; _; path] =>
           match fs !! path with
           | Some code => if contains "(" code then Failed CalledProcessError
                          else Completed []
           | None => Completed []
           end
       | _ => Completed []
       end;
     undecodable := fun _ _ => false;
     mkstemp := fun n suffix => ("/tmp/tmp" : str) ++ decimal n ++ suffix;
     temp_file := fun _ _ _ => Written;
     builtin_compile := fun _ => None;
     rendered := fun _ => [];
     cached := byte_code_of;
     cache_dirs := byte_code_dirs |}.

Definition one_file (file_path content : str) : World :=
  {| files := {[ file_path := content ]}; dirs := ∅; temps := 0; trace := [] |}.

Definition no_json : Serializer := fun _ => "{}" : str.

(** A heading whose text starts like a heading. *)
Definition nested_heading : str := "# # x".

(** A tip write-up with the usual sections. *)
Definition tip_doc : str :=
  lines ["## Tip 1"; ""; "**Do X**"; ""; "Intro text."; "";
         "### The Problem"; "";
         "```python"; "# BEFORE: old"; "x = 1"; "```"; "";
         "### The Solution: Y"; "";
         "```python"; "# AFTER: new"; "x = 2"; "```"; ""; ""; "";
         "### The Takeaway"; ""; "- be good"]%string.

(** The two blocks of [tip_doc]. *)
Definition tip_blocks : list CodeBlock :=
  [("python" : str, lines ["# BEFORE: old"; "x = 1"; ""]%string, "BEFORE" : str);
   ("python" : str, lines ["# AFTER: new"; "x = 2"; ""]%string, "AFTER" : str)].

(** A write-up with a title and a hook. *)
Definition title_doc : str :=
  lines ["## Tip 1"; ""; "**Do X**"; ""; "More text."]%string.

(** A write-up with a solution heading and no takeaway heading. *)
Definition half_doc : str :=
  lines ["## Tip 2"; ""; "### The Solution: Y"; ""; "Do Y."]%string.

(** A block whose marker stands on its second line. *)
Definition late_marker_doc : str :=
  lines ["```python"; "x = 1"; "# BEFORE: old"; "```"]%string.

Definition late_marker_code : str := lines ["x = 1"; "# BEFORE: old"; ""]%string.

(** A block with an AFTER marker on its first line and a BEFORE marker
    further down. *)
Definition both_markers_doc : str :=
  lines ["```python"; "# AFTER: new"; "x = 2"; "# BEFORE: old"; "x = 1"; "```"]%string.

Definition both_markers_code : str :=
  lines ["# AFTER: new"; "x = 2"; "# BEFORE: old"; "x = 1"; ""]%string.

Definition broken_doc : str :=
  lines ["## Tip 3"; ""; "```python"; "print("; "```"; ""; "```Python"; "x = 2"; "```"]%string.

(** ** The entry point of generate_images.py *)

Definition is_FileNotFoundError (e : exn) : bool :=
  match e with FileNotFoundError => true | _ => false end.

Definition version_argv : list str := ["carbon-now" : str; "--version" : str].

(** [main] of generate_images.py, after the arguments are parsed: the
    renderer is asked for its version first, and nothing is processed when
    that fails with [CalledProcessError] or [FileNotFoundError]. *)
Definition generate_images_main (env : Env) (json_dumps : Serializer)
    (file output theme : str) : M unit :=
  installed <- try_except (subprocess_run env version_argv ;;; ret true)
                          (fun e => is_CalledProcessError e || is_FileNotFoundError e)
                          (ret false) ;;
  if installed
  then process_code_blocks_from_file env json_dumps file output theme ;;; ret tt
  else ret tt.

(** ** Notions for the further properties *)


(** The code of a block. *)
Definition block_code (b : CodeBlock) : str := b.1.2.


(** A path the verifier may leave its mark on: the name of a temporary
    file, or a byte-code file the syntax checker writes. *)
Definition scratch (env : Env) (p : str) : Prop :=
  (exists n suffix, p = mkstemp env n suffix)
  \/ (exists argv x, (p, x) ∈ cached env argv).

(** The computation leaves every other path as it is and removes no
    directory, whether it returns or raises. *)
Definition keeps_files {A} (env : Env) (c : M A) : Prop :=
  forall w,
    (forall p, ~ scratch env p -> files (c w).2 !! p = files w !! p)
    /\ dirs w ⊆ dirs (c w).2.


(** An environment in which one tool is not installed: starting it fails,
    every other process succeeds silently. *)
Definition env_without (missing : str) : Env :=
  {| spawn := fun argv _ =>
       match argv with
       | tool :: _ => if str_eqb tool missing then Failed FileNotFoundError
                      else Completed []
       | [] => Completed []
       end;
     undecodable := fun _ _ => false;
     mkstemp := fun n suffix => ("/tmp/tmp" : str) ++ decimal n ++ suffix;
     temp_file := fun _ _ _ => Written;
     builtin_compile := fun _ => None;
     rendered := fun _ => [];
     cached := byte_code_of;
     cache_dirs := byte_code_dirs |}.

(** Without the image renderer, without [find], without [mv]. *)
Definition bare_env : Env := env_without "carbon-now".
Definition no_find_env : Env := env_without "find".
Definition no_mv_env : Env := env_without "mv".

(** The names an image of a document can get: one per label. *)
Definition image_names (output_dir base_filename : str) : list str :=
  map (fun label => path_join output_dir (output_filename base_filename label))
      ["BEFORE" : str; "AFTER" : str; "" : str].




(** A text that neither begins nor ends with a whitespace character. *)
Definition trimmed (t : str) : Prop :=
  (forall c, head t = Some c -> is_space c = false)
  /\ (forall c, last t = Some c -> is_space c = false).

(** A text cleaning has nothing to do on. *)
Definition plain_text : str := lines ["Do X"; ""; "More text."]%string.

(** A section heading, spelled out: three hashes, at least one whitespace
    character, the name of the section. *)
Definition has_heading (name content : str) : Prop :=
  exists pre ws post,
    content = pre ++ "###" ++ ws ++ name ++ post /\ 0 < length ws /\ all_space ws.

(** A title line, spelled out: at a line start two hashes, at least one
    whitespace character, then a non-empty text without newline that runs
    to the end of its line. *)
Definition has_title_line (content : str) : Prop :=
  exists pre ws text post,
    content = pre ++ "##" ++ ws ++ text ++ post
    /\ line_start pre
    /\ 0 < length ws /\ all_space ws
    /\ 0 < length text /\ Forall (fun c => c <> nl) text
    /\ line_end post.

(** A write-up whose takeaway section stands before its solution
    section. *)
Definition reversed_doc : str :=
  lines ["## Tip 6"; ""; "### The Takeaway"; ""; "Be good."; "";
         "### The Solution: Y"; ""; "Do Y."]%string.

(** ** The entry points of the other two scripts *)

(** What [print] is called with, call by call, stands for the standard
    output. *)

(** [main] of process_post.py, after the arguments are parsed: the lines
    it prints. *)
Definition process_post_main (env : Env) (file : str) : M (list str) :=
  result <- process_markdown_file env file ;;
  ret ["Title: " ++ title result;
       "Verified: " ++ (if verified result then "Yes" : str else "No" : str);
       "Code blocks: " ++ decimal (length (code_blocks result));
       nl :: "Cleaned content for social media:";
       repeat "-"%char 40;
       (if 280 <? length (clean_content result)
        then take 280 (clean_content result) ++ "..."
        else clean_content result);
       repeat "-"%char 40].

(** The loop of [main] of prepare_social_post.py over the thread. *)
Fixpoint print_tweets (output : str) (i : nat) (tweets : list str) : list str :=
  match tweets with
  | [] => []
  | tweet :: rest =>
      ((if i =? 0 then "- Tweet 1 (Hook + Intro): " : str
        else "- Tweet 2 (Solution + Takeaway): " : str)
       ++ decimal (length tweet) ++ " chars")
      :: ("  Saved to: " ++ output ++ "/twitter_" ++ decimal (i + 1) ++ ".txt")
      :: print_tweets output (S i) rest
  end.

(** [main] of prepare_social_post.py, after the arguments are parsed
    ([output] is [None] when the option is not given): the report it prints
    once the post is prepared. *)
Definition prepare_social_post_main (env : Env) (json_dumps : Serializer)
    (file : str) (output : option str) (theme : str) : M (list str) :=
  let output :=
    match output with
    | Some (c :: o) => c :: o
    | _ => "output/" ++ before_first "." (basename file)
    end in
  result <- prepare_social_post env json_dumps file output theme ;;
  ret ([nl :: "Post preparation complete!";
        "Title: " ++ r_title result;
        "Code verified: " ++ (if r_verified result then "Yes" : str
                              else "No - review needed" : str);
        "Generated " ++ decimal (size (r_image_paths result)) ++ " code images";
        "Output saved to: " ++ output;
        nl :: "Social media content:";
        nl :: "Twitter thread (2 tweets):"]
       ++ print_tweets output 0 (r_thread result)
       ++ [nl :: "LinkedIn post:";
           "- Length: " ++ decimal (length (r_linkedin result)) ++ " chars";
           "- Saved to: " ++ output ++ "/linkedin.txt";
           "- Images: " ++ decimal (size (r_image_paths result))]).

(** A text without backtick. *)
Definition no_backtick (t : str) : Prop := Forall (fun c => c <> "`"%char) t.

(** The parts of a write-up with one code block. *)
Definition intro_text : str := lines ["Do X."; ""; ""]%string.
Definition outro_text : str := lines [""; ""; "Done."]%string.
Definition sample_code : str := lines ["# AFTER: new"; "x = 2"; ""]%string.

(** An environment without the Python interpreter. *)
Definition no_python_env : Env := env_without "python".

(** The syntax checker cannot be started: every run of it fails with an
    exception other than [CalledProcessError]. *)
Definition checker_missing (env : Env) (e : exn) : Prop :=
  is_CalledProcessError e = false
  /\ forall temp_path fs, spawn env (py_compile_argv temp_path) fs = Failed e.

(** What the parser hands on for a write-up with a title line, a hook and
    an introduction before its problem heading. *)
Definition sample_post : PostData :=
  {| title := "Tip 1";
     hook := "Do X";
     first_tweet := lines ["## Tip 1"; ""; "**Do X**"; ""; "Intro text."]%string;
     solution := [];
     takeaway := [];
     clean_content := lines ["Tip 1"; ""; "**Do X**"; ""; "Intro text."]%string;
     code_blocks := [];
     verified := true |}.

(** ** Environments that fail *)



(** An environment whose disk is full: a temporary file is made, and
    writing to it raises and leaves it empty. *)
Definition full_disk_env : Env :=
  {| spawn := fun _ _ => Completed [];
     undecodable := fun _ _ => false;
     mkstemp := fun n suffix => ("/tmp/tmp" : str) ++ decimal n ++ suffix;
     temp_file := fun _ _ _ => NotWritten OSError [];
     builtin_compile := fun _ => None;
     rendered := fun _ => [];
     cached := byte_code_of;
     cache_dirs := byte_code_dirs |}.

(** A write-up with neither a solution nor a takeaway heading and one
    plain Python block. *)
Definition unchecked_doc : str :=
  lines ["## Tip 2"; ""; "```python"; "x = 1"; "```"]%string.

(** ** Directories that can be made, files that can be written *)

(** [os.makedirs(path, exist_ok=True)] succeeds on [path]: the path is
    not empty and neither it nor a directory above it is a regular
    file. *)
Definition can_make (w : World) (path : str) : Prop :=
  path <> []
  /\ files w !! path = None
  /\ Forall (fun p => files w !! p = None) (parents path).

(** The world once [path] and the directories above it are made. *)
Definition made (path : str) (w : World) : World :=
  {| files := files w;
     dirs := {[ path ]} ∪ list_to_set (parents path) ∪ dirs w;
     temps := temps w; trace := trace w |}.

(** Every temporary file is created and written. *)
Definition temp_files_written (env : Env) : Prop :=
  forall n suffix text, temp_file env n suffix text = Written.

(** Neither a temporary file nor a rendered image lands on one of
    [paths]. *)
Definition spares (env : Env) (paths : list str) : Prop :=
  (forall n suffix, mkstemp env n suffix ∉ paths)
  /\ (forall argv p img, (p, img) ∈ rendered env argv -> p ∉ paths).

(** ** The files [prepare_social_post] writes *)



(** The computation changes no path outside [S], whether it returns or
    raises. *)
Definition writes_only {A} (S : str -> Prop) (c : M A) : Prop :=
  forall w p, ~ S p -> files (c w).2 !! p = files w !! p.


(** * Properties *)

(** ** The matcher against [matches] *)

Lemma last_char_nil prev : last_char prev [] = prev.
Proof. reflexivity. Qed.

Lemma last_char_app prev w1 w2 :
  last_char prev (w1 ++ w2) = last_char (last_char prev w1) w2.
Proof.
  unfold last_char. rewrite last_app.
  destruct (last w2); [reflexivity|]. reflexivity.
Qed.

Lemma last_char_cons prev x w : last_char prev (x :: w) = last_char (Some x) w.
Proof. apply (last_char_app prev [x] w). Qed.

Lemma advances_refl st : advances st [] st.
Proof. unfold advances. simpl. repeat split; lia. Qed.

Lemma advances_step x t st w st' :
  ahead st = x :: t -> advances (step x t st) w st' -> advances st (x :: w) st'.
Proof.
  intros Hs (Ha & Ho & Hb). unfold advances in *. simpl in *.
  rewrite Hs, Ha, Ho, Hb, last_char_cons. repeat split; lia.
Qed.

Lemma advances_trans st1 w1 st2 w2 st3 :
  advances st1 w1 st2 -> advances st2 w2 st3 -> advances st1 (w1 ++ w2) st3.
Proof.
  intros (Ha & Ho & Hb) (Ha' & Ho' & Hb'). unfold advances.
  rewrite Ha, Ha', Ho', Ho, Hb', Hb, last_char_app, length_app, <- app_assoc.
  repeat split; lia.
Qed.

Lemma ascii_eqb_eq a b : ascii_eqb a b = true <-> a = b.
Proof. apply Ascii.eqb_eq. Qed.

Lemma m_lit_sound l : forall k st res,
  m_lit l k st = Some res ->
  exists st', advances st l st' /\ caps st' = caps st /\ k st' = Some res.
Proof.
  induction l as [|y l IH]; intros k st res H; simpl in H.
  - exists st. split; [apply advances_refl|]. split; [reflexivity|assumption].
  - destruct (ahead st) as [|x t] eqn:Hs; [discriminate|].
    destruct (ascii_eqb x y) eqn:Hxy; [|discriminate].
    apply ascii_eqb_eq in Hxy. subst y.
    destruct (IH _ _ _ H) as (st' & Hadv & Hc & Hk).
    exists st'. split; [eapply advances_step; eassumption|]. split; assumption.
Qed.

Lemma m_rep_sound fl c g k : forall s lo hi st res,
  ahead st = s ->
  m_rep fl c g k s lo hi st = Some res ->
  exists w st', advances st w st' /\ caps st' = caps st
    /\ lo <= length w /\ within hi (length w)
    /\ Forall (fun x => cmatch fl c x = true) w
    /\ k st' = Some res.
Proof.
  induction s as [|x t IH]; intros lo hi st res Hs H.
  - simpl in H.
    assert (Hk : lo = 0 /\ k st = Some res).
    { destruct lo; [|discriminate]. destruct g; destruct (k st); split; congruence. }
    destruct Hk as [-> Hk]. exists [], st.
    split; [apply advances_refl|]. split; [reflexivity|].
    split; [simpl; lia|]. split; [destruct hi; simpl; lia|]. split; [constructor|assumption].
  - simpl in H.
    remember (if cmatch fl c x && negb (hi_is_zero hi)
              then m_rep fl c g k t (pred lo) (dec_hi hi) (step x t st) else None)
      as more eqn:Em.
    assert (Hmore : forall res', more = Some res' ->
      exists w st', advances st w st' /\ caps st' = caps st
        /\ lo <= length w /\ within hi (length w)
        /\ Forall (fun x => cmatch fl c x = true) w /\ k st' = Some res').
    { intros res' Hm. rewrite Em in Hm.
      destruct (cmatch fl c x) eqn:Hc; [|discriminate].
      destruct (hi_is_zero hi) eqn:Hz; [discriminate|]. simpl in Hm.
      destruct (IH _ _ (step x t st) _ eq_refl Hm)
        as (w & st' & Hadv & Hcaps & Hlo & Hhi & Hall & Hk).
      exists (x :: w), st'. split; [eapply advances_step; eassumption|].
      split; [assumption|]. split; [simpl; lia|].
      split; [|split; [constructor; assumption|assumption]].
      destruct hi as [[|h]|]; simpl in *; try discriminate; lia. }
    clear Em. destruct lo as [|lo'].
    + assert (Hhere : k st = Some res ->
        exists w st', advances st w st' /\ caps st' = caps st
          /\ 0 <= length w /\ within hi (length w)
          /\ Forall (fun x => cmatch fl c x = true) w /\ k st' = Some res).
      { intros Hk. exists [], st. split; [apply advances_refl|]. split; [reflexivity|].
        split; [simpl; lia|]. split; [destruct hi; simpl; lia|].
        split; [constructor|assumption]. }
      destruct g.
      * destruct more as [r|].
        -- apply Hmore. exact H.
        -- apply Hhere. exact H.
      * destruct (k st) as [r|] eqn:Hk.
        -- inversion H; subst r. apply Hhere. reflexivity.
        -- apply Hmore. exact H.
    + apply Hmore. exact H.
Qed.

Lemma m_sound fl r : forall k st res,
  m fl r k st = Some res ->
  exists w st', advances st w st'
    /\ matches fl r (before st) w (ahead st')
    /\ k st' = Some res.
Proof.
  induction r as [l|c|c lo hi g| | |n r IH|r1 IH1 r2 IH2]; intros k st res H; simpl in H.
  - destruct (m_lit_sound _ _ _ _ H) as (st' & Hadv & _ & Hk).
    exists l, st'. split; [assumption|]. split; [reflexivity|assumption].
  - destruct (ahead st) as [|x t] eqn:Hs; [discriminate|].
    destruct (cmatch fl c x) eqn:Hc; [|discriminate].
    exists [x], (step x t st). split.
    + eapply advances_step; [eassumption|apply advances_refl].
    + split; [|assumption]. exists x. split; [reflexivity|assumption].
  - destruct (m_rep_sound _ _ _ _ _ _ _ _ _ eq_refl H)
      as (w & st' & Hadv & _ & Hlo & Hhi & Hall & Hk).
    exists w, st'. split; [assumption|]. split; [|assumption].
    simpl. repeat split; assumption.
  - destruct (at_bol fl (before st)) eqn:Hb; [|discriminate].
    exists [], st. split; [apply advances_refl|]. split; [|assumption].
    split; [reflexivity|assumption].
  - destruct (at_eol fl (ahead st)) eqn:Hb; [|discriminate].
    exists [], st. split; [apply advances_refl|]. split; [|assumption].
    split; [reflexivity|assumption].
  - destruct (IH _ _ _ H) as (w & st' & Hadv & Hm & Hk).
    eexists w, _. split; [|split; [|exact Hk]].
    + destruct Hadv as (Ha & Ho & Hb). repeat split; simpl; assumption.
    + simpl. exact Hm.
  - destruct (IH1 _ _ _ H) as (w1 & st1 & Hadv1 & Hm1 & H1).
    destruct (IH2 _ _ _ H1) as (w2 & st2 & Hadv2 & Hm2 & H2).
    exists (w1 ++ w2), st2. split; [eapply advances_trans; eassumption|].
    split; [|assumption].
    exists w1, w2. split; [reflexivity|].
    destruct Hadv1 as (Ha1 & Ho1 & Hb1). destruct Hadv2 as (Ha2 & Ho2 & Hb2).
    rewrite <- Ha2, <- Hb1. split; assumption.
Qed.

Lemma m_lit_complete l : forall k st next,
  ahead st = l ++ next -> accepts k st l -> is_Some (m_lit l k st).
Proof.
  induction l as [|y l IH]; intros k st next Hs Hk; simpl.
  - apply Hk. apply advances_refl.
  - simpl in Hs. rewrite Hs.
    replace (ascii_eqb y y) with true by (symmetry; apply ascii_eqb_eq; reflexivity).
    apply (IH _ _ next); [reflexivity|].
    intros st' Hadv. apply Hk. eapply advances_step; eassumption.
Qed.

Lemma m_rep_complete fl c g k : forall w lo hi st next,
  ahead st = w ++ next ->
  lo <= length w -> within hi (length w) ->
  Forall (fun x => cmatch fl c x = true) w ->
  accepts k st w ->
  is_Some (m_rep fl c g k (ahead st) lo hi st).
Proof.
  induction w as [|x w IH]; intros lo hi st next Hs Hlo Hhi Hall Hk.
  - assert (lo = 0) by (simpl in Hlo; lia). subst lo.
    assert (Hhere : is_Some (k st)) by (apply Hk, advances_refl).
    destruct Hhere as [r Hr].
    destruct (ahead st) as [|y t]; simpl; rewrite Hr; destruct g; eauto;
      match goal with |- context [if ?b then _ else _] => destruct b end; eauto;
      match goal with |- is_Some (match ?o with _ => _ end) => destruct o end; eauto.
  - simpl in Hs. inversion Hall as [|? ? Hx Hw]; subst.
    assert (Hz : hi_is_zero hi = false).
    { destruct hi as [[|h]|]; simpl in *; try reflexivity. lia. }
    assert (Hmore : is_Some (m_rep fl c g k (w ++ next) (pred lo) (dec_hi hi)
                               (step x (w ++ next) st))).
    { apply (IH (pred lo) (dec_hi hi) (step x (w ++ next) st) next).
      - reflexivity.
      - simpl in Hlo. lia.
      - destruct hi as [h|]; simpl in *; [lia|exact I].
      - assumption.
      - intros st' Hadv. apply Hk. eapply advances_step; eassumption. }
    rewrite Hs. simpl. rewrite Hx, Hz. simpl.
    destruct Hmore as [r Hr]. rewrite Hr.
    destruct lo; [|eauto]. destruct g; [eauto|].
    destruct (k st); eauto.
Qed.

Lemma m_complete fl r : forall k st w next,
  ahead st = w ++ next ->
  matches fl r (before st) w next ->
  accepts k st w ->
  is_Some (m fl r k st).
Proof.
  induction r as [l|c|c lo hi g| | |n r IH|r1 IH1 r2 IH2];
    intros k st w next Hs Hm Hk; simpl in Hm; simpl.
  - subst w. eapply m_lit_complete; eassumption.
  - destruct Hm as (x & -> & Hc). simpl in Hs. rewrite Hs, Hc.
    apply Hk. eapply advances_step; [eassumption|apply advances_refl].
  - destruct Hm as (Hlo & Hhi & Hall). eapply m_rep_complete; eassumption.
  - destruct Hm as (-> & Hb). rewrite Hb. apply Hk, advances_refl.
  - destruct Hm as (-> & Hb). simpl in Hs. rewrite Hs, Hb. apply Hk, advances_refl.
  - apply (IH _ _ w next); [assumption|assumption|].
    intros st' Hadv. apply Hk. exact Hadv.
  - destruct Hm as (w1 & w2 & -> & Hm1 & Hm2).
    apply (IH1 _ _ w1 (w2 ++ next)); [rewrite Hs, app_assoc; reflexivity|assumption|].
    intros st1 (Ha1 & Ho1 & Hb1).
    assert (Hs1 : ahead st1 = w2 ++ next).
    { rewrite Hs, <- app_assoc in Ha1. apply app_inv_head in Ha1. symmetry. exact Ha1. }
    apply (IH2 _ _ w2 next); [assumption|rewrite Hb1; assumption|].
    intros st2 Hadv2. apply Hk. eapply advances_trans; [|eassumption].
    repeat split; assumption.
Qed.

(** ** One attempt, the search and the scan *)

Lemma match_at_sound fl r adv prev s mt :
  match_at fl r adv prev s = Some mt ->
  exists w next, s = w ++ next /\ m_len mt = length w /\ matches fl r prev w next
    /\ (adv = true -> 0 < length w).
Proof.
  unfold match_at. intros H.
  destruct (m fl r _ _) as [st|] eqn:Hm; [|discriminate].
  inversion H; subst mt; clear H. simpl.
  destruct (m_sound _ _ _ _ _ Hm) as (w & st' & (Ha & Ho & Hb) & Hmat & Hk).
  simpl in *. exists w, (ahead st'). split; [assumption|].
  destruct (adv && (off st' =? 0)) eqn:Hadv; [discriminate|].
  inversion Hk; subst st. split; [lia|]. split; [assumption|].
  intros ->. simpl in Hadv. apply Nat.eqb_neq in Hadv. lia.
Qed.

Lemma match_at_complete fl r prev s w next :
  s = w ++ next -> matches fl r prev w next ->
  is_Some (match_at fl r false prev s).
Proof.
  intros Hs Hm. unfold match_at.
  destruct (m_complete fl r (fun st => if false && (off st =? 0) then None else Some st)
              {| off := 0; before := prev; ahead := s; caps := [] |} w next Hs Hm)
    as [st Hst].
  - intros st' _. simpl. eauto.
  - rewrite Hst. eauto.
Qed.

Lemma search_from_sound fl r : forall s pos prev f,
  search_from fl r pos prev s = Some f ->
  exists pre w next, s = pre ++ w ++ next
    /\ matches fl r (last_char prev pre) w next
    /\ f_start f = pos + length pre
    /\ f_text f = w ++ next
    /\ m_len (f_match f) = length w.
Proof.
  induction s as [|x t IH]; intros pos prev f H; simpl in H.
  - destruct (match_at fl r false prev []) as [mt|] eqn:Hm; [|discriminate].
    inversion H; subst f; clear H.
    destruct (match_at_sound _ _ _ _ _ _ Hm) as (w & next & Hs & Hl & Hmat & _).
    exists [], w, next. simpl. repeat split; try assumption. lia.
  - destruct (match_at fl r false prev (x :: t)) as [mt|] eqn:Hm.
    + inversion H; subst f; clear H.
      destruct (match_at_sound _ _ _ _ _ _ Hm) as (w & next & Hs & Hl & Hmat & _).
      exists [], w, next. simpl. repeat split; try assumption. lia.
    + destruct (IH _ _ _ H) as (pre & w & next & Hs & Hmat & Hst & Htx & Hl).
      exists (x :: pre), w, next. rewrite last_char_cons. simpl.
      repeat split; try assumption; [congruence|lia].
Qed.

Lemma search_from_complete fl r : forall pre pos prev s w next,
  s = pre ++ w ++ next ->
  matches fl r (last_char prev pre) w next ->
  is_Some (search_from fl r pos prev s).
Proof.
  induction pre as [|x pre IH]; intros pos prev s w next Hs Hm.
  - simpl in Hs. destruct (match_at_complete fl r prev s w next Hs Hm) as [mt Hmt].
    destruct s; simpl; rewrite Hmt; eauto.
  - subst s. simpl.
    destruct (match_at fl r false prev (x :: pre ++ w ++ next)); [eauto|].
    apply (IH _ _ _ w next); [reflexivity|]. rewrite last_char_cons in Hm. exact Hm.
Qed.

Lemma re_search_occurs fl r s : is_Some (re_search fl r s) <-> occurs fl r s.
Proof.
  unfold re_search, occurs. split.
  - intros [f Hf]. destruct (search_from_sound _ _ _ _ _ _ Hf)
      as (pre & w & next & Hs & Hm & _). eauto.
  - intros (pre & w & next & Hs & Hm). eapply search_from_complete; eassumption.
Qed.

Lemma re_search_none fl r s : re_search fl r s = None <-> ~ occurs fl r s.
Proof.
  rewrite <- re_search_occurs. destruct (re_search fl r s); split; intros H.
  - discriminate.
  - exfalso. apply H. eauto.
  - intros [? ?]. discriminate.
  - reflexivity.
Qed.

Lemma sub_pieces_text repl s : sub_pieces repl (map Text s) = s.
Proof.
  unfold sub_pieces. induction s as [|x t IH]; simpl; [reflexivity|].
  f_equal. exact IH.
Qed.

Lemma scan_no_match fl r : forall s pos prev,
  search_from fl r pos prev s = None -> scan fl r prev 0 s = map Text s.
Proof.
  induction s as [|x t IH]; intros pos prev H; simpl in *.
  - destruct (match_at fl r false prev []); [discriminate|reflexivity].
  - destruct (match_at fl r false prev (x :: t)); [discriminate|].
    f_equal. eapply IH. eassumption.
Qed.

(** A substitution leaves a text without a match as it is. *)
Lemma re_sub_no_match fl r repl s : ~ occurs fl r s -> re_sub fl r repl s = s.
Proof.
  intros H. apply re_search_none in H. unfold re_sub, re_search in *.
  rewrite (scan_no_match _ _ _ _ _ H). apply sub_pieces_text.
Qed.

(** Passing over [k] characters amounts to starting [k] characters on. *)
Lemma scan_skip fl r : forall k s prev,
  k <= length s ->
  scan fl r prev k s = scan fl r (last_char prev (take k s)) 0 (drop k s).
Proof.
  induction k as [|k IH]; intros s prev Hk.
  - rewrite take_0, drop_0. reflexivity.
  - destruct s as [|x t]; [simpl in Hk; lia|].
    simpl take. simpl drop. rewrite last_char_cons, <- IH by (simpl in Hk; lia).
    reflexivity.
Qed.

(** ** Strings *)

Lemma startswith_spec p : forall s,
  startswith p s = true <-> exists post, s = p ++ post.
Proof.
  induction p as [|x p IH]; intros s; simpl.
  - split; [intros _; exists s; reflexivity|reflexivity].
  - destruct s as [|y s].
    + split; [discriminate|]. intros [post H]. discriminate.
    + rewrite andb_true_iff, ascii_eqb_eq, IH. split.
      * intros [-> [post ->]]. exists post. reflexivity.
      * intros [post H]. inversion H; subst. split; [reflexivity|eauto].
Qed.

Lemma startswith_app p s : startswith p (p ++ s) = true.
Proof. apply startswith_spec. eauto. Qed.

Lemma endswith_app p s : endswith p (s ++ p) = true.
Proof. unfold endswith. rewrite rev_app_distr. apply startswith_app. Qed.

Lemma contains_spec p : forall s, contains p s = true <-> substring p s.
Proof.
  unfold substring. induction s as [|x s IH].
  - simpl. rewrite orb_false_r, startswith_spec. split.
    + intros [post H]. exists [], post. exact H.
    + intros (pre & post & H). destruct pre; [eauto|discriminate].
  - simpl. rewrite orb_true_iff, startswith_spec, IH. split.
    + intros [[post H]|(pre & post & H)].
      * exists [], post. exact H.
      * exists (x :: pre), post. rewrite H. reflexivity.
    + intros (pre & post & H). destruct pre as [|y pre].
      * left. exists post. exact H.
      * right. inversion H; subst. eauto.
Qed.


(** ** C1: the Twitter thread *)

(** C1.  For every parsed document the thread built by
    [create_twitter_thread] is a list of exactly two strings, and the
    second one is some text followed by the fixed footer, so it ends with
    the hashtags, whatever the solution and takeaway sections hold. *)
Theorem twitter_thread_two_with_footer (post_data : PostData)
    (image_paths : gmap str (list str)) :
  exists tweet_1 body,
    create_twitter_thread post_data image_paths = [tweet_1; body ++ footer]
    /\ length (create_twitter_thread post_data image_paths) = 2
    /\ endswith "#EffectiveAI #AIEngineering" (body ++ footer) = true.
Proof.
  unfold create_twitter_thread. eexists _, _.
  split; [reflexivity|]. split; [reflexivity|].
  unfold footer. rewrite !app_assoc. apply endswith_app.
Qed.

(** ** C7 and C9: the verifier *)

Lemma verify_python_code_marker env code w :
  has_framework_marker code = true ->
  verify_python_code env code w
  = (match builtin_compile env code with
     | None => Ok true
     | Some e => if is_SyntaxError e then Ok false else Raise e
     end, w).
Proof.
  intros Hm. unfold verify_python_code. rewrite Hm.
  unfold try_except, bind, compile_source, ret.
  destruct (builtin_compile env code) as [e|]; [|reflexivity].
  destruct (is_SyntaxError e); reflexivity.
Qed.




Lemma lookup_left_behind (created : list (str * str)) (fs : gmap str str) (path : str) :
  (forall x, (path, x) ∉ created) ->
  foldr (fun '(p, x) acc => <[p := x]> acc) fs created !! path = fs !! path.
Proof.
  induction created as [|[p x] created IH]; intros Hne; [reflexivity|].
  simpl. rewrite lookup_insert_ne.
  - apply IH. intros x' Hin. apply (Hne x'). apply list_elem_of_further. exact Hin.
  - intros ->. apply (Hne x). apply list_elem_of_here.
Qed.

Lemma left_behind_is_Some (created : list (str * str)) (fs : gmap str str) (path : str) :
  is_Some (fs !! path) ->
  is_Some (foldr (fun '(p, x) acc => <[p := x]> acc) fs created !! path).
Proof.
  intros H. induction created as [|[p x] created IH]; [exact H|].
  simpl. destruct (decide (p = path)) as [->|Hne].
  - rewrite lookup_insert_eq. eauto.
  - rewrite lookup_insert_ne by exact Hne. exact IH.
Qed.

(** The run of [verify_python_code] on code without a marker, once the
    temporary file is written. *)
Lemma verify_python_code_plain env code w :
  has_framework_marker code = false ->
  temp_file env (temps w) ".py" code = Written ->
  let temp_path := mkstemp env (temps w) ".py" in
  let argv := py_compile_argv temp_path in
  let staged := <[temp_path := code]> (files w) in
  verify_python_code env code w
  = match spawn env argv staged with
    | Completed _ =>
        (Ok true,
         {| files := delete temp_path
                       (foldr (fun '(p, x) acc => <[p := x]> acc) staged (cached env argv));
            dirs := list_to_set (cache_dirs env argv) ∪ dirs w;
            temps := S (temps w); trace := trace w ++ [argv] |})
    | Failed e =>
        (if is_CalledProcessError e
         then if undecodable env argv staged then Raise UnicodeDecodeError else Ok false
         else Raise e,
         {| files := delete temp_path staged; dirs := dirs w;
            temps := S (temps w); trace := trace w ++ [argv] |})
    end.
Proof.
  intros Hm Htemp temp_path argv staged. unfold verify_python_code. rewrite Hm.
  unfold bind at 1. unfold named_temporary_file. rewrite Htemp.
  fold temp_path. fold staged. fold argv.
  unfold try_finally, try_except, bind, subprocess_run, write_byte_code, report_failure,
    unlink, set_files, ret.
  cbn [files dirs temps trace].
  destruct (spawn env argv staged) as [out|e].
  - cbn [files dirs temps trace].
    destruct (left_behind_is_Some (cached env argv) staged temp_path) as [x ->];
      [unfold staged; rewrite lookup_insert_eq; eauto|].
    reflexivity.
  - destruct (is_CalledProcessError e).
    + cbn [files]. destruct (undecodable env argv staged); cbn [files];
        unfold staged at 1; rewrite lookup_insert_eq; reflexivity.
    + cbn [files]. unfold staged at 1. rewrite lookup_insert_eq. reflexivity.
Qed.





(** The run behind the witness: the check succeeds, the temporary file is
    gone and the byte code is there. *)
Example checked_code_leaves_byte_code :
  let '(r, w') := verify_python_code quiet_env "x = 1" (one_file "tip.md" "") in
  r = Ok true
  /\ files w' !! ("/tmp/tmp0.py" : str) = None
  /\ files w' !! ("/tmp/__pycache__/tmp0.cpython-311.pyc" : str) = Some ("byte code" : str).
Proof. vm_compute. repeat split; reflexivity. Qed.


(** ** C6 and C8: the parsed document *)

Lemma holds_exists w path content : holds w path content -> path_exists path w = true.
Proof. intros H. unfold path_exists, holds in *. rewrite H. reflexivity. Qed.

Lemma holds_read w path content : holds w path content -> read_text path w = (Ok content, w).
Proof. intros H. unfold read_text, holds in *. rewrite H. reflexivity. Qed.

(** Past the existence test and the reading of a document that is there. *)
Ltac open_document Hfile :=
  unfold process_markdown_file; unfold bind at 1; unfold get_world;
  rewrite (holds_exists _ _ _ Hfile); cbn [negb];
  unfold bind at 1; rewrite (holds_read _ _ _ Hfile).

(** The loop of [process_markdown_file] does what [verify_each] does on
    the Python blocks and folds the results into the flag; an exception of
    a verification ends it. *)
Lemma verify_blocks_each env : forall blocks flag w oks w',
  verify_each env (filter (fun b => is_python b = true) blocks) w = (Ok oks, w') ->
  verify_blocks env blocks flag w = (Ok (flag && forallb id oks), w').
Proof.
  induction blocks as [|[[lang code] label] rest IH]; intros flag w oks w' H.
  - simpl in H. inversion H; subst. simpl. rewrite andb_true_r. reflexivity.
  - rewrite filter_cons in H. simpl.
    change (str_eqb (lower lang) _) with (is_python (lang, code, label)).
    destruct (decide (is_python (lang, code, label) = true)) as [Hpy|Hpy].
    + rewrite Hpy. simpl in H. unfold bind in *.
      destruct (verify_python_code env code w) as [[ok|e] w1]; [|discriminate].
      destruct (verify_each env _ w1) as [[oks'|e] w2] eqn:Hrest; [|discriminate].
      inversion H; subst. rewrite (IH _ _ _ _ Hrest). simpl.
      destruct ok, flag; reflexivity.
    + apply not_true_is_false in Hpy. rewrite Hpy. apply IH. exact H.
Qed.


(** What [process_markdown_file] comes to once the document is read: the
    outcome of the verification loop decides between a result and an
    exception. *)
Lemma process_markdown_file_after env file_path content w :
  holds w file_path content ->
  match verify_blocks env (extract_code_blocks content) true w with
  | (Ok flag, w') =>
      exists pd, process_markdown_file env file_path w = (Ok pd, w')
        /\ verified pd = flag
        /\ code_blocks pd = extract_code_blocks content
        /\ clean_content pd = clean_for_social content
        /\ (solution pd, takeaway pd) =
           match re_search no_flags solution_re content,
                 re_search no_flags takeaway_re content with
           | Some sm, Some tm =>
               (strip (slice (f_start sm) (f_start tm) content),
                strip (slice_from (f_start tm) content))
           | _, _ => ([], [])
           end
  | (Raise e, w') => process_markdown_file env file_path w = (Raise e, w')
  end.
Proof.
  intros Hfile.
  destruct (verify_blocks env (extract_code_blocks content) true w) as [[flag|e] w']
    eqn:Hv; open_document Hfile; unfold bind; rewrite Hv; [|reflexivity].
  destruct (re_search no_flags solution_re content) as [sm|];
    destruct (re_search no_flags takeaway_re content) as [tm|];
    unfold ret; eexists; (split; [reflexivity|]); simpl; repeat split; reflexivity.
Qed.

Lemma process_markdown_file_unfold env file_path content w oks w' :
  holds w file_path content ->
  verify_each env (python_blocks content) w = (Ok oks, w') ->
  exists pd, process_markdown_file env file_path w = (Ok pd, w')
    /\ verified pd = forallb id oks
    /\ code_blocks pd = extract_code_blocks content
    /\ clean_content pd = clean_for_social content
    /\ (solution pd, takeaway pd) =
       match re_search no_flags solution_re content,
             re_search no_flags takeaway_re content with
       | Some sm, Some tm =>
           (strip (slice (f_start sm) (f_start tm) content),
            strip (slice_from (f_start tm) content))
       | _, _ => ([], [])
       end.
Proof.
  intros Hfile Hv.
  pose proof (process_markdown_file_after env file_path content w Hfile) as H.
  rewrite (verify_blocks_each _ _ true _ _ _ Hv) in H. exact H.
Qed.


Lemma takeaway_heading_occurs content :
  occurs no_flags takeaway_re content <-> has_takeaway_heading content.
Proof.
  unfold occurs, has_takeaway_heading, takeaway_re, Plus. simpl. split.
  - intros (pre & w & next & -> & w1 & w2 & -> & -> & w3 & w4 & -> & (Hlo & _ & Hall) & ->).
    exists pre, w3, next. split; [|split; [lia|exact Hall]].
    rewrite <- !app_assoc. reflexivity.
  - intros (pre & ws & post & -> & Hlen & Hall).
    exists pre, ("###" ++ ws ++ "The Takeaway"), post.
    split; [rewrite <- !app_assoc; reflexivity|].
    exists ("###" : str), (ws ++ "The Takeaway"). split; [reflexivity|]. split; [reflexivity|].
    exists ws, ("The Takeaway" : str). split; [reflexivity|].
    split; [|reflexivity]. split; [lia|]. split; [exact I|exact Hall].
Qed.

Lemma solution_heading_occurs content :
  occurs no_flags solution_re content <-> has_solution_heading content.
Proof.
  unfold occurs, has_solution_heading, solution_re, Plus. simpl. split.
  - intros (pre & w & next & -> & w1 & w2 & -> & -> & w3 & w4 & -> & (Hlo & _ & Hall)
            & w5 & w6 & -> & -> & c & -> & Hc).
    exists pre, w3, c, next. split; [rewrite <- !app_assoc; reflexivity|].
    split; [lia|]. split; [exact Hall|].
    apply orb_true_iff in Hc as [Hc|Hc]; [left; apply ascii_eqb_eq; exact Hc|right; exact Hc].
  - intros (pre & ws & c & post & -> & Hlen & Hall & Hc).
    exists pre, ("###" ++ ws ++ "The Solution" ++ [c]), post.
    split; [rewrite <- !app_assoc; reflexivity|].
    exists ("###" : str), (ws ++ "The Solution" ++ [c]). split; [reflexivity|].
    split; [reflexivity|].
    exists ws, ("The Solution" ++ [c]). split; [reflexivity|].
    split; [split; [lia|split; [exact I|exact Hall]]|].
    exists ("The Solution" : str), [c]. split; [reflexivity|]. split; [reflexivity|].
    exists c. split; [reflexivity|]. apply orb_true_iff.
    destruct Hc as [->|Hc]; [left; reflexivity|right; exact Hc].
Qed.

Lemma missing_sections content :
  ~ has_solution_heading content \/ ~ has_takeaway_heading content ->
  match re_search no_flags solution_re content,
        re_search no_flags takeaway_re content with
  | Some sm, Some tm =>
      (strip (slice (f_start sm) (f_start tm) content),
       strip (slice_from (f_start tm) content))
  | _, _ => ([], [])
  end = ([], []).
Proof.
  intros Habsent.
  assert (Hnone : re_search no_flags solution_re content = None
                  \/ re_search no_flags takeaway_re content = None).
  { destruct Habsent as [H|H]; [left|right]; apply re_search_none.
    - rewrite solution_heading_occurs. exact H.
    - rewrite takeaway_heading_occurs. exact H. }
  destruct Hnone as [E|E]; rewrite E; [reflexivity|].
  destruct (re_search no_flags solution_re content); reflexivity.
Qed.

(** C6, as the code has it.  When the solution heading or the takeaway
    heading is absent from the document, the heading lookup raises nothing
    and gives two empty sections: [process_markdown_file] returns, with the
    solution and the takeaway field empty, whenever its verification loop
    returns, in particular when the document has no Python block.  It
    raises exactly when the verification loop raises, with that
    exception. *)
Theorem missing_heading_gives_empty_sections (env : Env) (file_path content : str)
    (w : World) :
  holds w file_path content ->
  ~ has_solution_heading content \/ ~ has_takeaway_heading content ->
  match verify_blocks env (extract_code_blocks content) true w with
  | (Ok _, w') =>
      exists pd, process_markdown_file env file_path w = (Ok pd, w')
        /\ solution pd = [] /\ takeaway pd = []
  | (Raise e, w') => process_markdown_file env file_path w = (Raise e, w')
  end
  /\ (python_blocks content = [] ->
      exists pd, process_markdown_file env file_path w = (Ok pd, w)
        /\ solution pd = [] /\ takeaway pd = []).
Proof.
  intros Hfile Habsent.
  pose proof (process_markdown_file_after env file_path content w Hfile) as H.
  rewrite (missing_sections content Habsent) in H.
  split.
  - destruct (verify_blocks env (extract_code_blocks content) true w) as [[flag|e] w'];
      [|exact H].
    destruct H as (pd & Hpd & _ & _ & _ & Hsec).
    exists pd. split; [exact Hpd|]. inversion Hsec. split; reflexivity.
  - intros Hnone.
    rewrite (verify_blocks_each env _ true w [] w) in H
      by (fold (python_blocks content); rewrite Hnone; reflexivity).
    destruct H as (pd & Hpd & _ & _ & _ & Hsec).
    exists pd. split; [exact Hpd|]. inversion Hsec. split; reflexivity.
Qed.


(** ** C5 and C10: the labels of code blocks *)

Lemma at_bol_line_start pre : at_bol re_M (last_char None pre) = true <-> line_start pre.
Proof.
  unfold line_start, last_char. destruct (last pre) as [c|] eqn:Hl; simpl.
  - rewrite ascii_eqb_eq. split.
    + intros ->. right. reflexivity.
    + intros [->|H]; [discriminate|congruence].
  - apply last_None in Hl. subst pre. split; [left; reflexivity|reflexivity].
Qed.

Lemma marker_occurs keyword code :
  occurs re_M (Bol · Chr (CChar "#") · Star CSpace · Lit keyword) code
  <-> has_marker keyword code.
Proof.
  unfold occurs, has_marker, Star. simpl. split.
  - intros (pre & w & next & -> & w1 & w2 & -> & (-> & Hbol) & w3 & w4 & -> & (c & -> & Hc)
            & w5 & w6 & -> & (_ & _ & Hall) & ->).
    apply ascii_eqb_eq in Hc. subst c.
    exists pre, w5, next. split; [simpl; rewrite <- !app_assoc; reflexivity|].
    split; [apply at_bol_line_start; exact Hbol|exact Hall].
  - intros (pre & ws & post & -> & Hpre & Hall).
    exists pre, ("#" ++ ws ++ keyword), post.
    split; [rewrite <- !app_assoc; reflexivity|].
    exists [], ("#" ++ ws ++ keyword). split; [reflexivity|].
    split; [split; [reflexivity|apply at_bol_line_start; exact Hpre]|].
    exists ("#" : str), (ws ++ keyword). split; [reflexivity|].
    split; [exists "#"%char; split; reflexivity|].
    exists ws, keyword. split; [reflexivity|]. split; [|reflexivity].
    split; [lia|]. split; [exact I|exact Hall].
Qed.

Lemma before_search_marker code :
  is_Some (re_search re_M before_re code) <-> has_marker "BEFORE:" code.
Proof. rewrite re_search_occurs. apply marker_occurs. Qed.

Lemma after_search_marker code :
  is_Some (re_search re_M after_re code) <-> has_marker "AFTER:" code.
Proof. rewrite re_search_occurs. apply marker_occurs. Qed.

Lemma block_label_spec code :
  (block_label code = "BEFORE" <-> has_marker "BEFORE:" code)
  /\ (block_label code = "AFTER" <->
        ~ has_marker "BEFORE:" code /\ has_marker "AFTER:" code)
  /\ (block_label code = [] <->
        ~ has_marker "BEFORE:" code /\ ~ has_marker "AFTER:" code).
Proof.
  rewrite <- before_search_marker, <- after_search_marker.
  unfold block_label.
  destruct (bool_decide (is_Some (re_search re_M before_re code))) eqn:Hb;
    [apply bool_decide_eq_true in Hb|apply bool_decide_eq_false in Hb];
    (destruct (bool_decide (is_Some (re_search re_M after_re code))) eqn:Ha;
     [apply bool_decide_eq_true in Ha|apply bool_decide_eq_false in Ha]);
    repeat split; intros; try tauto; try discriminate.
Qed.

Lemma extract_code_blocks_label markdown_content lang code label :
  (lang, code, label) ∈ extract_code_blocks markdown_content ->
  label = block_label code.
Proof.
  unfold extract_code_blocks. intros H.
  apply list_elem_of_fmap in H as ([mt s] & Heq & _).
  inversion Heq. reflexivity.
Qed.

(** C10.  A block whose code holds both a BEFORE marker line and an AFTER
    marker line is labelled BEFORE: the BEFORE marker wins, and the block
    has this one label. *)
Theorem before_marker_takes_precedence (markdown_content lang code label : str) :
  (lang, code, label) ∈ extract_code_blocks markdown_content ->
  has_marker "BEFORE:" code ->
  has_marker "AFTER:" code ->
  label = "BEFORE".
Proof.
  intros Hin Hb _. rewrite (extract_code_blocks_label _ _ _ _ Hin).
  apply block_label_spec. exact Hb.
Qed.

(** C5, as the code has it.  The label of an extracted block is BEFORE
    exactly when some line of the block is a BEFORE marker line, AFTER
    exactly when no line is a BEFORE marker line and some line is an AFTER
    marker line, and empty exactly when the block has neither; the marker
    may stand on any line, not on the first only. *)
Theorem label_follows_marker_on_any_line (markdown_content lang code label : str) :
  (lang, code, label) ∈ extract_code_blocks markdown_content ->
  (label = "BEFORE" <-> has_marker "BEFORE:" code)
  /\ (label = "AFTER" <-> ~ has_marker "BEFORE:" code /\ has_marker "AFTER:" code)
  /\ (label = [] <-> ~ has_marker "BEFORE:" code /\ ~ has_marker "AFTER:" code).
Proof.
  intros Hin. rewrite (extract_code_blocks_label _ _ _ _ Hin).
  apply block_label_spec.
Qed.

(** ** C4: cleaning twice *)

Lemma lead_le_length s : lead s <= length s.
Proof. induction s as [|c t IH]; simpl; [lia|]. destruct (ascii_eqb c nl); lia. Qed.

Lemma lead_drop s : lead (drop (lead s) s) = 0.
Proof.
  induction s as [|c t IH]; [reflexivity|]. simpl.
  destruct (ascii_eqb c nl) eqn:E; simpl; [exact IH|rewrite E; reflexivity].
Qed.

Lemma lead_app_le s t : lead s <= lead (s ++ t).
Proof. induction s as [|c s IH]; simpl; [lia|]. destruct (ascii_eqb c nl); lia. Qed.

Lemma lead_all w next :
  Forall (fun x => cmatch no_flags (CChar nl) x = true) w -> length w <= lead (w ++ next).
Proof.
  induction 1 as [|x w Hx _ IH]; simpl; [lia|].
  simpl in Hx. rewrite Hx. lia.
Qed.

(** The repetition of newlines, run greedily against a continuation that
    accepts every position past the start. *)
Lemma m_rep_newlines k :
  (forall st, 0 < off st -> k st = Some st) ->
  forall s lo st, 0 < lo + off st ->
  match m_rep no_flags (CChar nl) Greedy k s lo None st with
  | Some st' => lo <= lead s /\ off st' = off st + lead s /\ caps st' = caps st
  | None => lead s < lo
  end.
Proof.
  intros Hk. induction s as [|x t IH]; intros lo st Hpos.
  - destruct lo as [|lo']; simpl; [|lia].
    rewrite Hk by lia. repeat split; lia.
  - simpl m_rep. simpl lead. simpl cmatch.
    destruct (ascii_eqb x nl) eqn:Hx; simpl.
    + specialize (IH (pred lo) (step x t st) ltac:(simpl; lia)).
      destruct (m_rep no_flags (CChar nl) Greedy k t (pred lo) None (step x t st))
        as [st'|].
      * destruct IH as (H1 & H2 & H3). simpl in H2, H3.
        destruct lo; repeat split; lia || assumption.
      * destruct lo; simpl in IH; lia.
    + destruct lo as [|lo']; [|lia].
      rewrite Hk by lia. repeat split; lia.
Qed.

Lemma blank_match_at adv prev s :
  match_at no_flags blank_lines_re adv prev s =
  if 3 <=? lead s then Some {| m_len := lead s; m_caps := [] |} else None.
Proof.
  unfold match_at, blank_lines_re. simpl m.
  pose proof (m_rep_newlines
    (fun st => if adv && (off st =? 0) then None else Some st)) as H.
  specialize (H ltac:(intros st Hst; cbv beta;
                      replace (off st =? 0) with false
                        by (symmetry; apply Nat.eqb_neq; lia);
                      rewrite andb_false_r; reflexivity)
                s 3 {| off := 0; before := prev; ahead := s; caps := [] |} ltac:(simpl; lia)).
  destruct (m_rep _ _ _ _ _ _ _ _) as [st'|].
  - destruct H as (H1 & H2 & H3). simpl in H2, H3.
    rewrite (proj2 (Nat.leb_le _ _) H1), H2, H3. reflexivity.
  - rewrite (proj2 (Nat.leb_gt _ _) H). reflexivity.
Qed.

Lemma collapse_from_nil prev : collapse_from prev [] = [].
Proof.
  unfold collapse_from. cbn [scan]. rewrite blank_match_at. reflexivity.
Qed.

Lemma collapse_from_cons prev x t :
  collapse_from prev (x :: t) =
  if 3 <=? lead (x :: t)
  then [nl; nl] ++ collapse_from (last_char (Some x) (take (pred (lead (x :: t))) t))
                                 (drop (lead (x :: t)) (x :: t))
  else x :: collapse_from (Some x) t.
Proof.
  unfold collapse_from. cbn [scan]. rewrite blank_match_at.
  destruct (3 <=? lead (x :: t)) eqn:E; [|reflexivity].
  apply Nat.leb_le in E. cbn [m_len].
  pose proof (lead_le_length (x :: t)) as Hle. simpl length in Hle.
  destruct (lead (x :: t)) as [|n] eqn:El; [lia|].
  rewrite scan_skip by (simpl; lia). reflexivity.
Qed.

Lemma calm_cons x c :
  calm c -> (ascii_eqb x nl = true -> lead c < 2) -> calm (x :: c).
Proof.
  intros Hc Hl. split; [|exact Hc]. simpl.
  destruct (ascii_eqb x nl); [specialize (Hl eq_refl)|]; lia.
Qed.

Lemma lead_cons x c : lead (x :: c) = if ascii_eqb x nl then S (lead c) else 0.
Proof. reflexivity. Qed.

Lemma collapse_lead_and_calm : forall n s prev,
  length s <= n ->
  calm (collapse_from prev s)
  /\ (lead s < 3 -> lead (collapse_from prev s) = lead s).
Proof.
  induction n as [|n IH]; intros s prev Hn.
  - destruct s; [|simpl in Hn; lia]. rewrite collapse_from_nil.
    split; [split; [simpl; lia|exact I]|reflexivity].
  - destruct s as [|x t].
    { rewrite collapse_from_nil. split; [split; [simpl; lia|exact I]|reflexivity]. }
    rewrite collapse_from_cons.
    destruct (3 <=? lead (x :: t)) eqn:E.
    + apply Nat.leb_le in E. split; [|lia].
      set (rest := drop (lead (x :: t)) (x :: t)).
      set (prev' := last_char (Some x) (take (pred (lead (x :: t))) t)).
      assert (Hrest : length rest <= n).
      { subst rest. rewrite length_drop. simpl length in *. lia. }
      destruct (IH rest prev' Hrest) as [Hc Hl].
      assert (H0 : lead rest = 0) by apply lead_drop.
      specialize (Hl ltac:(lia)). rewrite H0 in Hl.
      change ([nl; nl] ++ collapse_from prev' rest)
        with (nl :: nl :: collapse_from prev' rest).
      apply calm_cons; [apply calm_cons; [exact Hc|]|]; intros _.
      * lia.
      * rewrite lead_cons. change (ascii_eqb nl nl) with true. cbv iota. lia.
    + apply Nat.leb_gt in E.
      destruct (IH t (Some x) ltac:(simpl in Hn; lia)) as [Hc Hl].
      rewrite lead_cons in E. rewrite !lead_cons.
      destruct (ascii_eqb x nl) eqn:Hx.
      * specialize (Hl ltac:(lia)). split.
        -- apply calm_cons; [exact Hc|]. intros _. lia.
        -- intros _. congruence.
      * split; [|reflexivity]. apply calm_cons; [exact Hc|]. intros Hf. congruence.
Qed.

Lemma calm_collapse s : calm (re_sub no_flags blank_lines_re [RText [nl; nl]] s).
Proof. apply (collapse_lead_and_calm (length s) s None). lia. Qed.

Lemma calm_drop : forall s k, calm s -> calm (drop k s).
Proof.
  induction s as [|x t IH]; intros k H; destruct k; try exact H.
  simpl. apply IH. simpl in H. tauto.
Qed.

Lemma calm_app_l : forall s t, calm (s ++ t) -> calm s.
Proof.
  induction s as [|x s IH]; intros t H.
  - simpl. split; [lia|exact I].
  - simpl in H. destruct H as [Hl Hc]. split; [|eapply IH; exact Hc].
    pose proof (lead_app_le (x :: s) t) as Hle. simpl in Hle. simpl. lia.
Qed.

Lemma calm_no_blank_lines : forall s, calm s -> ~ occurs no_flags blank_lines_re s.
Proof.
  intros s Hc (pre & w & next & -> & Hlo & _ & Hall).
  assert (H : calm (w ++ next)).
  { replace (w ++ next) with (drop (length pre) (pre ++ w ++ next)).
    - apply calm_drop. exact Hc.
    - rewrite drop_app_length. reflexivity. }
  pose proof (lead_all w next Hall) as Hle.
  destruct (w ++ next); simpl in H; destruct H as [Hl _]; simpl in *; lia.
Qed.

Lemma lstrip_suffix : forall s, exists a, s = a ++ lstrip s.
Proof.
  induction s as [|c s [a IH]]; [exists []; reflexivity|]. simpl.
  destruct (is_space c); [exists (c :: a); simpl; congruence|exists []; reflexivity].
Qed.

Lemma rstrip_prefix s : exists b, s = rstrip s ++ b.
Proof.
  unfold rstrip. destruct (lstrip_suffix (rev s)) as [a H].
  exists (rev a). rewrite <- rev_app_distr, <- H, rev_involutive. reflexivity.
Qed.

Lemma calm_strip s : calm s -> calm (strip s).
Proof.
  intros H. unfold strip.
  destruct (rstrip_prefix (lstrip s)) as [b Hb].
  apply (calm_app_l _ b). rewrite <- Hb.
  destruct (lstrip_suffix s) as [a Ha].
  replace (lstrip s) with (drop (length a) s).
  - apply calm_drop. exact H.
  - rewrite Ha at 1. rewrite drop_app_length. reflexivity.
Qed.

Lemma lstrip_fixed s :
  match s with [] => True | c :: _ => is_space c = false end -> lstrip s = s.
Proof. destruct s as [|c t]; [reflexivity|]. simpl. intros ->. reflexivity. Qed.

Lemma lstrip_head s :
  match lstrip s with [] => True | c :: _ => is_space c = false end.
Proof.
  induction s as [|c t IH]; simpl; [exact I|].
  destruct (is_space c) eqn:E; [exact IH|exact E].
Qed.

Lemma lstrip_idem s : lstrip (lstrip s) = lstrip s.
Proof. apply lstrip_fixed, lstrip_head. Qed.

Lemma rstrip_idem s : rstrip (rstrip s) = rstrip s.
Proof. unfold rstrip. rewrite rev_involutive, lstrip_idem. reflexivity. Qed.

(** Trimming the right end leaves a trimmed left end trimmed. *)
Lemma lstrip_rstrip_fixed s : lstrip s = s -> lstrip (rstrip s) = rstrip s.
Proof.
  intros Hs. apply lstrip_fixed.
  destruct (rstrip_prefix s) as [b Hb].
  destruct (rstrip s) as [|c r] eqn:Er; [exact I|].
  rewrite Hb in Hs. simpl in Hs.
  destruct (is_space c) eqn:E; [|reflexivity].
  exfalso. destruct (lstrip_suffix (r ++ b)) as [a Ha].
  assert (Hlen : length (lstrip (r ++ b)) = S (length (r ++ b))) by (rewrite Hs; reflexivity).
  rewrite Ha in Hlen at 2. rewrite length_app in Hlen. lia.
Qed.

Lemma strip_idem s : strip (strip s) = strip s.
Proof.
  unfold strip. rewrite (lstrip_rstrip_fixed (lstrip s)) by apply lstrip_idem.
  apply rstrip_idem.
Qed.

Lemma at_eol_line_end post : at_eol re_M post = true <-> line_end post.
Proof.
  unfold line_end. destruct post as [|c t]; simpl.
  - split; [left; reflexivity|reflexivity].
  - rewrite andb_true_r, ascii_eqb_eq. split.
    + intros ->. right. reflexivity.
    + intros [H|H]; [discriminate|congruence].
Qed.

Lemma fence_occurs t : occurs re_S fence_re t <-> has_fence t.
Proof.
  unfold occurs, has_fence, fence_re, Star, StarLazy. simpl. split.
  - intros (pre & w & next & -> & w1 & w2 & -> & -> & w3 & w4 & -> & (_ & _ & Hlang)
            & w5 & w6 & -> & (c & -> & Hc) & w7 & w8 & -> & _ & ->).
    apply ascii_eqb_eq in Hc. subst c.
    exists pre, w3, w7, next. split; [|exact Hlang].
    rewrite <- !app_assoc. reflexivity.
  - intros (pre & lang & body & post & -> & Hlang).
    exists pre, (backticks ++ lang ++ [nl] ++ body ++ backticks), post.
    split; [rewrite <- !app_assoc; reflexivity|].
    exists backticks, (lang ++ [nl] ++ body ++ backticks). split; [reflexivity|].
    split; [reflexivity|].
    exists lang, ([nl] ++ body ++ backticks). split; [reflexivity|].
    split; [split; [lia|split; [exact I|exact Hlang]]|].
    exists [nl], (body ++ backticks). split; [reflexivity|].
    split; [exists nl; split; reflexivity|].
    exists body, backticks. split; [reflexivity|]. split; [|reflexivity].
    split; [lia|]. split; [exact I|]. apply Forall_forall. reflexivity.
Qed.

Lemma not_newline c : negb (ascii_eqb c nl) = true <-> c <> nl.
Proof.
  rewrite negb_true_iff. split.
  - intros H ->. unfold ascii_eqb in H. rewrite Ascii.eqb_refl in H. discriminate.
  - intros H. destruct (ascii_eqb c nl) eqn:E; [|reflexivity].
    apply ascii_eqb_eq in E. contradiction.
Qed.

Lemma header_occurs t : occurs re_M header_re t <-> has_heading_line t.
Proof.
  unfold occurs, has_heading_line, header_re, Plus. simpl. split.
  - intros (pre & w & next & -> & w1 & w2 & -> & (-> & Hbol) & w3 & w4 & ->
            & (Hlo & Hhi & Hhash) & w5 & w6 & -> & (Hws & _ & Hspace)
            & w7 & w8 & -> & (Htx & _ & Htext) & -> & Heol).
    exists pre, w3, w5, w7, next.
    split; [simpl; rewrite <- !app_assoc; reflexivity|].
    split; [apply at_bol_line_start; exact Hbol|].
    split; [lia|]. split.
    { eapply Forall_impl; [exact Hhash|]. intros c Hc. apply ascii_eqb_eq. exact Hc. }
    split; [lia|]. split; [exact Hspace|]. split; [lia|]. split.
    { eapply Forall_impl; [exact Htext|]. intros c Hc. apply not_newline. exact Hc. }
    apply at_eol_line_end. exact Heol.
  - intros (pre & hashes & ws & text & post & -> & Hpre & Hn & Hhash & Hws & Hspace
            & Htx & Htext & Hpost).
    exists pre, (hashes ++ ws ++ text), post.
    split; [rewrite <- !app_assoc; reflexivity|].
    exists [], (hashes ++ ws ++ text). split; [reflexivity|].
    split; [split; [reflexivity|apply at_bol_line_start; exact Hpre]|].
    exists hashes, (ws ++ text). split; [reflexivity|]. split.
    { split; [lia|]. split; [lia|].
      eapply Forall_impl; [exact Hhash|]. intros c ->. reflexivity. }
    exists ws, text. split; [reflexivity|].
    split; [split; [lia|split; [exact I|exact Hspace]]|].
    exists text, []. split; [rewrite app_nil_r; reflexivity|]. split.
    { split; [lia|]. split; [exact I|].
      eapply Forall_impl; [exact Htext|]. intros c Hc. apply not_newline. exact Hc. }
    split; [reflexivity|]. apply at_eol_line_end. exact Hpost.
Qed.

Lemma python_line_occurs t : occurs re_M python_line_re t <-> has_python_line t.
Proof.
  unfold occurs, has_python_line, python_line_re, Star. simpl. split.
  - intros (pre & w & next & -> & w1 & w2 & -> & (-> & Hbol) & w3 & w4 & -> & ->
            & w5 & w6 & -> & (_ & _ & Hspace) & -> & Heol).
    exists pre, w5, next.
    split; [simpl; rewrite <- !app_assoc; reflexivity|].
    split; [apply at_bol_line_start; exact Hbol|].
    split; [exact Hspace|]. apply at_eol_line_end. exact Heol.
  - intros (pre & ws & post & -> & Hpre & Hspace & Hpost).
    exists pre, ("Python" ++ ws), post.
    split; [rewrite <- !app_assoc; reflexivity|].
    exists [], ("Python" ++ ws). split; [reflexivity|].
    split; [split; [reflexivity|apply at_bol_line_start; exact Hpre]|].
    exists ("Python" : str), ws. split; [reflexivity|]. split; [reflexivity|].
    exists ws, []. split; [rewrite app_nil_r; reflexivity|].
    split; [split; [lia|split; [exact I|exact Hspace]]|].
    split; [reflexivity|]. apply at_eol_line_end. exact Hpost.
Qed.

(** C4, as the code has it.  Cleaning a cleaned text changes nothing,
    provided the cleaned text holds no fenced code block, no heading line
    and no Python caption line for a second pass to rewrite (a heading
    whose text starts with heading markup, as in [# # x], keeps one level
    of it after the first pass). *)
Theorem clean_for_social_stable (s : str) :
  ~ has_fence (clean_for_social s) ->
  ~ has_heading_line (clean_for_social s) ->
  ~ has_python_line (clean_for_social s) ->
  clean_for_social (clean_for_social s) = clean_for_social s.
Proof.
  rewrite <- fence_occurs, <- header_occurs, <- python_line_occurs.
  intros Hfence Hhead Hpy.
  assert (Hcalm : calm (clean_for_social s)).
  { unfold clean_for_social. apply calm_strip, calm_collapse. }
  assert (Hstrip : strip (clean_for_social s) = clean_for_social s).
  { unfold clean_for_social. apply strip_idem. }
  remember (clean_for_social s) as t eqn:Et.
  unfold clean_for_social.
  rewrite (re_sub_no_match re_S fence_re _ t Hfence).
  rewrite (re_sub_no_match re_M header_re _ t Hhead).
  rewrite (re_sub_no_match re_M python_line_re _ t Hpy).
  rewrite (re_sub_no_match no_flags blank_lines_re _ t (calm_no_blank_lines t Hcalm)).
  exact Hstrip.
Qed.

Lemma clean_for_social_not_idempotent :
  clean_for_social nested_heading = "# x"
  /\ clean_for_social (clean_for_social nested_heading) = "x"
  /\ clean_for_social (clean_for_social nested_heading) <> clean_for_social nested_heading.
Proof.
  split; [vm_compute; reflexivity|]. split; [vm_compute; reflexivity|].
  vm_compute. discriminate.
Qed.

Lemma clean_for_social_stable_witness :
  (~ has_fence (clean_for_social tip_doc)
   /\ ~ has_heading_line (clean_for_social tip_doc)
   /\ ~ has_python_line (clean_for_social tip_doc))
  /\ clean_for_social (clean_for_social tip_doc) = clean_for_social tip_doc.
Proof.
  assert (H1 : ~ has_fence (clean_for_social tip_doc))
    by (rewrite <- fence_occurs; apply re_search_none; vm_compute; reflexivity).
  assert (H2 : ~ has_heading_line (clean_for_social tip_doc))
    by (rewrite <- header_occurs; apply re_search_none; vm_compute; reflexivity).
  assert (H3 : ~ has_python_line (clean_for_social tip_doc))
    by (rewrite <- python_line_occurs; apply re_search_none; vm_compute; reflexivity).
  split; [tauto|]. exact (clean_for_social_stable tip_doc H1 H2 H3).
Defined.

(** ** Witnesses and counterexamples for the labels *)

(** The marker stands on the second line: the block is labelled BEFORE,
    while its first line gives no label. *)
Lemma label_not_from_first_line_only :
  extract_code_blocks late_marker_doc = [("python" : str, late_marker_code, "BEFORE" : str)]
  /\ first_line late_marker_code = "x = 1"
  /\ spec_block_label late_marker_code = []
  /\ block_label late_marker_code <> spec_block_label late_marker_code.
Proof.
  split; [vm_compute; reflexivity|]. split; [vm_compute; reflexivity|].
  split; [vm_compute; reflexivity|]. vm_compute. discriminate.
Qed.

Lemma has_marker_compute keyword code :
  is_Some (re_search re_M (Bol · Chr (CChar "#") · Star CSpace · Lit keyword) code) ->
  has_marker keyword code.
Proof. intros H. apply marker_occurs, re_search_occurs. exact H. Qed.

Lemma label_follows_marker_on_any_line_witness :
  ("python" : str, late_marker_code, "BEFORE" : str) ∈ extract_code_blocks late_marker_doc
  /\ ((("BEFORE" : str) = "BEFORE" <-> has_marker "BEFORE:" late_marker_code)
      /\ (("BEFORE" : str) = "AFTER" <->
            ~ has_marker "BEFORE:" late_marker_code /\ has_marker "AFTER:" late_marker_code)
      /\ (("BEFORE" : str) = [] <->
            ~ has_marker "BEFORE:" late_marker_code /\ ~ has_marker "AFTER:" late_marker_code)).
Proof.
  assert (Hin : ("python" : str, late_marker_code, "BEFORE" : str)
                ∈ extract_code_blocks late_marker_doc).
  { replace (extract_code_blocks late_marker_doc)
      with [("python" : str, late_marker_code, "BEFORE" : str)]
      by (vm_compute; reflexivity).
    apply list_elem_of_here. }
  split; [exact Hin|].
  exact (label_follows_marker_on_any_line late_marker_doc "python"
           late_marker_code "BEFORE" Hin).
Defined.

Lemma before_marker_takes_precedence_witness :
  (("python" : str, both_markers_code, "BEFORE" : str) ∈ extract_code_blocks both_markers_doc
   /\ has_marker "BEFORE:" both_markers_code
   /\ has_marker "AFTER:" both_markers_code)
  /\ ("BEFORE" : str) = "BEFORE".
Proof.
  assert (Hin : ("python" : str, both_markers_code, "BEFORE" : str)
                ∈ extract_code_blocks both_markers_doc).
  { replace (extract_code_blocks both_markers_doc)
      with [("python" : str, both_markers_code, "BEFORE" : str)]
      by (vm_compute; reflexivity).
    apply list_elem_of_here. }
  assert (Hb : has_marker "BEFORE:" both_markers_code).
  { apply has_marker_compute. vm_compute. eauto. }
  assert (Ha : has_marker "AFTER:" both_markers_code).
  { apply has_marker_compute. vm_compute. eauto. }
  split; [tauto|].
  exact (before_marker_takes_precedence both_markers_doc "python" both_markers_code
           "BEFORE" Hin Hb Ha).
Defined.

(** ** C2 and C3: what [prepare_social_post] hands back *)

Section Traces.
Context (P : list str -> Prop).

Lemma runs_only_quiet {A} (c : M A) :
  (forall w, trace (c w).2 = trace w) -> runs_only P c.
Proof. intros H w. exists []. rewrite app_nil_r. split; [apply H|constructor]. Qed.

Lemma runs_only_ret {A} (a : A) : runs_only P (ret a).
Proof. apply runs_only_quiet. reflexivity. Qed.

Lemma runs_only_raise {A} e : runs_only P (@raise A e).
Proof. apply runs_only_quiet. reflexivity. Qed.

Lemma runs_only_get_world : runs_only P get_world.
Proof. apply runs_only_quiet. reflexivity. Qed.

Lemma runs_only_set_files f : runs_only P (set_files f).
Proof. apply runs_only_quiet. reflexivity. Qed.

Lemma runs_only_write_file path text : runs_only P (write_file path text).
Proof.
  apply runs_only_quiet. intros w. unfold write_file.
  destruct (bool_decide _); reflexivity.
Qed.

Lemma runs_only_read_text path : runs_only P (read_text path).
Proof.
  apply runs_only_quiet. intros w. unfold read_text.
  destruct (files w !! path); [reflexivity|]. destruct (bool_decide _); reflexivity.
Qed.

Lemma runs_only_makedirs path : runs_only P (makedirs path).
Proof.
  apply runs_only_quiet. intros w. unfold makedirs.
  destruct path; [reflexivity|].
  destruct (existsb _ _); [reflexivity|]. destruct (bool_decide _); reflexivity.
Qed.

Lemma runs_only_compile_source env code : runs_only P (compile_source env code).
Proof.
  apply runs_only_quiet. intros w. unfold compile_source.
  destruct (builtin_compile env code); reflexivity.
Qed.

Lemma runs_only_write_byte_code env argv : runs_only P (write_byte_code env argv).
Proof. apply runs_only_quiet. reflexivity. Qed.

Lemma runs_only_report_failure env argv : runs_only P (report_failure env argv).
Proof.
  apply runs_only_quiet. intros w. unfold report_failure.
  destruct (undecodable env argv (files w)); reflexivity.
Qed.

Lemma runs_only_unlink path : runs_only P (unlink path).
Proof.
  apply runs_only_quiet. intros w. unfold unlink.
  destruct (files w !! path); reflexivity.
Qed.

Lemma runs_only_temporary env suffix text :
  runs_only P (named_temporary_file env suffix text).
Proof.
  apply runs_only_quiet. intros w. unfold named_temporary_file.
  destruct (temp_file env (temps w) suffix text); reflexivity.
Qed.

Lemma runs_only_subprocess env argv : P argv -> runs_only P (subprocess_run env argv).
Proof.
  intros H w. exists [argv]. unfold subprocess_run.
  destruct (spawn env argv (files w)); simpl; (split; [reflexivity|]);
    constructor; auto.
Qed.

Lemma runs_only_bind {A B} (c : M A) (f : A -> M B) :
  runs_only P c -> (forall a, runs_only P (f a)) -> runs_only P (bind c f).
Proof.
  intros Hc Hf w. unfold bind.
  destruct (Hc w) as (added1 & H1 & HP1).
  destruct (c w) as [[a|e] w1]; simpl in *.
  - destruct (Hf a w1) as (added2 & H2 & HP2).
    exists (added1 ++ added2). rewrite H2, H1, app_assoc.
    split; [reflexivity|]. apply Forall_app; split; assumption.
  - exists added1. split; assumption.
Qed.

Lemma runs_only_try_except {A} (body handler : M A) caught :
  runs_only P body -> runs_only P handler ->
  runs_only P (try_except body caught handler).
Proof.
  intros Hb Hh w. unfold try_except.
  destruct (Hb w) as (added1 & H1 & HP1).
  destruct (body w) as [[a|e] w1]; simpl in *.
  - exists added1. split; assumption.
  - destruct (caught e).
    + destruct (Hh w1) as (added2 & H2 & HP2).
      exists (added1 ++ added2). rewrite H2, H1, app_assoc.
      split; [reflexivity|]. apply Forall_app; split; assumption.
    + exists added1. split; assumption.
Qed.

Lemma runs_only_try_finally {A} (body : M A) cleanup :
  runs_only P body -> runs_only P cleanup ->
  runs_only P (try_finally body cleanup).
Proof.
  intros Hb Hc w. unfold try_finally.
  destruct (Hb w) as (added1 & H1 & HP1).
  destruct (body w) as [r w1]; simpl in *.
  destruct (Hc w1) as (added2 & H2 & HP2).
  exists (added1 ++ added2).
  destruct (cleanup w1) as [[u|e] w2]; simpl in *;
    rewrite H2, H1, app_assoc; (split; [reflexivity|]);
    apply Forall_app; split; assumption.
Qed.
End Traces.

Lemma returns_ret {A} (Q : A -> Prop) a : Q a -> returns Q (ret a).
Proof. intros H w a' w' E. inversion E; subst. exact H. Qed.

Lemma returns_bind {A B} (Q0 : A -> Prop) (Q : B -> Prop) (c : M A) (f : A -> M B) :
  returns Q0 c -> (forall a, Q0 a -> returns Q (f a)) -> returns Q (bind c f).
Proof.
  intros Hc Hf w b w' E. unfold bind in E.
  destruct (c w) as [[a|e] w1] eqn:Ec; [|discriminate].
  eapply Hf; [eapply Hc; exact Ec|exact E].
Qed.

Lemma returns_any {A} (c : M A) : returns (fun _ => True) c.
Proof. intros w a w' _. exact I. Qed.

Lemma returns_try_except {A} (Q : A -> Prop) (body handler : M A) caught :
  returns Q body -> returns Q handler -> returns Q (try_except body caught handler).
Proof.
  intros Hb Hh w a w' E. unfold try_except in E.
  destruct (body w) as [[a0|e] w1] eqn:Eb.
  - inversion E; subst. eapply Hb. exact Eb.
  - destruct (caught e); [eapply Hh; exact E|discriminate].
Qed.

Lemma verify_python_code_trace env code : runs_only not_renderer (verify_python_code env code).
Proof.
  unfold verify_python_code. destruct (has_framework_marker code).
  - apply runs_only_try_except; [|apply runs_only_ret].
    apply runs_only_bind; [apply runs_only_compile_source|intros; apply runs_only_ret].
  - apply runs_only_bind; [apply runs_only_temporary|]. intros temp_path.
    apply runs_only_try_finally; [|apply runs_only_unlink].
    apply runs_only_try_except.
    + apply runs_only_bind;
        [apply runs_only_subprocess; unfold not_renderer; simpl; discriminate|].
      intros _. apply runs_only_bind; [apply runs_only_write_byte_code|].
      intros; apply runs_only_ret.
    + apply runs_only_bind; [apply runs_only_report_failure|intros; apply runs_only_ret].
Qed.

Lemma verify_blocks_trace env : forall blocks flag,
  runs_only not_renderer (verify_blocks env blocks flag).
Proof.
  induction blocks as [|[[lang code] label] rest IH]; intros flag; simpl.
  - apply runs_only_ret.
  - destruct (str_eqb _ _); [|apply IH].
    apply runs_only_bind; [apply verify_python_code_trace|]. intros ok. apply IH.
Qed.

Lemma process_markdown_file_trace env file_path :
  runs_only not_renderer (process_markdown_file env file_path).
Proof.
  unfold process_markdown_file.
  apply runs_only_bind; [apply runs_only_get_world|]. intros w.
  destruct (negb (path_exists file_path w)); [apply runs_only_raise|].
  apply runs_only_bind; [apply runs_only_read_text|]. intros content.
  apply runs_only_bind; [apply verify_blocks_trace|]. intros flag.
  destruct (re_search no_flags solution_re content);
    destruct (re_search no_flags takeaway_re content); apply runs_only_ret.
Qed.

Lemma find_images_trace env search_dir pattern :
  runs_only not_renderer (find_images env search_dir pattern).
Proof.
  unfold find_images. apply runs_only_try_except; [|apply runs_only_ret].
  apply runs_only_bind; [|intros; apply runs_only_ret].
  apply runs_only_subprocess. unfold not_renderer. simpl. discriminate.
Qed.

Lemma find_in_dir_trace env base_filename search_dir :
  runs_only not_renderer (find_in_dir env base_filename search_dir).
Proof.
  unfold find_in_dir.
  repeat (apply runs_only_bind; [apply find_images_trace|]; intros ?).
  apply runs_only_ret.
Qed.

Lemma move_image_trace env images_dir img_path image_paths :
  runs_only not_renderer (move_image env images_dir img_path image_paths).
Proof.
  unfold move_image. destruct (_ && _); [|apply runs_only_ret].
  apply runs_only_try_except; [|apply runs_only_ret].
  apply runs_only_bind; [apply runs_only_makedirs|]. intros _.
  apply runs_only_bind;
    [apply runs_only_subprocess; unfold not_renderer; simpl; discriminate|]. intros _.
  apply runs_only_bind; [apply runs_only_set_files|]. intros _. apply runs_only_ret.
Qed.

Lemma move_images_trace env images_dir : forall root_images image_paths,
  runs_only not_renderer (move_images env images_dir root_images image_paths).
Proof.
  induction root_images as [|img rest IH]; intros image_paths; simpl.
  - apply runs_only_ret.
  - apply runs_only_bind; [apply move_image_trace|]. intros m. apply IH.
Qed.

Lemma write_tweets_trace output_dir : forall tweets i,
  runs_only not_renderer (write_tweets output_dir i tweets).
Proof.
  induction tweets as [|tweet rest IH]; intros i; simpl.
  - apply runs_only_ret.
  - apply runs_only_bind; [apply runs_only_write_file|]. intros _. apply IH.
Qed.

Lemma prepare_social_post_trace env json_dumps markdown_file output_dir theme :
  runs_only not_renderer (prepare_social_post env json_dumps markdown_file output_dir theme).
Proof.
  unfold prepare_social_post.
  apply runs_only_bind; [apply runs_only_makedirs|]. intros _.
  apply runs_only_bind; [apply process_markdown_file_trace|]. intros post_data.
  apply runs_only_bind; [apply runs_only_write_file|]. intros _.
  apply runs_only_bind; [apply write_tweets_trace|]. intros _.
  apply runs_only_bind; [apply runs_only_get_world|]. intros w.
  apply runs_only_bind.
  { destruct (_ || _); [apply runs_only_makedirs|apply runs_only_ret]. }
  intros _.
  apply runs_only_bind; [apply find_in_dir_trace|]. intros here.
  apply runs_only_bind; [apply find_in_dir_trace|]. intros above.
  apply runs_only_bind; [apply move_images_trace|]. intros image_paths.
  apply runs_only_bind; [apply runs_only_write_file|]. intros _.
  apply runs_only_ret.
Qed.

Lemma move_image_empty env images_dir img_path :
  returns (fun m => m = ∅) (move_image env images_dir img_path ∅).
Proof.
  unfold move_image. destruct (_ && _); [|apply returns_ret; reflexivity].
  apply returns_try_except; [|apply returns_ret; reflexivity].
  do 3 (eapply returns_bind; [apply returns_any|]; intros ? _).
  apply returns_ret. apply fmap_empty.
Qed.

Lemma move_images_empty env images_dir : forall root_images,
  returns (fun m => m = ∅) (move_images env images_dir root_images ∅).
Proof.
  induction root_images as [|img rest IH]; simpl.
  - apply returns_ret. reflexivity.
  - eapply returns_bind; [apply move_image_empty|]. intros m ->. exact IH.
Qed.

Lemma prepare_social_post_manifest env json_dumps markdown_file output_dir theme :
  returns (fun r => r_image_paths r = ∅)
          (prepare_social_post env json_dumps markdown_file output_dir theme).
Proof.
  unfold prepare_social_post.
  do 8 (eapply returns_bind; [apply returns_any|]; intros ? _).
  eapply returns_bind; [apply move_images_empty|]. intros m ->.
  eapply returns_bind; [apply returns_any|]; intros ? _.
  apply returns_ret. reflexivity.
Qed.

(** A document with two labelled Python blocks, in an environment where
    every process succeeds: no image is rendered and the manifest is
    empty. *)
Lemma labelled_blocks_get_no_image :
  extract_code_blocks tip_doc = tip_blocks
  /\ exists r w',
       prepare_social_post quiet_env no_json "tip.md" "out" "VSCode" (one_file "tip.md" tip_doc)
       = (Ok r, w')
       /\ r_image_paths r = ∅
       /\ map head (trace w') =
          [Some ("python" : str); Some ("python" : str);
           Some ("find" : str); Some ("find" : str); Some ("find" : str); Some ("find" : str);
           Some ("find" : str); Some ("find" : str); Some ("find" : str); Some ("find" : str)].
Proof.
  split; [vm_compute; reflexivity|].
  destruct (prepare_social_post quiet_env no_json "tip.md" "out" "VSCode"
              (one_file "tip.md" tip_doc)) as [res w'] eqn:E.
  assert (Hres : exists r, res = Ok r /\ r_image_paths r = ∅).
  { pose proof (f_equal fst E) as E1. simpl in E1. rewrite <- E1.
    vm_compute. eexists. split; reflexivity. }
  destruct Hres as (r & -> & Hr).
  exists r, w'. split; [reflexivity|]. split; [exact Hr|].
  pose proof (f_equal snd E) as E2. simpl in E2. rewrite <- E2.
  vm_compute. reflexivity.
Qed.

(** C3.  For a document that starts with its title heading the LinkedIn
    body is the cleaned content as it is: the cleaning has already turned
    the heading into its bare text, the title pattern looks for two
    hashes, and so the title line stays in the LinkedIn output. *)
Theorem linkedin_body_keeps_title_line :
  clean_for_social title_doc = lines ["Tip 1"; ""; "**Do X**"; ""; "More text."]%string
  /\ exists r w',
       prepare_social_post quiet_env no_json "tip.md" "out" "VSCode"
                           (one_file "tip.md" title_doc) = (Ok r, w')
       /\ r_title r = "Tip 1"
       /\ r_linkedin r = lines ["Tip 1"; ""; "**Do X**"; ""; "More text."]%string
       /\ r_linkedin r <> lines ["**Do X**"; ""; "More text."]%string.
Proof.
  split; [vm_compute; reflexivity|].
  destruct (prepare_social_post quiet_env no_json "tip.md" "out" "VSCode"
              (one_file "tip.md" title_doc)) as [res w'] eqn:E.
  assert (Hres : exists r, res = Ok r /\ r_title r = "Tip 1"
            /\ r_linkedin r = lines ["Tip 1"; ""; "**Do X**"; ""; "More text."]%string).
  { pose proof (f_equal fst E) as E1. simpl in E1. rewrite <- E1.
    vm_compute. eexists. repeat split; reflexivity. }
  destruct Hres as (r & -> & Ht & Hl).
  exists r, w'. split; [reflexivity|]. split; [exact Ht|]. split; [exact Hl|].
  rewrite Hl. vm_compute. discriminate.
Qed.

(** The title pattern finds nothing in a text that does not begin with two
    hashes, so the LinkedIn body is then the cleaned content itself. *)
Lemma title_line_needs_hashes s :
  startswith "##" s = false -> re_sub no_flags title_line_re [] s = s.
Proof.
  intros Hs. apply re_sub_no_match.
  intros (pre & w & next & -> & w1 & w2 & -> & (-> & Hbol) & w3 & w4 & -> & -> & _).
  assert (Hpre : pre = []).
  { unfold at_bol, last_char in Hbol. destruct (last pre) eqn:El.
    - simpl in Hbol. discriminate.
    - apply last_None in El. exact El. }
  subst pre. simpl in Hs. discriminate.
Qed.

Lemma missing_heading_gives_empty_sections_witness :
  (holds (one_file "tip.md" half_doc) "tip.md" half_doc
   /\ (~ has_solution_heading half_doc \/ ~ has_takeaway_heading half_doc))
  /\ match verify_blocks quiet_env (extract_code_blocks half_doc) true
                         (one_file "tip.md" half_doc) with
     | (Ok _, w') =>
         exists pd, process_markdown_file quiet_env "tip.md" (one_file "tip.md" half_doc)
                    = (Ok pd, w')
           /\ solution pd = [] /\ takeaway pd = []
     | (Raise e, w') =>
         process_markdown_file quiet_env "tip.md" (one_file "tip.md" half_doc) = (Raise e, w')
     end
  /\ (python_blocks half_doc = [] ->
      exists pd, process_markdown_file quiet_env "tip.md" (one_file "tip.md" half_doc)
                 = (Ok pd, one_file "tip.md" half_doc)
        /\ solution pd = [] /\ takeaway pd = []).
Proof.
  assert (Hfile : holds (one_file "tip.md" half_doc) "tip.md" half_doc)
    by apply lookup_singleton_eq.
  assert (Habsent : ~ has_solution_heading half_doc \/ ~ has_takeaway_heading half_doc).
  { right. rewrite <- takeaway_heading_occurs. apply re_search_none.
    vm_compute. reflexivity. }
  split; [split; assumption|].
  exact (missing_heading_gives_empty_sections quiet_env "tip.md" half_doc
           (one_file "tip.md" half_doc) Hfile Habsent).
Defined.

(** A write-up without the two headings whose Python block cannot be
    checked, the interpreter being missing: parsing raises and returns no
    sections at all. *)
Lemma missing_heading_can_still_raise :
  holds (one_file "tip.md" unchecked_doc) "tip.md" unchecked_doc
  /\ ~ has_solution_heading unchecked_doc
  /\ ~ has_takeaway_heading unchecked_doc
  /\ (process_markdown_file no_python_env "tip.md" (one_file "tip.md" unchecked_doc)).1
     = Raise FileNotFoundError.
Proof.
  split; [apply lookup_singleton_eq|].
  split; [rewrite <- solution_heading_occurs; apply re_search_none; vm_compute; reflexivity|].
  split; [rewrite <- takeaway_heading_occurs; apply re_search_none; vm_compute; reflexivity|].
  vm_compute. reflexivity.
Qed.



(** The run behind the witness: the first block fails, the second is
    still checked, and the flag is false. *)
Example broken_doc_is_checked_to_the_end :
  exists w', verify_each picky_env (python_blocks broken_doc) (one_file "tip.md" broken_doc)
             = (Ok [false; true], w')
    /\ trace w' = [py_compile_argv "/tmp/tmp0.py"; py_compile_argv "/tmp/tmp1.py"].
Proof.
  destruct (verify_each picky_env (python_blocks broken_doc) (one_file "tip.md" broken_doc))
    as [res w'] eqn:E.
  exists w'.
  pose proof (f_equal fst E) as E1. pose proof (f_equal snd E) as E2. simpl in E1, E2.
  split.
  - f_equal. rewrite <- E1. vm_compute. reflexivity.
  - rewrite <- E2. vm_compute. reflexivity.
Qed.

(** ** Making directories *)

Lemma makedirs_files path w : files (makedirs path w).2 = files w.
Proof.
  unfold makedirs. destruct path; [reflexivity|].
  destruct (existsb _ _); [reflexivity|]. destruct (bool_decide _); reflexivity.
Qed.

Lemma makedirs_trace path w : trace (makedirs path w).2 = trace w.
Proof.
  unfold makedirs. destruct path; [reflexivity|].
  destruct (existsb _ _); [reflexivity|]. destruct (bool_decide _); reflexivity.
Qed.

Lemma makedirs_temps path w : temps (makedirs path w).2 = temps w.
Proof.
  unfold makedirs. destruct path; [reflexivity|].
  destruct (existsb _ _); [reflexivity|]. destruct (bool_decide _); reflexivity.
Qed.

Lemma parents_free w path :
  Forall (fun p => files w !! p = None) (parents path) ->
  existsb (fun p => bool_decide (is_Some (files w !! p))) (parents path) = false.
Proof.
  intros H. apply not_true_is_false. intros Hex.
  apply existsb_exists in Hex. destruct Hex as (p & Hin & Hp).
  rewrite List.Forall_forall in H. rewrite (H p Hin) in Hp.
  apply bool_decide_eq_true in Hp. destruct Hp as [x Hx]. discriminate Hx.
Qed.

Lemma makedirs_can path w : can_make w path -> makedirs path w = (Ok tt, made path w).
Proof.
  intros (Hne & Hfile & Hpar). unfold makedirs.
  destruct path as [|c path]; [contradiction|].
  rewrite (parents_free _ _ Hpar), Hfile.
  rewrite bool_decide_eq_false_2 by (intros [x Hx]; discriminate Hx).
  reflexivity.
Qed.


Lemma makedirs_outcome path w r w' :
  makedirs path w = (r, w') ->
  files w' = files w /\ trace w' = trace w /\ temps w' = temps w.
Proof.
  intros H.
  pose proof (makedirs_files path w) as Hf. pose proof (makedirs_trace path w) as Ht.
  pose proof (makedirs_temps path w) as Hn.
  rewrite H in Hf, Ht, Hn. simpl in Hf, Ht, Hn. auto.
Qed.

Lemma can_make_same w w' path :
  (forall p, p ∈ path :: parents path -> files w' !! p = files w !! p) ->
  can_make w path -> can_make w' path.
Proof.
  intros Hsame (Hne & Hfile & Hpar). split; [exact Hne|]. split.
  - rewrite Hsame by apply list_elem_of_here. exact Hfile.
  - apply List.Forall_forall. intros p Hin. rewrite List.Forall_forall in Hpar.
    rewrite Hsame; [exact (Hpar p Hin)|].
    apply list_elem_of_further. apply list_elem_of_In. exact Hin.
Qed.

Lemma can_make_made w path other : can_make w path -> can_make (made other w) path.
Proof. apply can_make_same. reflexivity. Qed.

(** ** What parsing hands on, when it returns *)

Lemma process_markdown_file_ok env file_path content w pd w' :
  holds w file_path content ->
  process_markdown_file env file_path w = (Ok pd, w') ->
  verify_blocks env (extract_code_blocks content) true w = (Ok (verified pd), w')
  /\ code_blocks pd = extract_code_blocks content
  /\ clean_content pd = clean_for_social content
  /\ (solution pd, takeaway pd) =
     match re_search no_flags solution_re content,
           re_search no_flags takeaway_re content with
     | Some sm, Some tm =>
         (strip (slice (f_start sm) (f_start tm) content),
          strip (slice_from (f_start tm) content))
     | _, _ => ([], [])
     end.
Proof.
  intros Hfile Hpd.
  pose proof (process_markdown_file_after env file_path content w Hfile) as H.
  destruct (verify_blocks env (extract_code_blocks content) true w) as [[flag|e] w1].
  - destruct H as (pd' & Hpd' & Hv & Hrest). rewrite Hpd' in Hpd.
    inversion Hpd; subst. split; [reflexivity|exact Hrest].
  - rewrite H in Hpd. discriminate Hpd.
Qed.

(** Whatever the document, the LinkedIn body is the title substitution
    applied to the cleaned content, hence the cleaned content itself unless
    that still begins with two hashes. *)
Lemma process_markdown_file_clean_content env file_path content w pd w' :
  holds w file_path content ->
  process_markdown_file env file_path w = (Ok pd, w') ->
  clean_content pd = clean_for_social content.
Proof.
  intros Hfile H.
  destruct (process_markdown_file_ok _ _ _ _ _ _ Hfile H) as (_ & _ & Hc & _). exact Hc.
Qed.

Lemma linkedin_body_is_clean_content env json_dumps markdown_file output_dir theme
    content w r w' :
  holds w markdown_file content ->
  prepare_social_post env json_dumps markdown_file output_dir theme w = (Ok r, w') ->
  r_linkedin r = re_sub no_flags title_line_re [] (clean_for_social content)
  /\ (startswith "##" (clean_for_social content) = false ->
      r_linkedin r = clean_for_social content).
Proof.
  intros Hfile H.
  assert (Hl : r_linkedin r = re_sub no_flags title_line_re [] (clean_for_social content)).
  { unfold prepare_social_post in H. unfold bind at 1 in H.
    destruct (makedirs output_dir w) as [[[]|e] w0] eqn:Hmk; [|discriminate].
    destruct (makedirs_outcome _ _ _ _ Hmk) as (Hf0 & _ & _).
    assert (Hfile0 : holds w0 markdown_file content)
      by (unfold holds; rewrite Hf0; exact Hfile).
    unfold bind at 1 in H.
    destruct (process_markdown_file env markdown_file w0) as [[pd|e] w1] eqn:Hpd;
      [|discriminate].
    rewrite <- (process_markdown_file_clean_content env markdown_file content
                  w0 pd w1 Hfile0 Hpd).
    match type of H with
    | ?c w1 = _ =>
        assert (Hret : returns
                  (fun r => r_linkedin r = re_sub no_flags title_line_re [] (clean_content pd))
                  c)
    end.
    { do 8 (eapply returns_bind; [apply returns_any|]; intros ? _).
      apply returns_ret. reflexivity. }
    exact (Hret _ _ _ H). }
  split; [exact Hl|]. intros Hs. rewrite Hl. apply title_line_needs_hashes. exact Hs.
Qed.

(** ** The renderer, when it is called *)

Lemma generate_image_with_carbon_ok env json_dumps code language output_path theme w w' :
  generate_image_with_carbon env json_dumps code language output_path theme w = (Ok tt, w') ->
  trace w' = trace w ++
    [carbon_argv json_dumps (mkstemp env (temps w) ("." ++ language))
                 output_path language theme].
Proof.
  unfold generate_image_with_carbon, bind, named_temporary_file, subprocess_run, set_files.
  destruct (temp_file env (temps w) ("." ++ language) code); [|discriminate..].
  cbn [files temps trace dirs].
  destruct (spawn env _ _); [|discriminate].
  intros H. inversion H. reflexivity.
Qed.

Lemma generate_image_with_carbon_run env json_dumps code language output_path theme w
    paths :
  all_succeed env ->
  temp_files_written env ->
  spares env paths ->
  exists w', generate_image_with_carbon env json_dumps code language output_path theme w
             = (Ok tt, w')
    /\ trace w' = trace w ++
         [carbon_argv json_dumps (mkstemp env (temps w) ("." ++ language))
                      output_path language theme]
    /\ (forall p, p ∈ paths -> files w' !! p = files w !! p).
Proof.
  intros Hall Htemp [Hfresh Himg].
  unfold generate_image_with_carbon, bind, named_temporary_file, subprocess_run, set_files.
  rewrite Htemp. cbn [files temps trace dirs].
  match goal with |- context [spawn env ?a ?f] => destruct (Hall a f) as [out ->] end.
  eexists. split; [reflexivity|]. split; [reflexivity|].
  intros p Hp. cbn [files].
  rewrite lookup_left_behind by (intros img Hin; exact (Himg _ _ _ Hin Hp)).
  apply lookup_insert_ne. intros <-. exact (Hfresh _ _ Hp).
Qed.

(** Whenever [render_blocks] returns, it returns one output path for each
    renderable block, after the paths it was given, and has started the
    renderer once for each. *)
Lemma render_blocks_returns env json_dumps output_dir base_filename theme :
  forall blocks image_paths w paths w',
  render_blocks env json_dumps output_dir base_filename theme blocks image_paths w
  = (Ok paths, w') ->
  paths = image_paths ++
          map (fun b => path_join output_dir (output_filename base_filename b.2))
              (filter (fun b => renderable b = true) blocks)
  /\ exists added,
       trace w' = trace w ++ added
       /\ map head added =
          map (fun _ => Some ("carbon-now" : str)) (filter (fun b => renderable b = true) blocks).
Proof.
  induction blocks as [|[[lang code] label] rest IH]; intros image_paths w paths w' H.
  - simpl in H. inversion H; subst. simpl. rewrite app_nil_r.
    split; [reflexivity|]. exists []. rewrite app_nil_r. split; reflexivity.
  - rewrite filter_cons. cbn [render_blocks] in H.
    change (is_recognized match lang with [] => "txt" : str | _ => lang end)
      with (renderable (lang, code, label)) in H.
    destruct (decide (renderable (lang, code, label) = true)) as [Hr|Hr].
    + rewrite Hr in H. cbn [negb] in H. unfold bind at 1 in H.
      destruct (makedirs output_dir w) as [[[]|e] w0] eqn:Hmk; [|discriminate].
      destruct (makedirs_outcome _ _ _ _ Hmk) as (_ & Ht0 & Hn0).
      unfold bind at 1 in H.
      match type of H with context [generate_image_with_carbon ?e ?j ?c ?l ?o ?t w0] =>
        destruct (generate_image_with_carbon e j c l o t w0) as [[[]|e1] w1] eqn:Hg;
          [|discriminate]
      end.
      apply generate_image_with_carbon_ok in Hg.
      destruct (IH _ _ _ _ H) as (-> & added & Ht & Hh).
      split; [simpl; rewrite <- app_assoc; reflexivity|].
      eexists (_ :: added). split.
      * rewrite Ht, Hg, Ht0. rewrite <- app_assoc. reflexivity.
      * simpl. rewrite Hh. reflexivity.
    + apply not_true_is_false in Hr. rewrite Hr in H. cbn [negb] in H.
      exact (IH _ _ _ _ H).
Qed.

(** With a renderer that succeeds, temporary files that get written and an
    output directory that can be made, [render_blocks] returns. *)
Lemma render_blocks_all env json_dumps output_dir base_filename theme :
  all_succeed env ->
  temp_files_written env ->
  spares env (output_dir :: parents output_dir) ->
  forall blocks image_paths w,
  can_make w output_dir ->
  exists w' added,
    render_blocks env json_dumps output_dir base_filename theme blocks image_paths w
    = (Ok (image_paths ++
           map (fun b => path_join output_dir (output_filename base_filename b.2))
               (filter (fun b => renderable b = true) blocks)), w')
    /\ trace w' = trace w ++ added
    /\ map head added =
       map (fun _ => Some ("carbon-now" : str)) (filter (fun b => renderable b = true) blocks).
Proof.
  intros Hall Htemp Hspare.
  induction blocks as [|[[lang code] label] rest IH]; intros image_paths w Hcan.
  - exists w, []. simpl. rewrite !app_nil_r. repeat split; reflexivity.
  - rewrite filter_cons. cbn [render_blocks].
    change (is_recognized match lang with [] => "txt" : str | _ => lang end)
      with (renderable (lang, code, label)).
    destruct (decide (renderable (lang, code, label) = true)) as [Hr|Hr].
    + rewrite Hr. cbn [negb]. unfold bind at 1. rewrite (makedirs_can _ _ Hcan).
      unfold bind at 1.
      match goal with |- context [generate_image_with_carbon ?e ?j ?c ?l ?o ?t ?w0] =>
        destruct (generate_image_with_carbon_run e j c l o t w0 _ Hall Htemp Hspare)
          as (w1 & -> & Ht1 & Hf1)
      end.
      assert (Hcan1 : can_make w1 output_dir).
      { apply (can_make_same (made output_dir w)); [exact Hf1|].
        apply can_make_made. exact Hcan. }
      destruct (IH (image_paths ++
                    [path_join output_dir (output_filename base_filename label)]) w1 Hcan1)
        as (w' & added & -> & Ht & Hh).
      eexists w', (_ :: added). split; [|split].
      * simpl. rewrite <- app_assoc. reflexivity.
      * rewrite Ht, Ht1. simpl. rewrite <- app_assoc. reflexivity.
      * simpl. rewrite Hh. reflexivity.
    + apply not_true_is_false in Hr. rewrite Hr. cbn [negb]. apply IH. exact Hcan.
Qed.

Lemma process_code_blocks_from_file_renders env json_dumps markdown_file output_dir theme
    content w :
  holds w markdown_file content ->
  all_succeed env ->
  temp_files_written env ->
  can_make w output_dir ->
  spares env (output_dir :: parents output_dir) ->
  let base_filename := before_first "." (basename markdown_file) in
  let wanted := filter (fun b => renderable b = true) (extract_code_blocks content) in
  exists w' added,
    process_code_blocks_from_file env json_dumps markdown_file output_dir theme w
    = (Ok (map (fun b => path_join output_dir (output_filename base_filename b.2)) wanted), w')
    /\ trace w' = trace w ++ added
    /\ map head added = map (fun _ => Some ("carbon-now" : str)) wanted.
Proof.
  intros Hfile Hall Htemp Hcan Hspare base_filename wanted.
  unfold process_code_blocks_from_file. unfold bind at 1.
  rewrite (holds_read _ _ _ Hfile). unfold bind at 1. rewrite (makedirs_can _ _ Hcan).
  match goal with |- context [render_blocks ?e ?j ?o ?b ?t ?bs ?acc ?w0] =>
    destruct (render_blocks_all e j o b t Hall Htemp Hspare bs acc w0
                (can_make_made _ _ _ Hcan)) as (w' & added & -> & Ht & Hh)
  end.
  exists w', added. split; [reflexivity|]. split; [exact Ht|exact Hh].
Qed.

Lemma process_code_blocks_from_file_returns env json_dumps markdown_file output_dir theme
    w paths w' :
  process_code_blocks_from_file env json_dumps markdown_file output_dir theme w
  = (Ok paths, w') ->
  let base_filename := before_first "." (basename markdown_file) in
  exists content,
    holds w markdown_file content
    /\ let wanted := filter (fun b => renderable b = true) (extract_code_blocks content) in
       paths = map (fun b => path_join output_dir (output_filename base_filename b.2)) wanted
       /\ exists added,
            trace w' = trace w ++ added
            /\ map head added = map (fun _ => Some ("carbon-now" : str)) wanted.
Proof.
  intros H base_filename.
  unfold process_code_blocks_from_file in H. unfold bind at 1 in H.
  unfold read_text in H. unfold holds.
  destruct (files w !! markdown_file) as [content|] eqn:Hc;
    [|destruct (bool_decide _); discriminate].
  exists content. split; [reflexivity|].
  unfold bind at 1 in H.
  destruct (makedirs output_dir w) as [[[]|e] w0] eqn:Hmk; [|discriminate].
  destruct (makedirs_outcome _ _ _ _ Hmk) as (_ & Ht0 & _).
  destruct (render_blocks_returns _ _ _ _ _ _ _ _ _ _ H) as (-> & added & Ht & Hh).
  split; [reflexivity|]. exists added. rewrite Ht, Ht0. split; [reflexivity|exact Hh].
Qed.

(** C2, as the code has it.  [prepare_social_post] starts the syntax
    checker, [find] and [mv] and never the image renderer, because its call
    of [process_code_blocks_from_file] is disabled, and the image manifest
    of its result is the empty dictionary, whatever blocks the document
    has.  The rendering is what [process_code_blocks_from_file] does when
    it is called: with a renderer that succeeds, temporary files that get
    written and an output directory that can be made, it starts the
    renderer once for each block of a recognized language ([txt] when none
    is declared), labelled or not, and returns the list of the output
    paths, one per such block; and whenever it returns at all, that is
    what it returns and has done. *)
Theorem rendering_is_left_to_generate_images (env : Env) (json_dumps : Serializer)
    (markdown_file output_dir theme : str) (w : World) :
  (let '(res, w') := prepare_social_post env json_dumps markdown_file output_dir theme w in
   (exists added, trace w' = trace w ++ added /\ Forall not_renderer added)
   /\ match res with
      | Ok r => r_image_paths r = ∅
      | Raise _ => True
      end)
  /\ (forall content,
        holds w markdown_file content ->
        all_succeed env ->
        temp_files_written env ->
        can_make w output_dir ->
        spares env (output_dir :: parents output_dir) ->
        let base_filename := before_first "." (basename markdown_file) in
        let wanted := filter (fun b => renderable b = true) (extract_code_blocks content) in
        exists w' added,
          process_code_blocks_from_file env json_dumps markdown_file output_dir theme w
          = (Ok (map (fun b => path_join output_dir (output_filename base_filename b.2))
                     wanted), w')
          /\ trace w' = trace w ++ added
          /\ map head added = map (fun _ => Some ("carbon-now" : str)) wanted)
  /\ (forall paths w',
        process_code_blocks_from_file env json_dumps markdown_file output_dir theme w
        = (Ok paths, w') ->
        let base_filename := before_first "." (basename markdown_file) in
        exists content,
          holds w markdown_file content
          /\ let wanted :=
               filter (fun b => renderable b = true) (extract_code_blocks content) in
             paths = map (fun b => path_join output_dir (output_filename base_filename b.2))
                         wanted
             /\ exists added,
                  trace w' = trace w ++ added
                  /\ map head added = map (fun _ => Some ("carbon-now" : str)) wanted).
Proof.
  split; [|split].
  - pose proof (prepare_social_post_trace env json_dumps markdown_file output_dir theme w)
      as Ht.
    pose proof (prepare_social_post_manifest env json_dumps markdown_file output_dir theme w)
      as Hr.
    destruct (prepare_social_post env json_dumps markdown_file output_dir theme w)
      as [res w'].
    split; [exact Ht|]. destruct res as [r|e]; [|exact I].
    eapply Hr. reflexivity.
  - intros content Hfile Hall Htemp Hcan Hspare.
    apply process_code_blocks_from_file_renders; assumption.
  - intros paths w' H.
    exact (process_code_blocks_from_file_returns _ _ _ _ _ _ _ _ H).
Qed.

Lemma quiet_env_all_succeed : all_succeed quiet_env.
Proof. intros argv fs. exists []. reflexivity. Qed.

Lemma quiet_env_temp_files_written : temp_files_written quiet_env.
Proof. intros n suffix text. reflexivity. Qed.

Lemma tip_images_can_be_made : can_make (one_file "tip.md" tip_doc) "out/images".
Proof.
  split; [discriminate|]. split; [reflexivity|].
  repeat constructor.
Qed.

Lemma quiet_env_spares_images : spares quiet_env (("out/images" : str) :: parents "out/images").
Proof.
  split.
  - intros n suffix Hin. cbn [mkstemp quiet_env] in Hin.
    change (parents "out/images") with [("out" : str)] in Hin.
    apply elem_of_cons in Hin. destruct Hin as [Hin|Hin]; [discriminate Hin|].
    apply list_elem_of_singleton in Hin. discriminate Hin.
  - intros argv p img Hin. cbn [rendered quiet_env] in Hin.
    apply elem_of_nil in Hin. contradiction.
Qed.

Lemma rendering_is_left_to_generate_images_witness :
  (holds (one_file "tip.md" tip_doc) "tip.md" tip_doc /\ all_succeed quiet_env
   /\ temp_files_written quiet_env
   /\ can_make (one_file "tip.md" tip_doc) "out/images"
   /\ spares quiet_env (("out/images" : str) :: parents "out/images"))
  /\ let base_filename := before_first "." (basename "tip.md") in
     let wanted := filter (fun b => renderable b = true) (extract_code_blocks tip_doc) in
     exists w' added,
       process_code_blocks_from_file quiet_env no_json "tip.md" "out/images" "VSCode"
                                     (one_file "tip.md" tip_doc)
       = (Ok (map (fun b => path_join "out/images" (output_filename base_filename b.2))
                  wanted), w')
       /\ trace w' = trace (one_file "tip.md" tip_doc) ++ added
       /\ map head added = map (fun _ => Some ("carbon-now" : str)) wanted.
Proof.
  assert (Hfile : holds (one_file "tip.md" tip_doc) "tip.md" tip_doc)
    by apply lookup_singleton_eq.
  split.
  { split; [exact Hfile|]. split; [exact quiet_env_all_succeed|].
    split; [exact quiet_env_temp_files_written|].
    split; [exact tip_images_can_be_made|exact quiet_env_spares_images]. }
  pose proof (rendering_is_left_to_generate_images quiet_env no_json "tip.md"
                "out/images" "VSCode" (one_file "tip.md" tip_doc)) as H.
  destruct H as (_ & H & _).
  exact (H tip_doc Hfile quiet_env_all_succeed quiet_env_temp_files_written
           tip_images_can_be_made quiet_env_spares_images).
Defined.

(** Where the output directory cannot be made, here below a regular
    file, nothing is rendered and the error of [os.makedirs] is raised. *)
Example rendering_needs_its_directory :
  let '(r, w') := process_code_blocks_from_file quiet_env no_json "tip.md" "tip.md/images"
                    "VSCode" (one_file "tip.md" tip_doc) in
  r = Raise NotADirectoryError /\ trace w' = [].
Proof. vm_compute. split; reflexivity. Qed.

(** The run behind the witness: both blocks of [tip_doc] are rendered. *)
Example tip_doc_is_rendered_block_by_block :
  filter (fun b => renderable b = true) (extract_code_blocks tip_doc) = tip_blocks
  /\ (process_code_blocks_from_file quiet_env no_json "tip.md" "out/images" "VSCode"
                                    (one_file "tip.md" tip_doc)).1
     = Ok [("out/images/tip_BEFORE.png" : str); ("out/images/tip_AFTER.png" : str)].
Proof. split; vm_compute; reflexivity. Qed.

(** * Further properties of the scripts *)

(** ** Documents whose Python blocks all use the framework *)




(** ** A missing input file *)





(** A directory where the document should be. *)
Example directory_is_not_a_document :
  (process_markdown_file quiet_env "out" (made "out" (one_file "tip.md" title_doc))).1
  = Raise IsADirectoryError.
Proof. vm_compute. reflexivity. Qed.

(** ** The file system after parsing *)

Lemma keeps_files_world {A} env (c : M A) :
  (forall w, files (c w).2 = files w /\ dirs (c w).2 = dirs w) -> keeps_files env c.
Proof.
  intros H w. destruct (H w) as [Hf Hd]. split.
  - intros p _. rewrite Hf. reflexivity.
  - rewrite Hd. reflexivity.
Qed.

Lemma keeps_files_ret {A} env (a : A) : keeps_files env (ret a).
Proof. apply keeps_files_world. intros w. split; reflexivity. Qed.

Lemma keeps_files_raise {A} env e : keeps_files env (@raise A e).
Proof. apply keeps_files_world. intros w. split; reflexivity. Qed.

Lemma keeps_files_bind {A B} env (c : M A) (f : A -> M B) :
  keeps_files env c -> (forall a, keeps_files env (f a)) -> keeps_files env (bind c f).
Proof.
  intros Hc Hf w. unfold bind. destruct (Hc w) as [H1 H2].
  destruct (c w) as [[a|e] w1]; simpl in *.
  - destruct (Hf a w1) as [H3 H4]. split.
    + intros p Hp. rewrite H3 by exact Hp. apply H1. exact Hp.
    + etransitivity; eassumption.
  - split; assumption.
Qed.

Lemma verify_python_code_keeps_files env code : keeps_files env (verify_python_code env code).
Proof.
  intros w.
  destruct (has_framework_marker code) eqn:Hm.
  { rewrite (verify_python_code_marker env code w Hm). split; reflexivity. }
  destruct (temp_file env (temps w) ".py" code) as [|e|e partial] eqn:Htemp.
  - rewrite (verify_python_code_plain env code w Hm Htemp).
    destruct (spawn env _ _) as [out|e]; cbn [snd files dirs]; split.
    + intros p Hp. rewrite lookup_delete_ne by (intros <-; apply Hp; left; eauto).
      rewrite lookup_left_behind by (intros x Hin; apply Hp; right; eauto).
      apply lookup_insert_ne. intros <-. apply Hp. left. eauto.
    + apply union_subseteq_r.
    + intros p Hp. rewrite lookup_delete_ne by (intros <-; apply Hp; left; eauto).
      apply lookup_insert_ne. intros <-. apply Hp. left. eauto.
    + reflexivity.
  - unfold verify_python_code. rewrite Hm. unfold bind, named_temporary_file.
    rewrite Htemp. split; reflexivity.
  - unfold verify_python_code. rewrite Hm. unfold bind, named_temporary_file.
    rewrite Htemp. cbn [snd files dirs]. split; [|reflexivity].
    intros p Hp. apply lookup_insert_ne. intros <-. apply Hp. left. eauto.
Qed.

Lemma verify_blocks_keeps_files env : forall blocks flag,
  keeps_files env (verify_blocks env blocks flag).
Proof.
  induction blocks as [|[[lang code] label] rest IH]; intros flag; simpl.
  - apply keeps_files_ret.
  - destruct (str_eqb _ _); [|apply IH].
    apply keeps_files_bind; [apply verify_python_code_keeps_files|]. intros ok. apply IH.
Qed.

Lemma read_text_world path w : (read_text path w).2 = w.
Proof.
  unfold read_text. destruct (files w !! path); [reflexivity|].
  destruct (bool_decide _); reflexivity.
Qed.

Lemma process_markdown_file_keeps_files env file_path :
  keeps_files env (process_markdown_file env file_path).
Proof.
  unfold process_markdown_file.
  apply keeps_files_bind; [apply keeps_files_world; intros w0; split; reflexivity|].
  intros w0. destruct (negb _); [apply keeps_files_raise|].
  apply keeps_files_bind.
  { apply keeps_files_world. intros w1. rewrite read_text_world. split; reflexivity. }
  intros content.
  apply keeps_files_bind; [apply verify_blocks_keeps_files|]. intros flag.
  destruct (re_search no_flags solution_re content);
    destruct (re_search no_flags takeaway_re content); apply keeps_files_ret.
Qed.

(** X3.  Parsing changes no file of the user: but for the temporary files
    and the byte code the syntax checker leaves, every path holds after
    [process_markdown_file] what it held before, and no directory is
    lost, whether the function returns or raises. *)
Theorem parsing_keeps_the_file_system (env : Env) (file_path : str) (w : World)
    (p : str) :
  ~ scratch env p ->
  let w' := (process_markdown_file env file_path w).2 in
  files w' !! p = files w !! p /\ dirs w ⊆ dirs w'.
Proof.
  intros Hp.
  destruct (process_markdown_file_keeps_files env file_path w) as [Hf Hd].
  split; [exact (Hf p Hp)|exact Hd].
Qed.

Lemma path_join_length a b : length b <= length (path_join a b).
Proof.
  unfold path_join. destruct (startswith "/" b); [lia|].
  destruct a as [|x a]; [lia|].
  destruct (endswith "/" (x :: a)); rewrite !length_app; lia.
Qed.

Lemma byte_code_is_long argv p x : (p, x) ∈ byte_code_of argv -> 16 <= length p.
Proof.
  unfold byte_code_of.
  destruct argv as [|a0 [|a1 [|a2 [|path [|a4 argv]]]]]; intros Hin;
    try (apply elem_of_nil in Hin; contradiction).
  apply list_elem_of_singleton in Hin. injection Hin as -> _.
  etransitivity; [|apply path_join_length]. rewrite length_app. cbn [length]. lia.
Qed.

Lemma document_is_not_scratch : ~ scratch picky_env "tip.md".
Proof.
  intros [(n & suffix & H)|(argv & x & H)].
  - discriminate H.
  - apply byte_code_is_long in H. vm_compute in H. lia.
Qed.

Lemma parsing_keeps_the_file_system_witness :
  ~ scratch picky_env "tip.md"
  /\ let w' := (process_markdown_file picky_env "tip.md" (one_file "tip.md" broken_doc)).2 in
     files w' !! ("tip.md" : str) = files (one_file "tip.md" broken_doc) !! ("tip.md" : str)
     /\ dirs (one_file "tip.md" broken_doc) ⊆ dirs w'.
Proof.
  split; [exact document_is_not_scratch|].
  exact (parsing_keeps_the_file_system picky_env "tip.md" (one_file "tip.md" broken_doc)
           "tip.md" document_is_not_scratch).
Defined.

(** ** The renderer is missing, fails, or has nothing to do *)

(** X4.  [main] of generate_images.py asks the renderer for its version first.
    When that run fails with [CalledProcessError] or [FileNotFoundError],
    [main] returns normally and has done nothing else: no file is read or
    written, no directory is made, no other process is started.  Any other
    failure of that run is raised. *)
Theorem missing_renderer_stops_main (env : Env) (json_dumps : Serializer)
    (file output theme : str) (w : World) (e : exn) :
  spawn env version_argv (files w) = Failed e ->
  generate_images_main env json_dumps file output theme w
  = (if is_CalledProcessError e || is_FileNotFoundError e then Ok tt else Raise e,
     {| files := files w; dirs := dirs w; temps := temps w;
        trace := trace w ++ [version_argv] |}).
Proof.
  intros H. unfold generate_images_main, bind, try_except, subprocess_run. rewrite H.
  destruct e; reflexivity.
Qed.

Lemma missing_renderer_stops_main_witness :
  spawn bare_env version_argv (files (one_file "tip.md" tip_doc)) = Failed FileNotFoundError
  /\ generate_images_main bare_env no_json "tip.md" "images" "VSCode" (one_file "tip.md" tip_doc)
     = (Ok tt,
        {| files := files (one_file "tip.md" tip_doc); dirs := dirs (one_file "tip.md" tip_doc);
           temps := temps (one_file "tip.md" tip_doc);
           trace := trace (one_file "tip.md" tip_doc) ++ [version_argv] |}).
Proof.
  assert (H : spawn bare_env version_argv (files (one_file "tip.md" tip_doc))
              = Failed FileNotFoundError) by reflexivity.
  split; [exact H|].
  exact (missing_renderer_stops_main bare_env no_json "tip.md" "images" "VSCode"
           (one_file "tip.md" tip_doc) FileNotFoundError H).
Defined.

Lemma render_blocks_skip env json_dumps output_dir base_filename theme :
  forall skipped blocks image_paths w,
  Forall (fun b => renderable b = false) skipped ->
  render_blocks env json_dumps output_dir base_filename theme (skipped ++ blocks) image_paths w
  = render_blocks env json_dumps output_dir base_filename theme blocks image_paths w.
Proof.
  induction skipped as [|[[lang code] label] rest IH]; intros blocks image_paths w Hs.
  - reflexivity.
  - inversion Hs as [|b l Hb Hrest]; subst.
    cbn [app render_blocks].
    change (is_recognized match lang with [] => "txt" : str | _ => lang end)
      with (renderable (lang, code, label)).
    rewrite Hb. cbn [negb]. apply IH. exact Hrest.
Qed.

Lemma made_made path w : made path (made path w) = made path w.
Proof.
  unfold made. cbn [files dirs temps trace]. f_equal.
  apply leibniz_equiv. rewrite (assoc_L (∪)). rewrite (idemp (∪)). reflexivity.
Qed.

(** X5.  A failure of the renderer is not handled: once the output directory
    is made and the code of the first block to render is written to its
    temporary file, the run stops there with the exception of
    [subprocess.run], the blocks after it are not looked at, and the
    temporary file holding the code of that block stays in the file
    system. *)
Theorem failed_rendering_stops_the_run (env : Env) (json_dumps : Serializer)
    (markdown_file output_dir theme content : str) (w : World)
    (skipped rest : list CodeBlock) (lang code label : str) (e : exn) :
  holds w markdown_file content ->
  extract_code_blocks content = skipped ++ (lang, code, label) :: rest ->
  Forall (fun b => renderable b = false) skipped ->
  renderable (lang, code, label) = true ->
  can_make w output_dir ->
  let language := match lang with [] => "txt" : str | _ => lang end in
  let temp_path := mkstemp env (temps w) ("." ++ language) in
  let output_path :=
    path_join output_dir (output_filename (before_first "." (basename markdown_file)) label) in
  let argv := carbon_argv json_dumps temp_path output_path language theme in
  temp_file env (temps w) ("." ++ language) code = Written ->
  spawn env argv (<[temp_path := code]> (files w)) = Failed e ->
  process_code_blocks_from_file env json_dumps markdown_file output_dir theme w
  = (Raise e,
     {| files := <[temp_path := code]> (files w);
        dirs := dirs (made output_dir w);
        temps := S (temps w);
        trace := trace w ++ [argv] |}).
Proof.
  intros Hfile Hblocks Hskipped Hr Hcan language temp_path output_path argv Htemp Hspawn.
  unfold process_code_blocks_from_file. unfold bind at 1.
  rewrite (holds_read _ _ _ Hfile), Hblocks.
  unfold bind at 1. rewrite (makedirs_can _ _ Hcan).
  rewrite render_blocks_skip by exact Hskipped.
  cbn [render_blocks].
  change (is_recognized match lang with [] => "txt" : str | _ => lang end)
    with (renderable (lang, code, label)).
  rewrite Hr. cbn [negb].
  unfold bind at 1. rewrite (makedirs_can _ _ (can_make_made _ _ _ Hcan)), made_made.
  unfold bind, generate_image_with_carbon, bind, named_temporary_file, subprocess_run.
  cbn [files dirs temps trace made].
  fold language. fold temp_path. rewrite Htemp. cbn [files dirs temps trace].
  fold output_path. fold argv.
  rewrite Hspawn. reflexivity.
Qed.

Lemma failed_rendering_stops_the_run_witness :
  (holds (one_file "tip.md" tip_doc) "tip.md" tip_doc
   /\ extract_code_blocks tip_doc
      = [] ++ ("python" : str, lines ["# BEFORE: old"; "x = 1"; ""]%string, "BEFORE" : str)
           :: [("python" : str, lines ["# AFTER: new"; "x = 2"; ""]%string, "AFTER" : str)]
   /\ Forall (fun b => renderable b = false) []
   /\ renderable ("python" : str, lines ["# BEFORE: old"; "x = 1"; ""]%string, "BEFORE" : str)
      = true
   /\ can_make (one_file "tip.md" tip_doc) "images")
  /\ (process_code_blocks_from_file bare_env no_json "tip.md" "images" "VSCode"
        (one_file "tip.md" tip_doc)).1 = Raise FileNotFoundError.
Proof.
  assert (Hfile : holds (one_file "tip.md" tip_doc) "tip.md" tip_doc)
    by apply lookup_singleton_eq.
  assert (Hblocks : extract_code_blocks tip_doc
      = [] ++ ("python" : str, lines ["# BEFORE: old"; "x = 1"; ""]%string, "BEFORE" : str)
           :: [("python" : str, lines ["# AFTER: new"; "x = 2"; ""]%string, "AFTER" : str)])
    by (vm_compute; reflexivity).
  assert (Hr : renderable ("python" : str, lines ["# BEFORE: old"; "x = 1"; ""]%string,
                           "BEFORE" : str) = true) by reflexivity.
  assert (Hcan : can_make (one_file "tip.md" tip_doc) "images").
  { split; [discriminate|]. split; [reflexivity|]. constructor. }
  split; [split; [exact Hfile|split; [exact Hblocks|split; [constructor|
                                      split; [exact Hr|exact Hcan]]]]|].
  pose proof (failed_rendering_stops_the_run bare_env no_json "tip.md" "images" "VSCode"
                tip_doc (one_file "tip.md" tip_doc) [] _ _ _ _ FileNotFoundError
                Hfile Hblocks (List.Forall_nil _) Hr Hcan eq_refl eq_refl) as H.
  rewrite H. reflexivity.
Defined.



Lemma output_filename_names output_dir base_filename label :
  path_join output_dir (output_filename base_filename label)
  ∈ image_names output_dir base_filename.
Proof.
  unfold image_names, output_filename.
  destruct (str_eqb label "BEFORE"); [apply list_elem_of_here|].
  apply list_elem_of_further.
  destruct (str_eqb label "AFTER"); [apply list_elem_of_here|].
  apply list_elem_of_further. apply list_elem_of_here.
Qed.

Lemma render_blocks_names env json_dumps output_dir base_filename theme :
  forall blocks image_paths,
  Forall (fun p => p ∈ image_names output_dir base_filename) image_paths ->
  returns (Forall (fun p => p ∈ image_names output_dir base_filename))
          (render_blocks env json_dumps output_dir base_filename theme blocks image_paths).
Proof.
  induction blocks as [|[[lang code] label] rest IH]; intros image_paths Hacc.
  - apply returns_ret. exact Hacc.
  - cbn [render_blocks]. destruct (negb _); [apply IH; exact Hacc|].
    eapply returns_bind; [apply returns_any|]. intros _ _.
    eapply returns_bind; [apply returns_any|]. intros _ _.
    apply IH. apply Forall_app. split; [exact Hacc|].
    constructor; [apply output_filename_names|constructor].
Qed.

(** X7.  The name of an image is fixed by the document and the label of the
    block alone: every path [process_code_blocks_from_file] returns is one
    of three names, however many blocks the document has, so blocks with
    the same label share one image file. *)
Theorem images_share_three_names (env : Env) (json_dumps : Serializer)
    (markdown_file output_dir theme : str) (w w' : World) (image_paths : list str) :
  process_code_blocks_from_file env json_dumps markdown_file output_dir theme w
  = (Ok image_paths, w') ->
  Forall (fun p => p ∈ image_names output_dir (before_first "." (basename markdown_file)))
         image_paths.
Proof.
  revert w image_paths w'.
  change (returns (Forall (fun p => p ∈ image_names output_dir
                                       (before_first "." (basename markdown_file))))
            (process_code_blocks_from_file env json_dumps markdown_file output_dir theme)).
  unfold process_code_blocks_from_file.
  eapply returns_bind; [apply returns_any|]. intros content _.
  eapply returns_bind; [apply returns_any|]. intros _ _.
  apply render_blocks_names. constructor.
Qed.

Lemma images_share_three_names_witness :
  exists image_paths w',
    process_code_blocks_from_file quiet_env no_json "tip.md" "images" "VSCode"
      (one_file "tip.md" tip_doc) = (Ok image_paths, w')
    /\ Forall (fun p => p ∈ image_names "images" (before_first "." (basename "tip.md")))
              image_paths.
Proof.
  destruct (process_code_blocks_from_file quiet_env no_json "tip.md" "images" "VSCode"
              (one_file "tip.md" tip_doc)) as [[image_paths|e] w'] eqn:E.
  - exists image_paths, w'. split; [reflexivity|].
    exact (images_share_three_names quiet_env no_json "tip.md" "images" "VSCode"
             (one_file "tip.md" tip_doc) w' image_paths E).
  - exfalso. vm_compute in E. discriminate E.
Defined.

(** ** The files [prepare_social_post] writes *)


Lemma bind_Raise {A B} (c : M A) (f : A -> M B) w e w1 :
  c w = (Raise e, w1) -> bind c f w = (Raise e, w1).
Proof. intros H. unfold bind. rewrite H. reflexivity. Qed.





Lemma create_twitter_thread_pair post_data image_paths :
  exists tweet_1 tweet_2, create_twitter_thread post_data image_paths = [tweet_1; tweet_2].
Proof. unfold create_twitter_thread. eexists _, _. reflexivity. Qed.








(** ** A search that cannot be started *)

Lemma writes_only_mono {A} (S S' : str -> Prop) (c : M A) :
  (forall p, S p -> S' p) -> writes_only S c -> writes_only S' c.
Proof. intros Hsub H w p Hp. apply H. intros Hs. apply Hp. apply Hsub. exact Hs. Qed.












(** The run behind the witness: the exception is that of the search, the
    LinkedIn text and the tweets are written, the summary is not. *)
Example search_fails_after_the_texts :
  let '(r, w') := prepare_social_post no_find_env no_json "tip.md" "out" "VSCode"
                    (one_file "tip.md" title_doc) in
  r = Raise FileNotFoundError
  /\ is_Some (files w' !! ("out/linkedin.txt" : str))
  /\ is_Some (files w' !! ("out/twitter_1.txt" : str))
  /\ is_Some (files w' !! ("out/twitter_2.txt" : str))
  /\ files w' !! ("out/summary.json" : str) = None.
Proof. vm_compute. repeat split; eauto. Qed.

(** ** Images that cannot be moved *)




(** Where the images directory cannot be made, here below a regular
    file, no move is tried. *)
Example no_move_without_images_directory :
  let '(r, w') := move_images no_mv_env "tip.md/images"
                    ["./tip-abc.png" : str; "./tip-def.png" : str] ∅
                    (one_file "tip.md" title_doc) in
  r = Ok ∅ /\ trace w' = [].
Proof. vm_compute. split; reflexivity. Qed.

(** ** The thread of a document without sections *)

(** X11.  A document in which the solution heading or the takeaway heading is
    missing gets, whenever it is parsed, a second tweet that consists of
    the hashtag footer alone: the parser hands on two empty sections, and
    the thread builder adds nothing for an empty section. *)
Theorem missing_heading_gives_bare_footer (env : Env) (file_path content : str)
    (w : World) (image_paths : gmap str (list str)) (pd : PostData) (w' : World) :
  holds w file_path content ->
  ~ has_solution_heading content \/ ~ has_takeaway_heading content ->
  process_markdown_file env file_path w = (Ok pd, w') ->
  exists tweet_1, create_twitter_thread pd image_paths = [tweet_1; footer].
Proof.
  intros Hfile Habsent Hpd.
  destruct (process_markdown_file_ok _ _ _ _ _ _ Hfile Hpd) as (_ & _ & _ & Hsec).
  rewrite (missing_sections content Habsent) in Hsec.
  assert (Hs : solution pd = []) by (inversion Hsec; reflexivity).
  assert (Ht : takeaway pd = []) by (inversion Hsec; reflexivity).
  unfold create_twitter_thread. rewrite Hs, Ht. cbn [nonempty app].
  eexists. reflexivity.
Qed.

Lemma missing_heading_gives_bare_footer_witness :
  (holds (one_file "tip.md" half_doc) "tip.md" half_doc
   /\ (~ has_solution_heading half_doc \/ ~ has_takeaway_heading half_doc))
  /\ exists pd w' tweet_1,
       process_markdown_file quiet_env "tip.md" (one_file "tip.md" half_doc) = (Ok pd, w')
       /\ create_twitter_thread pd ∅ = [tweet_1; footer].
Proof.
  assert (Hfile : holds (one_file "tip.md" half_doc) "tip.md" half_doc)
    by apply lookup_singleton_eq.
  assert (Habsent : ~ has_solution_heading half_doc \/ ~ has_takeaway_heading half_doc).
  { right. rewrite <- takeaway_heading_occurs. apply re_search_none.
    vm_compute. reflexivity. }
  split; [split; [exact Hfile|exact Habsent]|].
  destruct (process_markdown_file quiet_env "tip.md" (one_file "tip.md" half_doc))
    as [[pd|e] w'] eqn:E.
  - destruct (missing_heading_gives_bare_footer quiet_env "tip.md" half_doc
                (one_file "tip.md" half_doc) ∅ pd w' Hfile Habsent E) as [tweet_1 H].
    exists pd, w', tweet_1. split; [reflexivity|exact H].
  - exfalso. vm_compute in E. discriminate E.
Defined.

(** ** What a cleaned text looks like *)

Lemma substring_blank_lines t : substring [nl; nl; nl] t -> occurs no_flags blank_lines_re t.
Proof.
  intros (pre & post & ->). exists pre, [nl; nl; nl], post. split; [reflexivity|].
  simpl. split; [lia|]. split; [exact I|]. repeat constructor.
Qed.

Lemma lead_three t : 3 <= lead t -> exists post, t = nl :: nl :: nl :: post.
Proof.
  destruct t as [|a [|b [|c post]]]; simpl.
  - lia.
  - destruct (ascii_eqb a nl); simpl; lia.
  - destruct (ascii_eqb a nl); [|lia]. destruct (ascii_eqb b nl); simpl; lia.
  - destruct (ascii_eqb a nl) eqn:Ea; [|lia].
    destruct (ascii_eqb b nl) eqn:Eb; [|lia].
    destruct (ascii_eqb c nl) eqn:Ec; [|lia].
    apply ascii_eqb_eq in Ea, Eb, Ec. subst. intros _. exists post. reflexivity.
Qed.

Lemma calm_substring : forall t, calm t <-> ~ substring [nl; nl; nl] t.
Proof.
  intros t. split.
  - intros Hc Hs. exact (calm_no_blank_lines t Hc (substring_blank_lines t Hs)).
  - induction t as [|x t IH]; intros Hs.
    + simpl. split; [lia|exact I].
    + cbn [calm]. split.
      * destruct (le_lt_dec 3 (lead (x :: t))) as [H3|H3]; [|exact H3].
        exfalso. apply Hs. destruct (lead_three _ H3) as [post ->].
        exists [], post. reflexivity.
      * apply IH. intros (pre & post & ->). apply Hs. exists (x :: pre), post. reflexivity.
Qed.

Lemma last_rev_head (l : str) : last (rev l) = head l.
Proof. destruct l as [|c l]; [reflexivity|]. simpl. apply last_snoc. Qed.

Lemma strip_trimmed s : trimmed (strip s).
Proof.
  split.
  - intros c Hc.
    assert (H : lstrip (strip s) = strip s)
      by (unfold strip; apply lstrip_rstrip_fixed, lstrip_idem).
    pose proof (lstrip_head (strip s)) as Hh. rewrite H in Hh.
    destruct (strip s) as [|c' t]; [discriminate|]. injection Hc as <-. exact Hh.
  - intros c Hc. unfold strip, rstrip in *.
    rewrite last_rev_head in Hc.
    pose proof (lstrip_head (rev (lstrip s))) as Hh.
    destruct (lstrip (rev (lstrip s))) as [|c' t]; [discriminate|].
    injection Hc as <-. exact Hh.
Qed.

(** X12.  Whatever the input, the cleaned text neither begins nor ends with a
    whitespace character and never has three newlines in a row. *)
Theorem cleaned_text_is_trimmed (s : str) :
  trimmed (clean_for_social s) /\ ~ substring [nl; nl; nl] (clean_for_social s).
Proof.
  split.
  - unfold clean_for_social. apply strip_trimmed.
  - apply calm_substring. unfold clean_for_social. apply calm_strip, calm_collapse.
Qed.

Lemma trimmed_strip t : trimmed t -> strip t = t.
Proof.
  intros [Hh Hl]. unfold strip.
  assert (H1 : lstrip t = t).
  { apply lstrip_fixed. destruct t as [|c t]; [exact I|]. apply Hh. reflexivity. }
  rewrite H1. unfold rstrip.
  rewrite lstrip_fixed; [apply rev_involutive|].
  destruct (rev t) as [|c r] eqn:E; [exact I|]. apply Hl.
  rewrite <- (rev_involutive t), E. rewrite last_rev_head. reflexivity.
Qed.

(** X13.  A text without a fenced block, a heading line or a Python caption
    line, without three newlines in a row and without whitespace at its
    ends is returned as it is: cleaning changes nothing else. *)
Theorem plain_text_is_left_alone (t : str) :
  ~ has_fence t -> ~ has_heading_line t -> ~ has_python_line t ->
  ~ substring [nl; nl; nl] t -> trimmed t ->
  clean_for_social t = t.
Proof.
  rewrite <- fence_occurs, <- header_occurs, <- python_line_occurs, <- calm_substring.
  intros Hfence Hhead Hpy Hcalm Htrim.
  unfold clean_for_social.
  rewrite (re_sub_no_match re_S fence_re _ t Hfence).
  rewrite (re_sub_no_match re_M header_re _ t Hhead).
  rewrite (re_sub_no_match re_M python_line_re _ t Hpy).
  rewrite (re_sub_no_match no_flags blank_lines_re _ t (calm_no_blank_lines t Hcalm)).
  apply trimmed_strip. exact Htrim.
Qed.

Lemma plain_text_is_left_alone_witness :
  (~ has_fence plain_text /\ ~ has_heading_line plain_text /\ ~ has_python_line plain_text
   /\ ~ substring [nl; nl; nl] plain_text /\ trimmed plain_text)
  /\ clean_for_social plain_text = plain_text.
Proof.
  assert (H1 : ~ has_fence plain_text)
    by (rewrite <- fence_occurs; apply re_search_none; vm_compute; reflexivity).
  assert (H2 : ~ has_heading_line plain_text)
    by (rewrite <- header_occurs; apply re_search_none; vm_compute; reflexivity).
  assert (H3 : ~ has_python_line plain_text)
    by (rewrite <- python_line_occurs; apply re_search_none; vm_compute; reflexivity).
  assert (H4 : ~ substring [nl; nl; nl] plain_text)
    by (intros H; apply contains_spec in H; vm_compute in H; discriminate H).
  assert (H5 : trimmed plain_text)
    by (split; intros c Hc; vm_compute in Hc; injection Hc as <-; reflexivity).
  split; [split; [exact H1|split; [exact H2|split; [exact H3|split; [exact H4|exact H5]]]]|].
  exact (plain_text_is_left_alone plain_text H1 H2 H3 H4 H5).
Defined.

Lemma all_space_forallb p : all_space p -> forallb is_space p = true.
Proof.
  induction 1 as [|c p Hc _ IH]; [reflexivity|]. simpl. rewrite Hc, IH. reflexivity.
Qed.

Lemma all_space_lstrip s : all_space s -> lstrip s = [].
Proof.
  induction 1 as [|c s Hc _ IH]; [reflexivity|]. simpl. rewrite Hc. exact IH.
Qed.

Lemma all_space_collapse : forall n s prev,
  length s <= n -> all_space s -> all_space (collapse_from prev s).
Proof.
  induction n as [|n IH]; intros s prev Hn Hs.
  - destruct s; [|simpl in Hn; lia]. rewrite collapse_from_nil. constructor.
  - destruct s as [|x t]; [rewrite collapse_from_nil; constructor|].
    rewrite collapse_from_cons.
    destruct (3 <=? lead (x :: t)) eqn:E.
    + apply Nat.leb_le in E.
      repeat (constructor; [reflexivity|]).
      apply IH.
      * rewrite length_drop. remember (lead (x :: t)) as k. simpl in Hn |- *. lia.
      * apply Forall_drop. exact Hs.
    + inversion Hs; subst. constructor; [assumption|].
      apply IH; [simpl in Hn; lia|assumption].
Qed.

(** X14.  A text of whitespace only (the empty text among them) is cleaned to
    the empty string. *)
Theorem blank_text_is_cleaned_away (s : str) :
  all_space s -> clean_for_social s = [].
Proof.
  intros Hs.
  assert (Hin : forall p, substring p s -> forallb is_space p = true).
  { intros p (pre & post & ->). apply all_space_forallb.
    apply Forall_app in Hs as [_ Hs]. apply Forall_app in Hs as [Hs _]. exact Hs. }
  assert (Hfence : ~ occurs re_S fence_re s).
  { rewrite fence_occurs. intros (pre & lang & body & post & -> & _).
    specialize (Hin backticks ltac:(eexists _, _; reflexivity)). discriminate Hin. }
  assert (Hhead : ~ occurs re_M header_re s).
  { rewrite header_occurs.
    intros (pre & hashes & ws & text & post & -> & _ & [Hlen _] & Hhashes & _).
    destruct hashes as [|c hashes]; [simpl in Hlen; lia|].
    inversion Hhashes; subst.
    specialize (Hin ["#"%char] ltac:(exists pre; eexists; reflexivity)). discriminate Hin. }
  assert (Hpy : ~ occurs re_M python_line_re s).
  { rewrite python_line_occurs. intros (pre & ws & post & -> & _).
    specialize (Hin ("Python" : str) ltac:(eexists _, _; reflexivity)). discriminate Hin. }
  unfold clean_for_social.
  rewrite (re_sub_no_match re_S fence_re _ s Hfence).
  rewrite (re_sub_no_match re_M header_re _ s Hhead).
  rewrite (re_sub_no_match re_M python_line_re _ s Hpy).
  unfold strip. rewrite all_space_lstrip; [reflexivity|].
  apply (all_space_collapse (length s) s None); [lia|exact Hs].
Qed.

Lemma blank_text_is_cleaned_away_witness :
  all_space [nl; " "%char; nl; nl; nl; nl] /\ clean_for_social [nl; " "%char; nl; nl; nl; nl] = [].
Proof.
  assert (H : all_space [nl; " "%char; nl; nl; nl; nl]) by (repeat constructor).
  split; [exact H|]. exact (blank_text_is_cleaned_away _ H).
Defined.

(** ** The blocks [extract_code_blocks] finds *)

Lemma fence_groups_occurs t : occurs re_S fence_groups_re t <-> has_fence t.
Proof.
  unfold occurs, has_fence, fence_groups_re, Star, StarLazy. simpl. split.
  - intros (pre & w & next & -> & w1 & w2 & -> & -> & w3 & w4 & -> & (_ & _ & Hlang)
            & w5 & w6 & -> & (c & -> & Hc) & w7 & w8 & -> & _ & ->).
    apply ascii_eqb_eq in Hc. subst c.
    exists pre, w3, w7, next. split; [|exact Hlang].
    rewrite <- !app_assoc. reflexivity.
  - intros (pre & lang & body & post & -> & Hlang).
    exists pre, (backticks ++ lang ++ [nl] ++ body ++ backticks), post.
    split; [rewrite <- !app_assoc; reflexivity|].
    exists backticks, (lang ++ [nl] ++ body ++ backticks). split; [reflexivity|].
    split; [reflexivity|].
    exists lang, ([nl] ++ body ++ backticks). split; [reflexivity|].
    split; [split; [lia|split; [exact I|exact Hlang]]|].
    exists [nl], (body ++ backticks). split; [reflexivity|].
    split; [exists nl; split; reflexivity|].
    exists body, backticks. split; [reflexivity|]. split; [|reflexivity].
    split; [lia|]. split; [exact I|]. apply Forall_forall. reflexivity.
Qed.

Lemma hits_text s : hits (map Text s) = [].
Proof. induction s as [|x s IH]; [reflexivity|exact IH]. Qed.

Lemma scan_search_hit fl r : forall s pos prev f,
  search_from fl r pos prev s = Some f -> hits (scan fl r prev 0 s) <> [].
Proof.
  induction s as [|x t IH]; intros pos prev f H; cbn [scan search_from] in *.
  - destruct (match_at fl r false prev []) as [mt|]; [|discriminate].
    destruct (m_len mt); discriminate.
  - destruct (match_at fl r false prev (x :: t)) as [mt|].
    + destruct (m_len mt); discriminate.
    + cbn [hits]. eapply IH. exact H.
Qed.

(** X15.  The document has no block exactly when it has no complete fence: an
    opening fence line that is never closed gives no block. *)
Theorem no_fence_no_blocks (markdown_content : str) :
  extract_code_blocks markdown_content = [] <-> ~ has_fence markdown_content.
Proof.
  rewrite <- fence_groups_occurs, <- re_search_none. unfold extract_code_blocks, re_search.
  split.
  - intros H. apply fmap_nil_inv in H.
    destruct (search_from re_S fence_groups_re 0 None markdown_content) as [f|] eqn:E;
      [|reflexivity].
    exfalso. exact (scan_search_hit _ _ _ _ _ _ E H).
  - intros H. rewrite (scan_no_match _ _ _ _ _ H), hits_text. reflexivity.
Qed.

Lemma hits_scan fl r : forall s skip prev mt s',
  (mt, s') ∈ hits (scan fl r prev skip s) ->
  exists pre adv, s = pre ++ s' /\ match_at fl r adv (last_char prev pre) s' = Some mt.
Proof.
  induction s as [|x t IH]; intros skip prev mt s' H.
  - destruct skip as [|k]; cbn [scan] in H; [|inversion H].
    destruct (match_at fl r false prev []) as [mt0|] eqn:E0; [|inversion H].
    assert (Hstep : (mt, s') = (mt0, [])
                    \/ match_at fl r true prev [] = Some mt /\ s' = []).
    { destruct (m_len mt0).
      - cbn [hits] in H. apply elem_of_cons in H as [H|H]; [left; exact H|].
        destruct (match_at fl r true prev []) as [mt1|] eqn:E1.
        + cbn [hits] in H. apply elem_of_cons in H as [H|H]; [|inversion H].
          inversion H; subst. right. split; reflexivity.
        + inversion H.
      - cbn [hits] in H. apply elem_of_cons in H as [H|H]; [left; exact H|inversion H]. }
    destruct Hstep as [Heq|[E1 ->]].
    + inversion Heq; subst. exists [], false. split; [reflexivity|exact E0].
    + exists [], true. split; [reflexivity|exact E1].
  - assert (Hrest : forall k, (mt, s') ∈ hits (scan fl r (Some x) k t) ->
              exists pre adv, x :: t = pre ++ s'
                /\ match_at fl r adv (last_char prev pre) s' = Some mt).
    { intros k Hk. destruct (IH k (Some x) mt s' Hk) as (pre & adv & -> & Hm).
      exists (x :: pre), adv. split; [reflexivity|]. rewrite last_char_cons. exact Hm. }
    destruct skip as [|k]; cbn [scan] in H; [|apply (Hrest k); exact H].
    destruct (match_at fl r false prev (x :: t)) as [mt0|] eqn:E0.
    + destruct (m_len mt0) eqn:El.
      * cbn [hits] in H. apply elem_of_cons in H as [H|H].
        { inversion H; subst. exists [], false. split; [reflexivity|exact E0]. }
        destruct (match_at fl r true prev (x :: t)) as [mt1|] eqn:E1.
        -- cbn [hits] in H. apply elem_of_cons in H as [H|H].
           ++ inversion H; subst. exists [], true. split; [reflexivity|exact E1].
           ++ eapply Hrest. exact H.
        -- cbn [hits] in H. eapply Hrest. exact H.
      * cbn [hits] in H. apply elem_of_cons in H as [H|H].
        -- inversion H; subst. exists [], false. split; [reflexivity|exact E0].
        -- eapply Hrest. exact H.
    + cbn [hits] in H. eapply Hrest. exact H.
Qed.

Lemma advances_unstep x t st w st' :
  ahead st = x :: t -> advances st (x :: w) st' -> advances (step x t st) w st'.
Proof.
  intros Ha (H1 & H2 & H3). rewrite Ha in H1. injection H1 as H1.
  split; [exact H1|]. split.
  - rewrite H2. simpl. lia.
  - rewrite H3. apply last_char_cons.
Qed.

Lemma mstate_eq (st st' : mstate) :
  off st = off st' -> before st = before st' -> ahead st = ahead st' -> caps st = caps st' ->
  st = st'.
Proof. destruct st, st'. simpl. intros -> -> -> ->. reflexivity. Qed.

(** A lazy star stops at the first place where what follows it matches:
    at no earlier place did the continuation succeed. *)
Lemma m_rep_lazy_first fl c k : forall s st res,
  ahead st = s ->
  m_rep fl c Lazy k s 0 None st = Some res ->
  exists w st', advances st w st' /\ caps st' = caps st
    /\ Forall (fun x => cmatch fl c x = true) w
    /\ k st' = Some res
    /\ forall w1 x w2 st1, w = w1 ++ x :: w2 -> advances st w1 st1 -> caps st1 = caps st ->
         k st1 = None.
Proof.
  induction s as [|x t IH]; intros st res Ha H; cbn [m_rep] in H.
  - destruct (k st) as [r|] eqn:Ek; [|discriminate].
    exists [], st. split; [apply advances_refl|]. split; [reflexivity|].
    split; [constructor|]. split; [congruence|].
    intros w1 y w2 st1 Hw. destruct w1; discriminate Hw.
  - destruct (k st) as [r|] eqn:Ek.
    + exists [], st. split; [apply advances_refl|]. split; [reflexivity|].
      split; [constructor|]. split; [congruence|].
      intros w1 y w2 st1 Hw. destruct w1; discriminate Hw.
    + destruct (cmatch fl c x) eqn:Hx; [|discriminate]. cbn [hi_is_zero negb andb pred dec_hi] in H.
      destruct (IH (step x t st) res eq_refl H) as (w & st' & Hadv & Hc & Hall & Hk & Hmin).
      exists (x :: w), st'. split; [apply advances_step with t; assumption|].
      split; [exact Hc|]. split; [constructor; assumption|]. split; [exact Hk|].
      intros w1 y w2 st1 Hw Hadv1 Hc1. destruct w1 as [|x1 w1].
      * assert (st1 = st); [|subst; exact Ek].
        destruct Hadv1 as (H1 & H2 & H3). simpl in *.
        apply mstate_eq; [lia|exact H3|symmetry; exact H1|exact Hc1].
      * injection Hw as <- Hw.
        apply (Hmin w1 y w2 st1 Hw); [|exact Hc1].
        apply advances_unstep; assumption.
Qed.

Lemma fence_match_at adv prev s mt :
  match_at re_S fence_groups_re adv prev s = Some mt ->
  exists lang code post,
    s = backticks ++ lang ++ [nl] ++ code ++ backticks ++ post
    /\ Forall (fun c => is_word c = true) lang
    /\ ~ substring backticks code
    /\ group 1 mt s = lang /\ group 2 mt s = code.
Proof.
  unfold match_at.
  destruct (m re_S fence_groups_re _ _) as [st|] eqn:E; [|discriminate].
  intros Hmt. injection Hmt as <-.
  unfold fence_groups_re in E. cbn [m] in E.
  apply m_lit_sound in E as (st1 & Hadv1 & Hc1 & E).
  unfold Star in E. cbn [m] in E.
  apply m_rep_sound with (s := ahead st1) in E; [|reflexivity].
  destruct E as (lang & st2 & Hadv2 & Hc2 & _ & _ & Hlang & E).
  cbn [m ahead off before caps] in E.
  destruct (ahead st2) as [|x t] eqn:Ha2; [discriminate|].
  destruct (cmatch re_S (CChar nl) x) eqn:Hx; [|discriminate].
  apply ascii_eqb_eq in Hx. subst x.
  unfold StarLazy in E. cbn [m] in E.
  apply m_rep_lazy_first in E; [|reflexivity].
  destruct E as (code & st3 & Hadv3 & Hc3 & _ & E & Hmin).
  apply m_lit_sound in E as (st4 & Hadv4 & Hc4 & E).
  assert (Hst : st = st4) by (destruct (adv && (off st4 =? 0)); congruence).
  subst st. clear E.
  destruct Hadv1 as (A1 & O1 & _), Hadv2 as (A2 & O2 & _), Hadv3 as (A3 & O3 & B3),
    Hadv4 as (A4 & O4 & _).
  cbn [ahead off before caps step] in *.
  rewrite Ha2 in A2.
  assert (Hs : s = backticks ++ lang ++ [nl] ++ code ++ backticks ++ ahead st4)
    by (rewrite A1, A2, A3, A4; reflexivity).
  exists lang, code, (ahead st4). split; [exact Hs|]. split; [exact Hlang|].
  split.
  - intros (p & q & Hcode).
    assert (Hnone := Hmin p "`"%char ("``" ++ q)
              {| off := S (off st2) + length p; before := last_char (Some nl) p;
                 ahead := backticks ++ q ++ ahead st3;
                 caps := (1, (off st1, off st2)) :: caps st2 |}).
    cbn [off before ahead caps] in Hnone.
    assert (Hsome : is_Some (m_lit backticks
              (fun st => if adv && (off st =? 0) then None else Some st)
              {| off := S (off st2) + length p; before := last_char (Some nl) p;
                 ahead := backticks ++ q ++ ahead st3;
                 caps := (2, (S (off st2), S (off st2) + length p))
                         :: (1, (off st1, off st2)) :: caps st2 |})).
    { apply m_lit_complete with (next := q ++ ahead st3); [reflexivity|].
      intros st' (_ & Ho & _). cbn [off] in Ho.
      replace (off st' =? 0) with false
        by (symmetry; apply Nat.eqb_neq; rewrite Ho; simpl; lia).
      rewrite andb_false_r. eexists. reflexivity. }
    rewrite Hnone in Hsome.
    + destruct Hsome as [? Hsome]. discriminate Hsome.
    + exact Hcode.
    + split; [|split; reflexivity]. cbn [ahead step].
      rewrite A3, Hcode, <- !app_assoc. reflexivity.
    + reflexivity.
  - unfold group. cbn [m_caps]. rewrite Hc4, Hc3. cbn [lookup_cap Nat.eqb]. unfold slice.
    split.
    + rewrite O2, O1. replace (0 + length backticks + length lang - (0 + length backticks))
        with (length lang) by lia.
      rewrite Hs. cbn [Nat.add]. rewrite drop_app_length. apply take_app_length.
    + rewrite O3. replace (S (off st2) + length code - S (off st2)) with (length code) by lia.
      replace (S (off st2)) with (length (backticks ++ lang ++ [nl]))
        by (rewrite O2, O1, !length_app; simpl; lia).
      rewrite Hs.
      replace (backticks ++ lang ++ [nl] ++ code ++ backticks ++ ahead st4)
        with ((backticks ++ lang ++ [nl]) ++ code ++ backticks ++ ahead st4)
        by (rewrite <- !app_assoc; reflexivity).
      rewrite drop_app_length. apply take_app_length.
Qed.

(** X16.  Every block the extraction returns is a fence of the document: the
    language is a run of word characters (possibly empty), the code starts
    after the newline that ends the opening line and runs up to the next
    three backticks, so it holds no three backticks itself, and the label
    is the one its marker lines give. *)
Theorem extracted_blocks_are_fences (markdown_content lang code label : str) :
  (lang, code, label) ∈ extract_code_blocks markdown_content ->
  substring (backticks ++ lang ++ [nl] ++ code ++ backticks) markdown_content
  /\ Forall (fun c => is_word c = true) lang
  /\ ~ substring backticks code
  /\ label = block_label code.
Proof.
  unfold extract_code_blocks. intros H.
  apply list_elem_of_fmap in H as ([mt s] & Heq & Hin).
  apply hits_scan in Hin as (pre & adv & Hs & Hm).
  apply fence_match_at in Hm as (lang' & code' & post & Hs' & Hlang & Hcode & G1 & G2).
  inversion Heq; subst lang code label. unfold group in G1, G2. rewrite G1, G2.
  split; [|split; [exact Hlang|split; [exact Hcode|reflexivity]]].
  exists pre, post. rewrite Hs, Hs' at 1. rewrite <- !app_assoc. reflexivity.
Qed.

Lemma extracted_blocks_are_fences_witness :
  ("python" : str, late_marker_code, "BEFORE" : str) ∈ extract_code_blocks late_marker_doc
  /\ (substring (backticks ++ "python" ++ [nl] ++ late_marker_code ++ backticks) late_marker_doc
      /\ Forall (fun c => is_word c = true) ("python" : str)
      /\ ~ substring backticks late_marker_code
      /\ ("BEFORE" : str) = block_label late_marker_code).
Proof.
  assert (H : ("python" : str, late_marker_code, "BEFORE" : str)
              ∈ extract_code_blocks late_marker_doc).
  { replace (extract_code_blocks late_marker_doc)
      with [("python" : str, late_marker_code, "BEFORE" : str)] by (vm_compute; reflexivity).
    apply list_elem_of_here. }
  split; [exact H|].
  exact (extracted_blocks_are_fences late_marker_doc "python" late_marker_code "BEFORE" H).
Defined.

(** ** Where a search stops *)

Lemma search_from_match_at fl r : forall s pos prev f,
  search_from fl r pos prev s = Some f ->
  exists pre, s = pre ++ f_text f
    /\ f_start f = pos + length pre
    /\ match_at fl r false (last_char prev pre) (f_text f) = Some (f_match f).
Proof.
  induction s as [|x t IH]; intros pos prev f H; cbn [search_from] in H.
  - destruct (match_at fl r false prev []) as [mt|] eqn:Hm; [|discriminate].
    injection H as <-. exists []. simpl. split; [reflexivity|]. split; [lia|exact Hm].
  - destruct (match_at fl r false prev (x :: t)) as [mt|] eqn:Hm.
    + injection H as <-. exists []. simpl. split; [reflexivity|]. split; [lia|exact Hm].
    + destruct (IH _ _ _ H) as (pre & Hs & Hst & Hmat).
      exists (x :: pre). rewrite last_char_cons. simpl.
      split; [congruence|]. split; [lia|exact Hmat].
Qed.

(** The search returns the leftmost match: nothing matches at an earlier
    position. *)
Lemma search_from_first fl r : forall s pos prev f pre w next,
  search_from fl r pos prev s = Some f ->
  s = pre ++ w ++ next ->
  matches fl r (last_char prev pre) w next ->
  f_start f <= pos + length pre.
Proof.
  induction s as [|x t IH]; intros pos prev f pre w next H Hs Hm; cbn [search_from] in H.
  - destruct (match_at fl r false prev []) as [mt|]; [|discriminate].
    injection H as <-. simpl. lia.
  - destruct (match_at fl r false prev (x :: t)) as [mt|] eqn:E.
    + injection H as <-. simpl. lia.
    + destruct pre as [|y pre].
      * exfalso. pose proof (match_at_complete fl r prev (x :: t) w next Hs Hm) as [? Hsome].
        simpl in Hsome. congruence.
      * injection Hs as Hx Hs. subst y. rewrite last_char_cons in Hm.
        pose proof (IH (S pos) (Some x) f pre w next H Hs Hm). simpl. lia.
Qed.

Lemma lstrip_app_keep : forall u v,
  match v with [] => False | c :: _ => is_space c = false end ->
  lstrip (u ++ v) = lstrip u ++ v.
Proof.
  induction u as [|c u IH]; intros v Hv.
  - simpl. apply lstrip_fixed. destruct v; [contradiction|exact Hv].
  - simpl. destruct (is_space c); [apply IH; exact Hv|reflexivity].
Qed.

Lemma rstrip_app_keep a c b :
  is_space c = false -> rstrip ((a ++ [c]) ++ b) = (a ++ [c]) ++ rstrip b.
Proof.
  intros Hc. unfold rstrip. rewrite rev_app_distr, lstrip_app_keep.
  - rewrite rev_app_distr, rev_involutive. reflexivity.
  - rewrite rev_app_distr. simpl. exact Hc.
Qed.

(** Where every process succeeds and every compilation is accepted, a
    document that is there is parsed. *)
Lemma quiet_env_verifies : forall blocks flag w,
  exists f w', verify_blocks quiet_env blocks flag w = (Ok f, w').
Proof.
  induction blocks as [|[[lang code] label] rest IH]; intros flag w; simpl.
  - eexists _, _. reflexivity.
  - destruct (str_eqb _ _); [|apply IH]. unfold bind.
    destruct (has_framework_marker code) eqn:Hm.
    + rewrite (verify_python_code_marker quiet_env code w Hm). apply IH.
    + rewrite (verify_python_code_plain quiet_env code w Hm eq_refl). apply IH.
Qed.

Lemma quiet_env_parses file_path content w :
  holds w file_path content ->
  exists pd w', process_markdown_file quiet_env file_path w = (Ok pd, w').
Proof.
  intros Hfile.
  pose proof (process_markdown_file_after quiet_env file_path content w Hfile) as H.
  destruct (quiet_env_verifies (extract_code_blocks content) true w) as (f & w' & Hv).
  rewrite Hv in H. destruct H as (pd & Hpd & _). exists pd, w'. exact Hpd.
Qed.

Lemma process_markdown_file_fields env file_path content w pd w' :
  holds w file_path content ->
  process_markdown_file env file_path w = (Ok pd, w') ->
  title pd = match re_search re_M title_re content with
             | Some tm => f_group 1 tm
             | None => path_stem file_path
             end
  /\ hook pd = match re_search re_M hook_re
                       match re_search re_M title_re content with
                       | Some tm => slice_from (f_end tm) content
                       | None => content
                       end with
               | Some hm => f_group 1 hm
               | None => []
               end
  /\ first_tweet pd = match re_search no_flags problem_re content with
                      | Some pm => strip (slice 0 (f_start pm) content)
                      | None =>
                          let paragraphs := re_split no_flags paragraph_break_re content in
                          if 2 <? length paragraphs
                          then strip (join [nl; nl] (take 2 (drop 1 paragraphs)))
                          else []
                      end
  /\ (solution pd, takeaway pd) =
     match re_search no_flags solution_re content,
           re_search no_flags takeaway_re content with
     | Some sm, Some tm =>
         (strip (slice (f_start sm) (f_start tm) content),
          strip (slice_from (f_start tm) content))
     | _, _ => ([], [])
     end.
Proof.
  intros Hfile H. revert H. open_document Hfile. unfold bind.
  destruct (verify_blocks env _ true w) as [[flag|e] w1]; [|discriminate].
  destruct (re_search no_flags solution_re content);
    destruct (re_search no_flags takeaway_re content);
    intros H; inversion H; repeat split; reflexivity.
Qed.

Lemma heading_occurs name content :
  occurs no_flags (Lit "###" · Plus CSpace · Lit name) content <-> has_heading name content.
Proof.
  unfold occurs, has_heading, Plus. simpl. split.
  - intros (pre & w & next & -> & w1 & w2 & -> & -> & w3 & w4 & -> & (Hlo & _ & Hall) & ->).
    exists pre, w3, next. split; [|split; [lia|exact Hall]].
    rewrite <- !app_assoc. reflexivity.
  - intros (pre & ws & post & -> & Hlen & Hall).
    exists pre, ("###" ++ ws ++ name), post.
    split; [rewrite <- !app_assoc; reflexivity|].
    exists ("###" : str), (ws ++ name). split; [reflexivity|]. split; [reflexivity|].
    exists ws, name. split; [reflexivity|].
    split; [|reflexivity]. split; [lia|]. split; [exact I|exact Hall].
Qed.

(** ** The sections of a document *)

Lemma heading_matches name prev ws post :
  0 < length ws -> all_space ws ->
  matches no_flags (Lit "###" · Plus CSpace · Lit name) prev ("###" ++ ws ++ name) post.
Proof.
  intros Hlen Hall. unfold Plus. simpl.
  exists ("###" : str), (ws ++ name). split; [reflexivity|]. split; [reflexivity|].
  exists ws, name. split; [reflexivity|].
  split; [|reflexivity]. split; [lia|]. split; [exact I|exact Hall].
Qed.

Lemma re_search_heading name content f :
  re_search no_flags (Lit "###" · Plus CSpace · Lit name) content = Some f ->
  exists pre ws post,
    content = pre ++ "###" ++ ws ++ name ++ post
    /\ 0 < length ws /\ all_space ws
    /\ f_start f = length pre
    /\ forall pre' ws' post',
         content = pre' ++ "###" ++ ws' ++ name ++ post' ->
         0 < length ws' -> all_space ws' -> length pre <= length pre'.
Proof.
  intros H. unfold re_search in H.
  destruct (search_from_sound _ _ _ _ _ _ H) as (pre & w & next & Hs & Hm & Hst & _).
  unfold Plus in Hm. simpl in Hm.
  destruct Hm as (w1 & w2 & -> & -> & w3 & w4 & -> & (Hlo & _ & Hall) & ->).
  exists pre, w3, next. split; [rewrite Hs, <- !app_assoc; reflexivity|].
  split; [lia|]. split; [exact Hall|]. split; [exact Hst|].
  intros pre' ws' post' Hs' Hlen' Hall'.
  assert (Hle : f_start f <= 0 + length pre').
  { apply (search_from_first _ _ _ _ _ _ pre' ("###" ++ ws' ++ name) post' H).
    - rewrite Hs', <- !app_assoc. reflexivity.
    - apply heading_matches; assumption. }
  lia.
Qed.

Lemma strip_heading ws name c post :
  is_space c = false ->
  strip ("###" ++ ws ++ (name ++ [c]) ++ post) = "###" ++ ws ++ (name ++ [c]) ++ rstrip post.
Proof.
  intros Hc. unfold strip. rewrite lstrip_fixed by reflexivity.
  replace ("###" ++ ws ++ (name ++ [c]) ++ post)
    with ((("###" ++ ws ++ name) ++ [c]) ++ post) by (rewrite <- !app_assoc; reflexivity).
  rewrite rstrip_app_keep by exact Hc. rewrite <- !app_assoc. reflexivity.
Qed.

(** X17.  When both section headings are there, the takeaway field starts with
    the takeaway heading itself: it is the document from its first takeaway
    heading on, with the whitespace at its end removed. *)
Theorem takeaway_keeps_its_heading (env : Env) (file_path content : str)
    (w w' : World) (pd : PostData) :
  holds w file_path content ->
  process_markdown_file env file_path w = (Ok pd, w') ->
  has_solution_heading content ->
  has_takeaway_heading content ->
  exists pre ws post,
    content = pre ++ "###" ++ ws ++ "The Takeaway" ++ post
    /\ 0 < length ws /\ all_space ws
    /\ ~ has_takeaway_heading pre
    /\ takeaway pd = "###" ++ ws ++ "The Takeaway" ++ rstrip post.
Proof.
  intros Hfile Hpd Hsol Htake.
  destruct (process_markdown_file_fields _ _ _ _ _ _ Hfile Hpd) as (_ & _ & _ & Hsec).
  apply solution_heading_occurs, re_search_occurs in Hsol as [sm Hsm].
  apply takeaway_heading_occurs, re_search_occurs in Htake as [tm Htm].
  rewrite Hsm, Htm in Hsec. injection Hsec as _ Ht.
  destruct (re_search_heading "The Takeaway" content tm Htm)
    as (pre & ws & post & Hs & Hlen & Hall & Hst & Hfirst).
  exists pre, ws, post. split; [exact Hs|]. split; [exact Hlen|]. split; [exact Hall|].
  split.
  - intros (p1 & ws1 & q1 & Hp & Hlen1 & Hall1).
    specialize (Hfirst p1 ws1 (q1 ++ "###" ++ ws ++ "The Takeaway" ++ post)).
    rewrite Hs, Hp, <- !app_assoc in Hfirst. specialize (Hfirst eq_refl Hlen1 Hall1).
    rewrite !length_app in Hfirst. simpl in Hfirst. lia.
  - rewrite Ht, Hst. unfold slice_from. rewrite Hs at 1. rewrite drop_app_length.
    apply (strip_heading ws "The Takeawa" "y" post). reflexivity.
Qed.

Lemma takeaway_keeps_its_heading_witness :
  (holds (one_file "tip.md" tip_doc) "tip.md" tip_doc
   /\ has_solution_heading tip_doc /\ has_takeaway_heading tip_doc)
  /\ exists pd w',
       process_markdown_file quiet_env "tip.md" (one_file "tip.md" tip_doc) = (Ok pd, w')
       /\ exists pre ws post,
            tip_doc = pre ++ "###" ++ ws ++ "The Takeaway" ++ post
            /\ 0 < length ws /\ all_space ws
            /\ ~ has_takeaway_heading pre
            /\ takeaway pd = "###" ++ ws ++ "The Takeaway" ++ rstrip post.
Proof.
  assert (Hfile : holds (one_file "tip.md" tip_doc) "tip.md" tip_doc)
    by apply lookup_singleton_eq.
  assert (Hsol : has_solution_heading tip_doc).
  { apply solution_heading_occurs, re_search_occurs. vm_compute. eexists. reflexivity. }
  assert (Htake : has_takeaway_heading tip_doc).
  { apply takeaway_heading_occurs, re_search_occurs. vm_compute. eexists. reflexivity. }
  split; [split; [exact Hfile|split; [exact Hsol|exact Htake]]|].
  destruct (quiet_env_parses "tip.md" tip_doc (one_file "tip.md" tip_doc) Hfile)
    as (pd & w' & Hpd).
  exists pd, w'. split; [exact Hpd|].
  exact (takeaway_keeps_its_heading quiet_env "tip.md" tip_doc (one_file "tip.md" tip_doc) w' pd
           Hfile Hpd Hsol Htake).
Defined.

Lemma solution_heading_matches prev ws c post :
  0 < length ws -> all_space ws -> c = ":"%char \/ is_space c = true ->
  matches no_flags solution_re prev ("###" ++ ws ++ "The Solution" ++ [c]) post.
Proof.
  intros Hlen Hall Hc. unfold solution_re, Plus. simpl.
  exists ("###" : str), (ws ++ "The Solution" ++ [c]). split; [reflexivity|].
  split; [reflexivity|].
  exists ws, ("The Solution" ++ [c]). split; [reflexivity|].
  split; [split; [lia|split; [exact I|exact Hall]]|].
  exists ("The Solution" : str), [c]. split; [reflexivity|]. split; [reflexivity|].
  exists c. split; [reflexivity|]. apply orb_true_iff.
  destruct Hc as [->|Hc]; [left; reflexivity|right; exact Hc].
Qed.

(** X18.  Sections in the reverse order: when no solution heading starts before
    a takeaway heading of the document, the solution field is empty, for
    the solution is cut from its heading to the first takeaway heading. *)
Theorem solution_after_takeaway_is_lost (env : Env) (file_path content : str)
    (w w' : World) (pd : PostData) (pre ws post : str) :
  holds w file_path content ->
  process_markdown_file env file_path w = (Ok pd, w') ->
  content = pre ++ "###" ++ ws ++ "The Takeaway" ++ post ->
  0 < length ws -> all_space ws ->
  (forall pre_s ws_s c post_s,
     content = pre_s ++ "###" ++ ws_s ++ "The Solution" ++ c :: post_s ->
     0 < length ws_s -> all_space ws_s -> c = ":"%char \/ is_space c = true ->
     length pre <= length pre_s) ->
  solution pd = [].
Proof.
  intros Hfile Hpd Hs Hlen Hall Hlate.
  destruct (process_markdown_file_fields _ _ _ _ _ _ Hfile Hpd) as (_ & _ & _ & Hsec).
  destruct (re_search no_flags solution_re content) as [sm|] eqn:Hsm;
    [|injection Hsec as -> _; reflexivity].
  destruct (re_search no_flags takeaway_re content) as [tm|] eqn:Htm;
    [|injection Hsec as -> _; reflexivity].
  injection Hsec as -> _.
  assert (Ht : f_start tm <= length pre).
  { apply (search_from_first _ _ _ _ _ _ pre ("###" ++ ws ++ "The Takeaway") post Htm).
    - rewrite Hs, <- !app_assoc. reflexivity.
    - apply (heading_matches "The Takeaway"); assumption. }
  assert (Hsml : length pre <= f_start sm).
  { unfold re_search in Hsm.
    destruct (search_from_sound _ _ _ _ _ _ Hsm) as (pre_s & w_s & next & Hc & Hm & Hst & _).
    unfold solution_re, Plus in Hm. simpl in Hm.
    destruct Hm as (w1 & w2 & -> & -> & w3 & w4 & -> & (Hlo & _ & Hsp)
                    & w5 & w6 & -> & -> & c & -> & Hcc).
    rewrite Hst. simpl. apply (Hlate pre_s w3 c next).
    - rewrite Hc, <- !app_assoc. reflexivity.
    - lia.
    - exact Hsp.
    - apply orb_true_iff in Hcc as [Hcc|Hcc];
        [left; apply ascii_eqb_eq; exact Hcc|right; exact Hcc]. }
  unfold slice. replace (f_start tm - f_start sm) with 0 by lia. reflexivity.
Qed.

Lemma solution_after_takeaway_is_lost_witness :
  holds (one_file "tip.md" reversed_doc) "tip.md" reversed_doc
  /\ exists pd w',
       process_markdown_file quiet_env "tip.md" (one_file "tip.md" reversed_doc) = (Ok pd, w')
       /\ solution pd = [].
Proof.
  assert (Hfile : holds (one_file "tip.md" reversed_doc) "tip.md" reversed_doc)
    by apply lookup_singleton_eq.
  split; [exact Hfile|].
  destruct (quiet_env_parses "tip.md" reversed_doc (one_file "tip.md" reversed_doc) Hfile)
    as (pd & w' & Hpd).
  exists pd, w'. split; [exact Hpd|].
  apply (solution_after_takeaway_is_lost quiet_env "tip.md" reversed_doc
           (one_file "tip.md" reversed_doc) w' pd
           (lines ["## Tip 6"; ""; ""]%string) " "
           (lines [""; ""; "Be good."; ""; "### The Solution: Y"; ""; "Do Y."]%string)
           Hfile Hpd).
  - vm_compute. reflexivity.
  - simpl. lia.
  - repeat constructor.
  - intros pre_s ws_s c post_s Hc Hlen Hall Hcc.
    destruct (re_search no_flags solution_re reversed_doc) as [sm|] eqn:Hsm.
    + assert (Hle : f_start sm <= 0 + length pre_s).
      { apply (search_from_first _ _ _ _ _ _ pre_s ("###" ++ ws_s ++ "The Solution" ++ [c])
                 post_s Hsm).
        - rewrite Hc, <- !app_assoc. reflexivity.
        - apply solution_heading_matches; assumption. }
      vm_compute in Hsm. injection Hsm as <-. simpl in Hle |- *. lia.
    + vm_compute in Hsm. discriminate Hsm.
Defined.

(** X19.  When the document has a problem heading, the text of the first tweet
    is what stands before the first such heading, trimmed: the heading and
    everything after it are left out. *)
Theorem first_tweet_stops_at_problem (env : Env) (file_path content : str)
    (w w' : World) (pd : PostData) :
  holds w file_path content ->
  process_markdown_file env file_path w = (Ok pd, w') ->
  has_heading "The Problem" content ->
  exists pre ws post,
    content = pre ++ "###" ++ ws ++ "The Problem" ++ post
    /\ 0 < length ws /\ all_space ws
    /\ ~ has_heading "The Problem" pre
    /\ first_tweet pd = strip pre.
Proof.
  intros Hfile Hpd Hprob.
  destruct (process_markdown_file_fields _ _ _ _ _ _ Hfile Hpd) as (_ & _ & Hft & _).
  apply heading_occurs, re_search_occurs in Hprob as [pm Hpm].
  change (Lit "###" · Plus CSpace · Lit "The Problem") with problem_re in Hpm.
  rewrite Hpm in Hft.
  destruct (re_search_heading "The Problem" content pm Hpm)
    as (pre & ws & post & Hs & Hlen & Hall & Hst & Hfirst).
  exists pre, ws, post. split; [exact Hs|]. split; [exact Hlen|]. split; [exact Hall|].
  split.
  - intros (p1 & ws1 & q1 & Hp & Hlen1 & Hall1).
    specialize (Hfirst p1 ws1 (q1 ++ "###" ++ ws ++ "The Problem" ++ post)).
    rewrite Hs, Hp, <- !app_assoc in Hfirst. specialize (Hfirst eq_refl Hlen1 Hall1).
    rewrite !length_app in Hfirst. simpl in Hfirst. lia.
  - rewrite Hft, Hst. unfold slice. rewrite Nat.sub_0_r, drop_0. rewrite Hs at 1.
    rewrite take_app_length. reflexivity.
Qed.

Lemma first_tweet_stops_at_problem_witness :
  (holds (one_file "tip.md" tip_doc) "tip.md" tip_doc /\ has_heading "The Problem" tip_doc)
  /\ exists pd w',
       process_markdown_file quiet_env "tip.md" (one_file "tip.md" tip_doc) = (Ok pd, w')
       /\ exists pre ws post,
            tip_doc = pre ++ "###" ++ ws ++ "The Problem" ++ post
            /\ 0 < length ws /\ all_space ws
            /\ ~ has_heading "The Problem" pre
            /\ first_tweet pd = strip pre.
Proof.
  assert (Hfile : holds (one_file "tip.md" tip_doc) "tip.md" tip_doc)
    by apply lookup_singleton_eq.
  assert (Hprob : has_heading "The Problem" tip_doc).
  { apply heading_occurs, re_search_occurs. vm_compute. eexists. reflexivity. }
  split; [split; [exact Hfile|exact Hprob]|].
  destruct (quiet_env_parses "tip.md" tip_doc (one_file "tip.md" tip_doc) Hfile)
    as (pd & w' & Hpd).
  exists pd, w'. split; [exact Hpd|].
  exact (first_tweet_stops_at_problem quiet_env "tip.md" tip_doc (one_file "tip.md" tip_doc)
           w' pd Hfile Hpd Hprob).
Defined.

(** ** Title and hook *)

Lemma title_occurs t : occurs re_M title_re t <-> has_title_line t.
Proof.
  unfold occurs, has_title_line, title_re, Plus. simpl. split.
  - intros (pre & w & next & -> & w1 & w2 & -> & (-> & Hbol) & w3 & w4 & ->
            & -> & w5 & w6 & -> & (Hws & _ & Hspace)
            & w7 & w8 & -> & (Htx & _ & Htext) & -> & Heol).
    exists pre, w5, w7, next.
    split; [simpl; rewrite <- !app_assoc; reflexivity|].
    split; [apply at_bol_line_start; exact Hbol|].
    split; [lia|]. split; [exact Hspace|]. split; [lia|]. split.
    { eapply Forall_impl; [exact Htext|]. intros c Hc. apply not_newline. exact Hc. }
    apply at_eol_line_end. exact Heol.
  - intros (pre & ws & text & post & -> & Hpre & Hws & Hspace & Htx & Htext & Hpost).
    exists pre, ("##" ++ ws ++ text), post.
    split; [rewrite <- !app_assoc; reflexivity|].
    exists [], ("##" ++ ws ++ text). split; [reflexivity|].
    split; [split; [reflexivity|apply at_bol_line_start; exact Hpre]|].
    exists ("##" : str), (ws ++ text). split; [reflexivity|]. split; [reflexivity|].
    exists ws, text. split; [reflexivity|].
    split; [split; [lia|split; [exact I|exact Hspace]]|].
    exists text, []. split; [rewrite app_nil_r; reflexivity|]. split.
    { split; [lia|]. split; [exact I|].
      eapply Forall_impl; [exact Htext|]. intros c Hc. apply not_newline. exact Hc. }
    split; [reflexivity|]. apply at_eol_line_end. exact Hpost.
Qed.

Lemma title_match_at adv prev s mt :
  match_at re_M title_re adv prev s = Some mt ->
  exists ws text post,
    s = "##" ++ ws ++ text ++ post
    /\ at_bol re_M prev = true
    /\ 0 < length ws /\ all_space ws
    /\ 0 < length text /\ Forall (fun c => c <> nl) text
    /\ line_end post
    /\ group 1 mt s = text.
Proof.
  unfold match_at.
  destruct (m re_M title_re _ _) as [st|] eqn:E; [|discriminate].
  intros Hmt. injection Hmt as <-.
  unfold title_re in E. cbn [m before] in E.
  destruct (at_bol re_M prev) eqn:Hbol; [|discriminate].
  apply m_lit_sound in E as (st1 & Hadv1 & Hc1 & E).
  unfold Plus in E. cbn [m] in E.
  apply m_rep_sound with (s := ahead st1) in E; [|reflexivity].
  destruct E as (ws & st2 & Hadv2 & Hc2 & Hlo2 & _ & Hws & E).
  apply m_rep_sound with (s := ahead st2) in E; [|reflexivity].
  destruct E as (text & st3 & Hadv3 & Hc3 & Hlo3 & _ & Htext & E).
  cbn [ahead off before caps] in E.
  destruct (at_eol re_M (ahead st3)) eqn:Heol; [|discriminate].
  assert (Hst : st = {| off := off st3; before := before st3; ahead := ahead st3;
                       caps := (1, (off st2, off st3)) :: caps st3 |}).
  { match type of E with (if ?c then _ else _) = _ => destruct c end; congruence. }
  subst st. clear E.
  destruct Hadv1 as (A1 & O1 & _), Hadv2 as (A2 & O2 & _), Hadv3 as (A3 & O3 & _).
  cbn [ahead off before caps] in *.
  assert (Hs : s = "##" ++ ws ++ text ++ ahead st3) by (rewrite A1, A2, A3; reflexivity).
  exists ws, text, (ahead st3). split; [exact Hs|]. split; [reflexivity|].
  split; [lia|]. split; [exact Hws|]. split; [lia|]. split.
  { eapply Forall_impl; [exact Htext|]. intros c Hc. apply not_newline. exact Hc. }
  split; [apply at_eol_line_end; exact Heol|].
  unfold group. cbn [m_caps lookup_cap Nat.eqb]. unfold slice.
  rewrite O3. replace (off st2 + length text - off st2) with (length text) by lia.
  replace (off st2) with (length ("##" ++ ws)) by (rewrite O2, O1, length_app; simpl; lia).
  rewrite Hs.
  replace ("##" ++ ws ++ text ++ ahead st3) with (("##" ++ ws) ++ text ++ ahead st3)
    by (rewrite <- !app_assoc; reflexivity).
  rewrite drop_app_length. apply take_app_length.
Qed.

(** X20.  The title is the text of a title line of the document: a non-empty
    text without newline that follows two hashes and whitespace at the
    start of a line and runs to the end of its line.  A document without a
    title line is given the stem of its file name. *)
Theorem title_is_a_line_or_the_file_name (env : Env) (file_path content : str)
    (w w' : World) (pd : PostData) :
  holds w file_path content ->
  process_markdown_file env file_path w = (Ok pd, w') ->
  (has_title_line content ->
     exists pre ws post,
       content = pre ++ "##" ++ ws ++ title pd ++ post
       /\ line_start pre /\ 0 < length ws /\ all_space ws /\ line_end post
       /\ 0 < length (title pd) /\ Forall (fun c => c <> nl) (title pd))
  /\ (~ has_title_line content -> title pd = path_stem file_path).
Proof.
  intros Hfile Hpd.
  destruct (process_markdown_file_fields _ _ _ _ _ _ Hfile Hpd) as (Ht & _).
  split.
  - intros Hline. apply title_occurs, re_search_occurs in Hline as [tm Htm].
    rewrite Htm in Ht. unfold re_search in Htm.
    destruct (search_from_match_at _ _ _ _ _ _ Htm) as (pre & Hs & _ & Hm).
    apply title_match_at in Hm
      as (ws & text & post & Hs' & Hbol & Hlen & Hall & Htx & Hnl & Hend & G).
    unfold f_group in Ht. rewrite G in Ht. rewrite Ht.
    exists pre, ws, post. split; [rewrite Hs, Hs' at 1; reflexivity|].
    split; [apply at_bol_line_start; exact Hbol|].
    repeat (split; [assumption|]). assumption.
  - intros Hno. rewrite <- title_occurs in Hno. apply re_search_none in Hno.
    rewrite Hno in Ht. exact Ht.
Qed.

Lemma title_is_a_line_or_the_file_name_witness :
  holds (one_file "notes/tip007.md" plain_text) "notes/tip007.md" plain_text
  /\ exists pd w',
       process_markdown_file quiet_env "notes/tip007.md" (one_file "notes/tip007.md" plain_text)
       = (Ok pd, w')
       /\ ~ has_title_line plain_text
       /\ title pd = path_stem "notes/tip007.md".
Proof.
  assert (Hfile : holds (one_file "notes/tip007.md" plain_text) "notes/tip007.md" plain_text)
    by apply lookup_singleton_eq.
  split; [exact Hfile|].
  destruct (quiet_env_parses "notes/tip007.md" plain_text (one_file "notes/tip007.md" plain_text) Hfile)
    as (pd & w' & Hpd).
  assert (Hno : ~ has_title_line plain_text).
  { rewrite <- title_occurs. apply re_search_none. vm_compute. reflexivity. }
  exists pd, w'. split; [exact Hpd|]. split; [exact Hno|].
  pose proof (title_is_a_line_or_the_file_name quiet_env "notes/tip007.md" plain_text
                (one_file "notes/tip007.md" plain_text) w' pd Hfile Hpd) as [_ H].
  exact (H Hno).
Defined.

Lemma hook_match_at adv prev s mt :
  match_at re_M hook_re adv prev s = Some mt ->
  exists ws text post,
    s = ws ++ "**" ++ text ++ "**" ++ post
    /\ all_space ws
    /\ 0 < length text /\ Forall (fun c => c <> nl) text
    /\ group 1 mt s = text.
Proof.
  unfold match_at.
  destruct (m re_M hook_re _ _) as [st|] eqn:E; [|discriminate].
  intros Hmt. injection Hmt as <-.
  unfold hook_re in E. cbn [m before] in E.
  destruct (at_bol re_M prev); [|discriminate].
  unfold Star in E. cbn [m] in E.
  apply m_rep_sound with (s := s) in E; [|reflexivity].
  destruct E as (ws & st1 & Hadv1 & Hc1 & _ & _ & Hws & E).
  apply m_lit_sound in E as (st2 & Hadv2 & Hc2 & E).
  unfold PlusLazy in E. cbn [m] in E.
  apply m_rep_sound with (s := ahead st2) in E; [|reflexivity].
  destruct E as (text & st3 & Hadv3 & Hc3 & Hlo3 & _ & Htext & E).
  apply m_lit_sound in E as (st4 & Hadv4 & Hc4 & E).
  assert (Hst : st = st4) by (destruct (adv && (off st4 =? 0)); congruence).
  subst st. clear E.
  destruct Hadv1 as (A1 & O1 & _), Hadv2 as (A2 & O2 & _), Hadv3 as (A3 & O3 & _),
    Hadv4 as (A4 & O4 & _).
  cbn [ahead off before caps] in *.
  assert (Hs : s = ws ++ "**" ++ text ++ "**" ++ ahead st4)
    by (rewrite A1, A2, A3, A4; reflexivity).
  exists ws, text, (ahead st4). split; [exact Hs|]. split; [exact Hws|].
  split; [lia|]. split.
  { eapply Forall_impl; [exact Htext|]. intros c Hc. apply not_newline. exact Hc. }
  unfold group. cbn [m_caps]. rewrite Hc4. cbn [lookup_cap Nat.eqb]. unfold slice.
  rewrite O3. replace (off st2 + length text - off st2) with (length text) by lia.
  replace (off st2) with (length (ws ++ "**")) by (rewrite O2, O1, length_app; simpl; lia).
  rewrite Hs.
  replace (ws ++ "**" ++ text ++ "**" ++ ahead st4)
    with ((ws ++ "**") ++ text ++ "**" ++ ahead st4) by (rewrite <- !app_assoc; reflexivity).
  rewrite drop_app_length. apply take_app_length.
Qed.

(** X21.  The hook is a bold text of the document: it holds no newline, and when
    it is not empty the document has it between two pairs of asterisks.  A
    document without a pair of asterisks has the empty hook. *)
Theorem hook_is_bold_text (env : Env) (file_path content : str)
    (w w' : World) (pd : PostData) :
  holds w file_path content ->
  process_markdown_file env file_path w = (Ok pd, w') ->
  Forall (fun c => c <> nl) (hook pd)
  /\ (hook pd <> [] -> substring ("**" ++ hook pd ++ "**") content)
  /\ (~ substring "**" content -> hook pd = []).
Proof.
  intros Hfile Hpd.
  destruct (process_markdown_file_fields _ _ _ _ _ _ Hfile Hpd) as (_ & Hh & _).
  assert (Hafter : exists skipped,
            content = skipped ++ match re_search re_M title_re content with
                                 | Some tm => slice_from (f_end tm) content
                                 | None => content
                                 end).
  { destruct (re_search re_M title_re content) as [tm|].
    - exists (take (f_end tm) content). unfold slice_from. symmetry. apply take_drop.
    - exists []. reflexivity. }
  destruct Hafter as [skipped Hafter].
  destruct (re_search re_M hook_re _) as [hm|] eqn:Hhm.
  - unfold re_search in Hhm.
    destruct (search_from_match_at _ _ _ _ _ _ Hhm) as (pre & Hs & _ & Hm).
    apply hook_match_at in Hm as (ws & text & post & Hs' & _ & Hlen & Hnl & G).
    unfold f_group in Hh. rewrite G in Hh.
    assert (Hsub : substring ("**" ++ hook pd ++ "**") content).
    { exists (skipped ++ pre ++ ws), post. rewrite Hh.
      rewrite Hafter, Hs, Hs' at 1. rewrite <- !app_assoc. reflexivity. }
    split; [rewrite Hh; exact Hnl|]. split; [intros _; exact Hsub|].
    intros Hno. exfalso. apply Hno.
    destruct Hsub as (a & b & Hc). exists a, (hook pd ++ "**" ++ b).
    rewrite Hc at 1. rewrite <- !app_assoc. reflexivity.
  - rewrite Hh. split; [constructor|]. split; [intros H; contradiction|reflexivity].
Qed.

Lemma hook_is_bold_text_witness :
  holds (one_file "tip.md" title_doc) "tip.md" title_doc
  /\ exists pd w',
       process_markdown_file quiet_env "tip.md" (one_file "tip.md" title_doc) = (Ok pd, w')
       /\ Forall (fun c => c <> nl) (hook pd)
       /\ (hook pd <> [] -> substring ("**" ++ hook pd ++ "**") title_doc)
       /\ (~ substring "**" title_doc -> hook pd = []).
Proof.
  assert (Hfile : holds (one_file "tip.md" title_doc) "tip.md" title_doc)
    by apply lookup_singleton_eq.
  split; [exact Hfile|].
  destruct (quiet_env_parses "tip.md" title_doc (one_file "tip.md" title_doc) Hfile)
    as (pd & w' & Hpd).
  exists pd, w'. split; [exact Hpd|].
  exact (hook_is_bold_text quiet_env "tip.md" title_doc (one_file "tip.md" title_doc) w' pd
           Hfile Hpd).
Defined.

(** ** The renderer's temporary file *)

Lemma lookup_rendered (images : list (str * str)) (fs : gmap str str) (path : str) :
  (forall p img, (p, img) ∈ images -> p <> path) ->
  foldr (fun '(p, img) acc => <[p := img]> acc) fs images !! path = fs !! path.
Proof.
  induction images as [|[p img] images IH]; intros Hne; [reflexivity|].
  simpl. rewrite lookup_insert_ne.
  - apply IH. intros p' img' Hin. apply (Hne p' img'). apply list_elem_of_further. exact Hin.
  - apply (Hne p img). apply list_elem_of_here.
Qed.

(** X22.  The temporary file [generate_image_with_carbon] writes the code to is
    never removed: once it is written, whether the renderer succeeds or
    fails, the file is still there afterwards, holding the code (the
    renderer itself writes images, not that file). *)
Theorem renderer_file_is_never_removed (env : Env) (json_dumps : Serializer)
    (code language output_path theme : str) (w : World) :
  let temp_path := mkstemp env (temps w) ("." ++ language) in
  let argv := carbon_argv json_dumps temp_path output_path language theme in
  temp_file env (temps w) ("." ++ language) code = Written ->
  (forall p img, (p, img) ∈ rendered env argv -> p <> temp_path) ->
  files (generate_image_with_carbon env json_dumps code language output_path theme w).2
    !! temp_path = Some code.
Proof.
  intros temp_path argv Htemp Hne.
  unfold generate_image_with_carbon, bind, named_temporary_file, subprocess_run, set_files.
  rewrite Htemp. cbn [files dirs temps trace]. fold temp_path. fold argv.
  destruct (spawn env argv _) as [out|e]; cbn [snd files].
  - rewrite lookup_rendered by exact Hne. apply lookup_insert_eq.
  - apply lookup_insert_eq.
Qed.

Lemma renderer_file_is_never_removed_witness :
  temp_file quiet_env (temps (one_file "tip.md" tip_doc)) ("." ++ "python") "x = 1" = Written
  /\ files (generate_image_with_carbon quiet_env no_json "x = 1" "python" "images/tip_code.png"
              "VSCode" (one_file "tip.md" tip_doc)).2
       !! mkstemp quiet_env (temps (one_file "tip.md" tip_doc)) ("." ++ "python")
     = Some ("x = 1" : str).
Proof.
  split; [reflexivity|].
  apply (renderer_file_is_never_removed quiet_env no_json "x = 1" "python"
           "images/tip_code.png" "VSCode" (one_file "tip.md" tip_doc)); [reflexivity|].
  intros p img Hin. inversion Hin.
Defined.

(** When writing the code raises, the file that was made stays behind
    with what was written of it, and the renderer is not started. *)
Example renderer_file_can_be_incomplete :
  let '(r, w') := generate_image_with_carbon full_disk_env no_json "x = 1" "python"
                    "images/tip_code.png" "VSCode" (one_file "tip.md" tip_doc) in
  r = Raise OSError
  /\ files w' !! mkstemp full_disk_env 0 ".python" = Some []
  /\ trace w' = [].
Proof. vm_compute. repeat split; reflexivity. Qed.

(** ** What the entry points report *)

Lemma prepare_social_post_shape env json_dumps markdown_file output_dir theme :
  returns (fun r => r_image_paths r = ∅ /\ exists tweet_1 tweet_2, r_thread r = [tweet_1; tweet_2])
          (prepare_social_post env json_dumps markdown_file output_dir theme).
Proof.
  unfold prepare_social_post.
  eapply returns_bind; [apply returns_any|]; intros ? _.
  eapply returns_bind; [apply returns_any|]; intros pd _.
  do 6 (eapply returns_bind; [apply returns_any|]; intros ? _).
  eapply returns_bind; [apply move_images_empty|]. intros m ->.
  eapply returns_bind; [apply returns_any|]; intros ? _.
  apply returns_ret. split; [reflexivity|]. apply create_twitter_thread_pair.
Qed.

(** X23.  The report of prepare_social_post.py always counts no image: whatever
    the document, [main] prints that 0 code images were generated, since
    the manifest it counts is empty; and the report has fifteen lines, two
    of them for each of the two tweets. *)
Theorem main_reports_no_images (env : Env) (json_dumps : Serializer)
    (file : str) (output : option str) (theme : str) (w w' : World) (report : list str) :
  prepare_social_post_main env json_dumps file output theme w = (Ok report, w') ->
  report !! 3 = Some ("Generated 0 code images" : str)
  /\ last report = Some ("- Images: 0" : str)
  /\ length report = 15.
Proof.
  unfold prepare_social_post_main. intros H. unfold bind in H.
  destruct (prepare_social_post env json_dumps file _ theme w) as [[r|e] w1] eqn:E;
    [|discriminate].
  destruct (prepare_social_post_shape _ _ _ _ _ _ _ _ E) as (Hm & a & b & Ht).
  unfold ret in H. injection H as <- _. rewrite Hm, Ht, map_size_empty.
  split; [reflexivity|]. split; reflexivity.
Qed.

Lemma main_reports_no_images_witness :
  exists report w',
    prepare_social_post_main quiet_env no_json "tip.md" None "VSCode"
      (one_file "tip.md" title_doc) = (Ok report, w')
    /\ report !! 3 = Some ("Generated 0 code images" : str)
    /\ last report = Some ("- Images: 0" : str)
    /\ length report = 15.
Proof.
  destruct (prepare_social_post_main quiet_env no_json "tip.md" None "VSCode"
              (one_file "tip.md" title_doc)) as [[report|e] w'] eqn:E.
  - exists report, w'. split; [reflexivity|].
    exact (main_reports_no_images quiet_env no_json "tip.md" None "VSCode"
             (one_file "tip.md" title_doc) w' report E).
  - exfalso. vm_compute in E. discriminate E.
Defined.

(** X24.  The preview [main] of process_post.py prints of the cleaned text is
    never longer than 283 characters: the text itself when it has at most
    280 characters, else its first 280 characters and an ellipsis. *)
Theorem preview_is_bounded (env : Env) (file content : str) (w w' : World)
    (printed : list str) :
  holds w file content ->
  process_post_main env file w = (Ok printed, w') ->
  exists shown,
    printed !! 5 = Some shown
    /\ length shown <= 283
    /\ (length (clean_for_social content) <= 280 -> shown = clean_for_social content)
    /\ (280 < length (clean_for_social content) ->
        shown = take 280 (clean_for_social content) ++ "...").
Proof.
  intros Hfile H. unfold process_post_main, bind in H.
  destruct (process_markdown_file env file w) as [[pd|e] w1] eqn:E; [|discriminate].
  rewrite (process_markdown_file_clean_content _ _ _ _ _ _ Hfile E) in H.
  unfold ret in H. injection H as <- _.
  eexists. split; [reflexivity|].
  destruct (280 <? length (clean_for_social content)) eqn:Hlen.
  - apply Nat.ltb_lt in Hlen. split; [|split; [lia|reflexivity]].
    rewrite length_app, length_take. cbn [length]. lia.
  - apply Nat.ltb_ge in Hlen. split; [lia|]. split; [reflexivity|lia].
Qed.

Lemma preview_is_bounded_witness :
  holds (one_file "tip.md" tip_doc) "tip.md" tip_doc
  /\ exists printed w',
       process_post_main quiet_env "tip.md" (one_file "tip.md" tip_doc) = (Ok printed, w')
       /\ exists shown,
            printed !! 5 = Some shown
            /\ length shown <= 283
            /\ (length (clean_for_social tip_doc) <= 280 -> shown = clean_for_social tip_doc)
            /\ (280 < length (clean_for_social tip_doc) ->
                shown = take 280 (clean_for_social tip_doc) ++ "...").
Proof.
  assert (Hfile : holds (one_file "tip.md" tip_doc) "tip.md" tip_doc)
    by apply lookup_singleton_eq.
  split; [exact Hfile|].
  destruct (process_post_main quiet_env "tip.md" (one_file "tip.md" tip_doc))
    as [[printed|e] w'] eqn:E.
  - exists printed, w'. split; [reflexivity|].
    exact (preview_is_bounded quiet_env "tip.md" tip_doc (one_file "tip.md" tip_doc) w'
             printed Hfile E).
  - exfalso. vm_compute in E. discriminate E.
Defined.

(** ** A document with one fenced block *)

(** The scan of a subject with exactly one match: no attempt succeeds
    before it, it covers [s], and nothing is found after it. *)
Lemma scan_single fl r : forall pre prev s post mt,
  (forall p1 c p2, pre = p1 ++ c :: p2 ->
     match_at fl r false (last_char prev p1) (c :: p2 ++ s ++ post) = None) ->
  match_at fl r false (last_char prev pre) (s ++ post) = Some mt ->
  m_len mt = length s -> 0 < length s ->
  search_from fl r 0 (last_char prev (pre ++ s)) post = None ->
  scan fl r prev 0 (pre ++ s ++ post) = map Text pre ++ Hit mt (s ++ post) :: map Text post.
Proof.
  induction pre as [|c pre IH]; intros prev s post mt Hpre Hm Hlen Hpos Hpost.
  - destruct s as [|x t]; [simpl in Hpos; lia|].
    rewrite last_char_nil in Hm. cbn [app] in Hm, Hpost |- *. cbn [scan].
    rewrite Hm. destruct (m_len mt) as [|n] eqn:El; [simpl in Hlen; lia|].
    cbn [map app]. f_equal. cbn [pred].
    assert (Hn : n = length t) by (simpl in Hlen; lia). subst n.
    rewrite scan_skip by (rewrite length_app; lia).
    rewrite take_app_length, drop_app_length.
    rewrite last_char_cons in Hpost.
    apply (scan_no_match _ _ _ 0). exact Hpost.
  - cbn [app scan].
    pose proof (Hpre [] c pre eq_refl) as H0. rewrite last_char_nil in H0. cbn [app] in H0.
    rewrite H0. cbn [map app]. f_equal.
    apply IH; try assumption.
    + intros p1 c' p2 Hp. rewrite <- (last_char_cons prev). apply Hpre. rewrite Hp.
      reflexivity.
    + rewrite <- (last_char_cons prev). exact Hm.
    + rewrite <- (last_char_cons prev). exact Hpost.
Qed.

Lemma split_at_first (x : ascii) : forall a a' b b',
  Forall (fun c => c <> x) a -> Forall (fun c => c <> x) a' ->
  a ++ x :: b = a' ++ x :: b' -> a = a' /\ b = b'.
Proof.
  induction a as [|c a IH]; intros a' b b' Ha Ha' H.
  - destruct a' as [|c' a'].
    + injection H as ->. split; reflexivity.
    + injection H as <- _. inversion Ha'; subst. contradiction.
  - destruct a' as [|c' a'].
    + injection H as -> _. inversion Ha; subst. contradiction.
    + injection H as -> H. inversion Ha; inversion Ha'; subst.
      destruct (IH a' b b') as [-> ->]; try assumption. split; reflexivity.
Qed.

Lemma closing_fence_unique : forall code code' post post',
  no_backtick code -> no_backtick post ->
  code ++ backticks ++ post = code' ++ backticks ++ post' -> code' = code /\ post' = post.
Proof.
  induction code as [|x code IH]; intros code' post post' Hcode Hpost H.
  - destruct code' as [|c1 [|c2 [|c3 rest]]]; unfold backticks in H; simpl in H;
      inversion H; subst; clear H.
    + split; reflexivity.
    + exfalso. inversion Hpost; subst. congruence.
    + exfalso. inversion Hpost; subst. congruence.
    + exfalso. apply Forall_app in Hpost as [_ Hpost]. inversion Hpost; subst. congruence.
  - inversion Hcode; subst. destruct code' as [|y code'].
    + exfalso. unfold backticks in H. simpl in H. inversion H; subst. congruence.
    + injection H as <- H. destruct (IH code' post post') as [-> ->]; try assumption.
      split; reflexivity.
Qed.

Lemma word_not_newline lang :
  Forall (fun c => is_word c = true) lang -> Forall (fun c => c <> nl) lang.
Proof.
  intros H. eapply Forall_impl; [exact H|]. intros c Hc ->. discriminate Hc.
Qed.

Lemma fence_unique lang code post lang' code' post' :
  Forall (fun c => is_word c = true) lang -> Forall (fun c => is_word c = true) lang' ->
  no_backtick code -> no_backtick post ->
  backticks ++ lang ++ [nl] ++ code ++ backticks ++ post
  = backticks ++ lang' ++ [nl] ++ code' ++ backticks ++ post' ->
  lang' = lang /\ code' = code /\ post' = post.
Proof.
  intros Hlang Hlang' Hcode Hpost H. apply app_inv_head in H.
  apply split_at_first in H as [<- H]; [|apply word_not_newline; assumption..].
  apply closing_fence_unique in H as [-> ->]; [|assumption..].
  repeat split; reflexivity.
Qed.

Lemma fence_matches_shape r prev w next :
  r = fence_re \/ r = fence_groups_re ->
  matches re_S r prev w next ->
  exists lang code, w = backticks ++ lang ++ [nl] ++ code ++ backticks
    /\ Forall (fun c => is_word c = true) lang.
Proof.
  intros [-> | ->]; unfold fence_re, fence_groups_re, Star, StarLazy; simpl;
    intros (w1 & w2 & -> & -> & w3 & w4 & -> & (_ & _ & Hlang)
            & w5 & w6 & -> & (c & -> & Hc) & w7 & w8 & -> & _ & ->);
    apply ascii_eqb_eq in Hc; subst c; exists w3, w7; split;
    [reflexivity|exact Hlang| reflexivity|exact Hlang].
Qed.

Lemma fence_shape_matches r prev lang code next :
  r = fence_re \/ r = fence_groups_re ->
  Forall (fun c => is_word c = true) lang ->
  matches re_S r prev (backticks ++ lang ++ [nl] ++ code ++ backticks) next.
Proof.
  intros [-> | ->] Hlang; unfold fence_re, fence_groups_re, Star, StarLazy; simpl;
    (exists backticks, (lang ++ [nl] ++ code ++ backticks); split; [reflexivity|];
     split; [reflexivity|];
     exists lang, ([nl] ++ code ++ backticks); split; [reflexivity|];
     split; [split; [lia|split; [exact I|exact Hlang]]|];
     exists [nl], (code ++ backticks); split; [reflexivity|];
     split; [exists nl; split; reflexivity|];
     exists code, backticks; split; [reflexivity|]; split; [|reflexivity];
     split; [lia|]; split; [exact I|]; apply Forall_forall; reflexivity).
Qed.

Lemma no_fence_starts_here r adv prev c rest :
  r = fence_re \/ r = fence_groups_re ->
  c <> "`"%char -> match_at re_S r adv prev (c :: rest) = None.
Proof.
  intros Hr Hc. destruct (match_at re_S r adv prev (c :: rest)) as [mt|] eqn:E; [|reflexivity].
  exfalso. apply match_at_sound in E as (w & next & Hs & _ & Hm & _).
  destruct (fence_matches_shape r prev w next Hr Hm) as (lang & code & -> & _).
  injection Hs as -> _. apply Hc. reflexivity.
Qed.

Lemma no_fence_after r pos prev post :
  r = fence_re \/ r = fence_groups_re ->
  no_backtick post -> search_from re_S r pos prev post = None.
Proof.
  intros Hr Hpost.
  destruct (search_from re_S r pos prev post) as [f|] eqn:E; [|reflexivity].
  exfalso. apply search_from_sound in E as (pre & w & next & Hs & Hm & _).
  destruct (fence_matches_shape r _ w next Hr Hm) as (lang & code & -> & _).
  rewrite Hs in Hpost. apply Forall_app in Hpost as [_ Hpost].
  inversion Hpost; subst. contradiction.
Qed.

(** The scan of a document with one fenced block and no other backtick,
    for the fence pattern with or without groups. *)
Lemma scan_one_fence r pre lang code post :
  r = fence_re \/ r = fence_groups_re ->
  no_backtick pre -> no_backtick code -> no_backtick post ->
  Forall (fun c => is_word c = true) lang ->
  let fence := backticks ++ lang ++ [nl] ++ code ++ backticks in
  exists mt,
    match_at re_S r false (last_char None pre) (fence ++ post) = Some mt
    /\ scan re_S r None 0 (pre ++ fence ++ post)
       = map Text pre ++ Hit mt (fence ++ post) :: map Text post.
Proof.
  intros Hr Hpre Hcode Hpost Hlang fence.
  destruct (match_at_complete re_S r (last_char None pre) (fence ++ post) fence post eq_refl
              (fence_shape_matches r _ lang code post Hr Hlang)) as [mt Hmt].
  exists mt. split; [exact Hmt|].
  apply scan_single.
  - intros p1 c p2 Hp. apply no_fence_starts_here; [exact Hr|].
    rewrite Hp in Hpre. apply Forall_app in Hpre as [_ Hpre]. inversion Hpre; assumption.
  - exact Hmt.
  - destruct (match_at_sound _ _ _ _ _ _ Hmt) as (w & next & Hs & Hl & Hm & _).
    destruct (fence_matches_shape r _ w next Hr Hm) as (lang' & code' & -> & Hlang').
    unfold fence in Hs. rewrite <- !app_assoc in Hs.
    apply fence_unique in Hs as (-> & -> & ->); [exact Hl|assumption..].
  - unfold fence. rewrite length_app. simpl. lia.
  - apply no_fence_after; assumption.
Qed.

Lemma hits_app_text pre ps : hits (map Text pre ++ ps) = hits ps.
Proof. induction pre as [|c pre IH]; [reflexivity|exact IH]. Qed.

Lemma sub_pieces_app repl a b :
  sub_pieces repl (a ++ b) = sub_pieces repl a ++ sub_pieces repl b.
Proof. unfold sub_pieces. rewrite map_app, concat_app. reflexivity. Qed.

(** X25.  A document with one fenced block and no other backtick gives back
    exactly that block: its language, its code from after the newline of
    the opening line up to the closing fence, and the label of that
    code. *)
Theorem single_block_is_extracted (pre lang code post : str) :
  no_backtick pre -> no_backtick code -> no_backtick post ->
  Forall (fun c => is_word c = true) lang ->
  extract_code_blocks (pre ++ backticks ++ lang ++ [nl] ++ code ++ backticks ++ post)
  = [(lang, code, block_label code)].
Proof.
  intros Hpre Hcode Hpost Hlang.
  destruct (scan_one_fence fence_groups_re pre lang code post (or_intror eq_refl)
              Hpre Hcode Hpost Hlang) as (mt & Hmt & Hscan).
  unfold extract_code_blocks.
  replace (pre ++ backticks ++ lang ++ [nl] ++ code ++ backticks ++ post)
    with (pre ++ (backticks ++ lang ++ [nl] ++ code ++ backticks) ++ post)
    by (rewrite <- !app_assoc; reflexivity).
  rewrite Hscan, hits_app_text. cbn [hits]. rewrite hits_text. cbn [map].
  destruct (fence_match_at _ _ _ _ Hmt) as (lang' & code' & post' & Hs & Hlang' & _ & G1 & G2).
  rewrite G1, G2. rewrite <- !app_assoc in Hs.
  apply fence_unique in Hs as (-> & -> & ->); [reflexivity|assumption..].
Qed.

Lemma single_block_is_extracted_witness :
  (no_backtick intro_text /\ no_backtick sample_code /\ no_backtick outro_text
   /\ Forall (fun c => is_word c = true) ("python" : str))
  /\ extract_code_blocks
       (intro_text ++ backticks ++ "python" ++ [nl] ++ sample_code ++ backticks ++ outro_text)
     = [("python" : str, sample_code, block_label sample_code)].
Proof.
  assert (H1 : no_backtick intro_text) by (repeat constructor; discriminate).
  assert (H2 : no_backtick sample_code) by (repeat constructor; discriminate).
  assert (H3 : no_backtick outro_text) by (repeat constructor; discriminate).
  assert (H4 : Forall (fun c => is_word c = true) ("python" : str)) by (repeat constructor).
  split; [split; [exact H1|split; [exact H2|split; [exact H3|exact H4]]]|].
  exact (single_block_is_extracted intro_text "python" sample_code outro_text H1 H2 H3 H4).
Defined.

(** X26.  Cleaning puts the placeholder where the code block was: for a
    document with one fenced block and no other backtick, whose text
    around the block needs no other rewriting once the placeholder stands
    in it, the cleaned text is the document with the block replaced by the
    placeholder. *)
Theorem fenced_block_becomes_placeholder (pre lang code post : str) :
  no_backtick pre -> no_backtick code -> no_backtick post ->
  Forall (fun c => is_word c = true) lang ->
  ~ has_heading_line (pre ++ placeholder ++ post) ->
  ~ has_python_line (pre ++ placeholder ++ post) ->
  ~ substring [nl; nl; nl] (pre ++ placeholder ++ post) ->
  trimmed (pre ++ placeholder ++ post) ->
  clean_for_social (pre ++ backticks ++ lang ++ [nl] ++ code ++ backticks ++ post)
  = pre ++ placeholder ++ post.
Proof.
  intros Hpre Hcode Hpost Hlang.
  rewrite <- header_occurs, <- python_line_occurs, <- calm_substring.
  intros Hhead Hpy Hcalm Htrim.
  destruct (scan_one_fence fence_re pre lang code post (or_introl eq_refl)
              Hpre Hcode Hpost Hlang) as (mt & Hmt & Hscan).
  unfold clean_for_social.
  assert (Hsub : re_sub re_S fence_re [RText placeholder]
                   (pre ++ backticks ++ lang ++ [nl] ++ code ++ backticks ++ post)
                 = pre ++ placeholder ++ post).
  { unfold re_sub.
    replace (pre ++ backticks ++ lang ++ [nl] ++ code ++ backticks ++ post)
      with (pre ++ (backticks ++ lang ++ [nl] ++ code ++ backticks) ++ post)
      by (rewrite <- !app_assoc; reflexivity).
    rewrite Hscan, sub_pieces_app, sub_pieces_text.
    change (Hit mt ((backticks ++ lang ++ [nl] ++ code ++ backticks) ++ post) :: map Text post)
      with ([Hit mt ((backticks ++ lang ++ [nl] ++ code ++ backticks) ++ post)]
            ++ map Text post).
    rewrite sub_pieces_app, sub_pieces_text.
    unfold sub_pieces, expand. cbn [map concat]. rewrite !app_nil_r. reflexivity. }
  rewrite Hsub.
  rewrite (re_sub_no_match re_M header_re _ _ Hhead).
  rewrite (re_sub_no_match re_M python_line_re _ _ Hpy).
  rewrite (re_sub_no_match no_flags blank_lines_re _ _ (calm_no_blank_lines _ Hcalm)).
  apply trimmed_strip. exact Htrim.
Qed.

Lemma fenced_block_becomes_placeholder_witness :
  clean_for_social
    (("Do X." ++ [nl; nl]) ++ backticks ++ "python" ++ [nl] ++ sample_code ++ backticks
     ++ ([nl; nl] ++ "Done."))
  = ("Do X." ++ [nl; nl]) ++ placeholder ++ ([nl; nl] ++ "Done.").
Proof.
  apply (fenced_block_becomes_placeholder ("Do X." ++ [nl; nl]) "python" sample_code
           ([nl; nl] ++ "Done.")).
  - repeat constructor; discriminate.
  - repeat constructor; discriminate.
  - repeat constructor; discriminate.
  - repeat constructor.
  - rewrite <- header_occurs. apply re_search_none. vm_compute. reflexivity.
  - rewrite <- python_line_occurs. apply re_search_none. vm_compute. reflexivity.
  - intros H. apply contains_spec in H. vm_compute in H. discriminate H.
  - split; intros c Hc; vm_compute in Hc; injection Hc as <-; reflexivity.
Defined.

(** ** A syntax checker that cannot be started *)

Lemma verify_python_code_never_returns env code e w ok w' :
  checker_missing env e -> has_framework_marker code = false ->
  verify_python_code env code w <> (Ok ok, w').
Proof.
  intros [He Hspawn] Hm.
  destruct (temp_file env (temps w) ".py" code) as [|e0|e0 partial] eqn:Htemp.
  - rewrite (verify_python_code_plain env code w Hm Htemp). rewrite Hspawn, He.
    discriminate.
  - unfold verify_python_code. rewrite Hm. unfold bind, named_temporary_file.
    rewrite Htemp. discriminate.
  - unfold verify_python_code. rewrite Hm. unfold bind, named_temporary_file.
    rewrite Htemp. discriminate.
Qed.

Lemma verify_python_code_raises env code e w :
  checker_missing env e -> has_framework_marker code = false ->
  temp_file env (temps w) ".py" code = Written ->
  (verify_python_code env code w).1 = Raise e.
Proof.
  intros [He Hspawn] Hm Htemp.
  rewrite (verify_python_code_plain env code w Hm Htemp). rewrite Hspawn, He.
  reflexivity.
Qed.

Lemma verify_blocks_never_returns env e : forall blocks flag w,
  checker_missing env e ->
  (exists b, b ∈ blocks /\ is_python b = true /\ has_framework_marker (block_code b) = false) ->
  exists e' w', verify_blocks env blocks flag w = (Raise e', w').
Proof.
  induction blocks as [|[[lang code] label] rest IH]; intros flag w Hmiss (b & Hin & Hpy & Hm).
  - inversion Hin.
  - cbn [verify_blocks].
    change (str_eqb (lower lang) "python") with (is_python (lang, code, label)).
    assert (Hrest : b ∈ rest ->
              forall flag' w1, exists e' w', verify_blocks env rest flag' w1 = (Raise e', w')).
    { intros Hb flag' w1. apply IH; [exact Hmiss|]. exists b. repeat split; assumption. }
    destruct (is_python (lang, code, label)) eqn:Hpy0.
    + unfold bind.
      destruct (verify_python_code env code w) as [[ok|e1] w1] eqn:Hv;
        [|exists e1, w1; reflexivity].
      apply Hrest. apply elem_of_cons in Hin as [->|Hin]; [|exact Hin].
      exfalso. exact (verify_python_code_never_returns env code e w ok w1 Hmiss Hm Hv).
    + apply Hrest. apply elem_of_cons in Hin as [->|Hin]; [congruence|exact Hin].
Qed.

Lemma verify_blocks_first_raises env e b : forall blocks flag w,
  checker_missing env e ->
  head (filter (fun b => is_python b = true) blocks) = Some b ->
  has_framework_marker (block_code b) = false ->
  temp_file env (temps w) ".py" (block_code b) = Written ->
  (verify_blocks env blocks flag w).1 = Raise e.
Proof.
  induction blocks as [|[[lang code] label] rest IH]; intros flag w Hmiss Hhead Hm Htemp.
  - discriminate Hhead.
  - rewrite filter_cons in Hhead. cbn [verify_blocks].
    change (str_eqb (lower lang) "python") with (is_python (lang, code, label)).
    destruct (decide (is_python (lang, code, label) = true)) as [Hpy|Hpy].
    + rewrite Hpy. cbn [head] in Hhead. injection Hhead as <-.
      unfold block_code in Hm, Htemp. cbn [fst snd] in Hm, Htemp.
      pose proof (verify_python_code_raises env code e w Hmiss Hm Htemp) as Hv.
      unfold bind. destruct (verify_python_code env code w) as [[ok|e1] w1];
        cbn [fst] in Hv; [discriminate Hv|exact Hv].
    + apply not_true_is_false in Hpy. rewrite Hpy. apply IH; assumption.
Qed.

(** X27.  Without a syntax checker that can be started, a document with a
    Python block that lacks the framework markers cannot be parsed:
    [process_markdown_file] does not return but raises, and so does
    [prepare_social_post], which has then written none of its files;
    but for temporary files and byte code, every path holds what it held
    before.  The exception is that of the failed start when the block is
    the first Python block of the document and its temporary file gets
    written. *)
Theorem unstartable_checker_stops_parsing (env : Env) (json_dumps : Serializer)
    (markdown_file output_dir theme content : str) (w : World) (e : exn) (b : CodeBlock) :
  holds w markdown_file content ->
  checker_missing env e ->
  b ∈ python_blocks content ->
  has_framework_marker (block_code b) = false ->
  (exists e' w', process_markdown_file env markdown_file w = (Raise e', w')
                 /\ forall p, ~ scratch env p -> files w' !! p = files w !! p)
  /\ (exists e' w', prepare_social_post env json_dumps markdown_file output_dir theme w
                    = (Raise e', w')
                    /\ forall p, ~ scratch env p -> files w' !! p = files w !! p)
  /\ (head (python_blocks content) = Some b ->
      temp_file env (temps w) ".py" (block_code b) = Written ->
      (process_markdown_file env markdown_file w).1 = Raise e).
Proof.
  intros Hfile Hmiss Hb Hm.
  assert (Hraise : forall w0, files w0 = files w ->
            exists e' w', process_markdown_file env markdown_file w0 = (Raise e', w')
                          /\ forall p, ~ scratch env p -> files w' !! p = files w !! p).
  { intros w0 Hw0.
    assert (Hfile0 : holds w0 markdown_file content)
      by (unfold holds; rewrite Hw0; exact Hfile).
    destruct (process_markdown_file_keeps_files env markdown_file w0) as [Hk _].
    pose proof (process_markdown_file_after env markdown_file content w0 Hfile0) as H.
    apply list_elem_of_filter in Hb as [Hpy Hin].
    destruct (verify_blocks_never_returns env e (extract_code_blocks content) true w0 Hmiss)
      as (e' & w' & Hv); [exists b; repeat split; assumption|].
    rewrite Hv in H. exists e', w'. split; [exact H|].
    intros p Hp. rewrite H in Hk. cbn [snd] in Hk. rewrite (Hk p Hp), Hw0. reflexivity. }
  split; [apply Hraise; reflexivity|]. split.
  - unfold prepare_social_post. unfold bind at 1.
    destruct (makedirs output_dir w) as [[[]|e0] w0] eqn:Hmk.
    + destruct (makedirs_outcome _ _ _ _ Hmk) as (Hf0 & _ & _).
      destruct (Hraise w0 Hf0) as (e' & w' & Hp & Hf).
      exists e', w'. split; [apply bind_Raise; exact Hp|exact Hf].
    + destruct (makedirs_outcome _ _ _ _ Hmk) as (Hf0 & _ & _).
      exists e0, w0. split; [reflexivity|]. intros p _. rewrite Hf0. reflexivity.
  - intros Hhead Htemp.
    pose proof (process_markdown_file_after env markdown_file content w Hfile) as H.
    pose proof (verify_blocks_first_raises env e b (extract_code_blocks content) true w
                  Hmiss Hhead Hm Htemp) as Hv.
    destruct (verify_blocks env (extract_code_blocks content) true w) as [[flag|e1] w1];
      cbn [fst] in Hv; [discriminate Hv|].
    rewrite H. cbn [fst]. injection Hv as ->. reflexivity.
Qed.

Lemma unstartable_checker_stops_parsing_witness :
  (holds (one_file "tip.md" tip_doc) "tip.md" tip_doc
   /\ checker_missing no_python_env FileNotFoundError)
  /\ (exists e' w', process_markdown_file no_python_env "tip.md" (one_file "tip.md" tip_doc)
                    = (Raise e', w')
                    /\ forall p, ~ scratch no_python_env p ->
                         files w' !! p = files (one_file "tip.md" tip_doc) !! p)
  /\ (exists e' w', prepare_social_post no_python_env no_json "tip.md" "out" "VSCode"
                      (one_file "tip.md" tip_doc)
                    = (Raise e', w')
                    /\ forall p, ~ scratch no_python_env p ->
                         files w' !! p = files (one_file "tip.md" tip_doc) !! p)
  /\ (head (python_blocks tip_doc)
      = Some ("python" : str, lines ["# BEFORE: old"; "x = 1"; ""]%string, "BEFORE" : str) ->
      temp_file no_python_env (temps (one_file "tip.md" tip_doc)) ".py"
        (block_code ("python" : str, lines ["# BEFORE: old"; "x = 1"; ""]%string,
                     "BEFORE" : str)) = Written ->
      (process_markdown_file no_python_env "tip.md" (one_file "tip.md" tip_doc)).1
      = Raise FileNotFoundError).
Proof.
  assert (Hfile : holds (one_file "tip.md" tip_doc) "tip.md" tip_doc)
    by apply lookup_singleton_eq.
  assert (Hmiss : checker_missing no_python_env FileNotFoundError).
  { split; [reflexivity|]. intros temp_path fs. reflexivity. }
  split; [split; [exact Hfile|exact Hmiss]|].
  apply (unstartable_checker_stops_parsing no_python_env no_json "tip.md" "out" "VSCode"
           tip_doc (one_file "tip.md" tip_doc) FileNotFoundError
           ("python" : str, lines ["# BEFORE: old"; "x = 1"; ""]%string, "BEFORE" : str)
           Hfile Hmiss).
  - replace (python_blocks tip_doc) with tip_blocks by (vm_compute; reflexivity).
    apply list_elem_of_here.
  - reflexivity.
Defined.

(** The run behind the witness: the interpreter is asked for once, the
    exception is that of the failed start, and the only file is the
    document. *)
Example missing_interpreter_stops_parsing :
  let '(r, w') := process_markdown_file no_python_env "tip.md" (one_file "tip.md" tip_doc) in
  r = Raise FileNotFoundError
  /\ trace w' = [py_compile_argv "/tmp/tmp0.py"]
  /\ files w' = files (one_file "tip.md" tip_doc).
Proof. vm_compute. repeat split; reflexivity. Qed.

(** ** The first tweet *)

Lemma title_line_only_at_start adv c t :
  match_at no_flags title_line_re adv (Some c) t = None.
Proof. reflexivity. Qed.

Lemma no_title_line_later : forall t pos c,
  search_from no_flags title_line_re pos (Some c) t = None.
Proof.
  induction t as [|x t IH]; intros pos c; cbn [search_from];
    rewrite title_line_only_at_start; [reflexivity|apply IH].
Qed.

Lemma title_line_removed heading rest :
  Forall (fun c => c <> nl) heading ->
  re_sub no_flags title_line_re [] ("##" ++ heading ++ [nl; nl] ++ rest) = rest.
Proof.
  intros Hheading.
  assert (Hm : matches no_flags title_line_re None ("##" ++ heading ++ [nl; nl]) rest).
  { unfold title_line_re, StarLazy. simpl.
    exists [], ("##" ++ heading ++ [nl; nl]). split; [reflexivity|].
    split; [split; reflexivity|].
    exists ("##" : str), (heading ++ [nl; nl]). split; [reflexivity|]. split; [reflexivity|].
    exists heading, [nl; nl]. split; [reflexivity|]. split; [|reflexivity].
    split; [lia|]. split; [exact I|].
    eapply Forall_impl; [exact Hheading|]. intros c Hc. apply not_newline. exact Hc. }
  destruct (match_at_complete no_flags title_line_re None
              (("##" ++ heading ++ [nl; nl]) ++ rest) _ rest eq_refl Hm) as [mt Hmt].
  assert (Hlen : m_len mt = length ("##" ++ heading ++ [nl; nl])).
  { destruct (match_at_sound _ _ _ _ _ _ Hmt) as (w & next & Hs & Hl & Hw & _).
    unfold title_line_re, StarLazy in Hw. simpl in Hw.
    destruct Hw as (w1 & w2 & -> & (-> & _) & w3 & w4 & -> & -> & w5 & w6 & ->
                    & (_ & _ & Hw5) & ->).
    simpl in Hs. injection Hs as Hs. rewrite <- !app_assoc in Hs. simpl in Hs.
    apply split_at_first in Hs as [<- _]; [exact Hl|exact Hheading|].
    eapply Forall_impl; [exact Hw5|]. intros c Hc. apply not_newline. exact Hc. }
  unfold re_sub.
  replace ("##" ++ heading ++ [nl; nl] ++ rest)
    with ([] ++ ("##" ++ heading ++ [nl; nl]) ++ rest)
    by (rewrite <- !app_assoc; reflexivity).
  rewrite (scan_single no_flags title_line_re [] None _ rest mt).
  - cbn [map app]. change (Hit mt (("##" ++ heading ++ [nl; nl]) ++ rest) :: map Text rest)
      with ([Hit mt (("##" ++ heading ++ [nl; nl]) ++ rest)] ++ map Text rest).
    rewrite sub_pieces_app, sub_pieces_text. reflexivity.
  - intros p1 c p2 Hp. destruct p1; discriminate Hp.
  - exact Hmt.
  - exact Hlen.
  - simpl. lia.
  - cbn [app]. destruct (last_char None ("##" ++ heading ++ [nl; nl])) as [c|] eqn:El.
    + apply no_title_line_later.
    + exfalso. simpl in El. rewrite !last_char_cons in El.
      unfold last_char in El. destruct (last (heading ++ [nl; nl])); discriminate El.
Qed.

Lemma literal_removed l rest c :
  head l = Some c -> Forall (fun x => x <> c) rest ->
  re_sub no_flags (Lit l) [] (l ++ rest) = rest.
Proof.
  intros Hl Hrest.
  destruct (match_at_complete no_flags (Lit l) None (l ++ rest) l rest eq_refl eq_refl)
    as [mt Hmt].
  assert (Hlen : m_len mt = length l).
  { destruct (match_at_sound _ _ _ _ _ _ Hmt) as (w & next & Hs & Hlw & Hw & _).
    simpl in Hw. subst w. exact Hlw. }
  unfold re_sub.
  change (l ++ rest) with ([] ++ l ++ rest).
  rewrite (scan_single no_flags (Lit l) [] None l rest mt).
  - cbn [map app]. change (Hit mt (l ++ rest) :: map Text rest)
      with ([Hit mt (l ++ rest)] ++ map Text rest).
    rewrite sub_pieces_app, sub_pieces_text. reflexivity.
  - intros p1 c' p2 Hp. destruct p1; discriminate Hp.
  - exact Hmt.
  - exact Hlen.
  - destruct l; [discriminate Hl|simpl; lia].
  - destruct (search_from no_flags (Lit l) 0 (last_char None ([] ++ l)) rest) as [f|] eqn:E;
      [|reflexivity].
    exfalso. apply search_from_sound in E as (pre & w & next & Hs & Hw & _).
    simpl in Hw. subst w. destruct l as [|x l]; [discriminate Hl|]. injection Hl as ->.
    rewrite Hs in Hrest. apply Forall_app in Hrest as [_ Hrest].
    inversion Hrest; subst. congruence.
Qed.

(** X28.  The first tweet is the hook in bold followed by the introduction: when
    the text handed on for the first tweet is a title line, a blank line,
    the bold hook and a text without asterisk, the title line and the hook
    are taken out of it and what is left, trimmed, is put after the bold
    hook and a blank line. *)
Theorem first_tweet_is_hook_and_intro (post_data : PostData)
    (image_paths : gmap str (list str)) (heading intro : str) :
  hook post_data <> [] ->
  Forall (fun c => c <> nl) heading ->
  Forall (fun c => c <> "*"%char) intro ->
  first_tweet post_data
  = "##" ++ heading ++ [nl; nl] ++ ("**" ++ hook post_data ++ "**") ++ intro ->
  exists tweet_2,
    create_twitter_thread post_data image_paths
    = [("**" ++ hook post_data ++ "**")
       ++ (if nonempty (strip intro) then [nl; nl] ++ strip intro else []);
       tweet_2].
Proof.
  intros Hhook Hheading Hintro Hft. unfold create_twitter_thread.
  rewrite Hft. rewrite title_line_removed by exact Hheading.
  rewrite (literal_removed _ intro "*"%char) by (try reflexivity; exact Hintro).
  destruct (hook post_data) as [|h hs] eqn:Eh; [contradiction|].
  cbn [nonempty app]. eexists.
  destruct (nonempty (strip intro)); [reflexivity|].
  rewrite app_nil_r. reflexivity.
Qed.

Lemma first_tweet_is_hook_and_intro_witness :
  exists tweet_2,
    create_twitter_thread sample_post ∅
    = [("**" ++ hook sample_post ++ "**")
       ++ (if nonempty (strip ([nl; nl] ++ "Intro text."))
           then [nl; nl] ++ strip ([nl; nl] ++ "Intro text.") else []);
       tweet_2].
Proof.
  apply (first_tweet_is_hook_and_intro sample_post ∅ " Tip 1" ([nl; nl] ++ "Intro text.")).
  - discriminate.
  - repeat constructor; discriminate.
  - repeat constructor; discriminate.
  - reflexivity.
Defined.

(** ** A heading line in the cleaned text *)

Lemma header_match_at adv prev s mt :
  match_at re_M header_re adv prev s = Some mt ->
  exists hashes ws text post,
    s = hashes ++ ws ++ text ++ post
    /\ Forall (fun c => c = "#"%char) hashes
    /\ 0 < length ws /\ all_space ws
    /\ 0 < length text /\ Forall (fun c => c <> nl) text
    /\ line_end post
    /\ group 1 mt s = text
    /\ m_len mt = length (hashes ++ ws ++ text).
Proof.
  unfold match_at.
  destruct (m re_M header_re _ _) as [st|] eqn:E; [|discriminate].
  intros Hmt. injection Hmt as <-.
  unfold header_re in E. cbn [m before] in E.
  destruct (at_bol re_M prev); [|discriminate].
  apply m_rep_sound with (s := s) in E; [|reflexivity].
  destruct E as (hashes & st1 & Hadv1 & Hc1 & _ & _ & Hhashes & E).
  unfold Plus in E. cbn [m] in E.
  apply m_rep_sound with (s := ahead st1) in E; [|reflexivity].
  destruct E as (ws & st2 & Hadv2 & Hc2 & Hlo2 & _ & Hws & E).
  apply m_rep_sound with (s := ahead st2) in E; [|reflexivity].
  destruct E as (text & st3 & Hadv3 & Hc3 & Hlo3 & _ & Htext & E).
  cbn [ahead off before caps] in E.
  destruct (at_eol re_M (ahead st3)) eqn:Heol; [|discriminate].
  assert (Hst : st = {| off := off st3; before := before st3; ahead := ahead st3;
                       caps := (1, (off st2, off st3)) :: caps st3 |}).
  { match type of E with (if ?c then _ else _) = _ => destruct c end; congruence. }
  subst st. clear E.
  destruct Hadv1 as (A1 & O1 & _), Hadv2 as (A2 & O2 & _), Hadv3 as (A3 & O3 & _).
  cbn [ahead off before caps] in *.
  assert (Hs : s = hashes ++ ws ++ text ++ ahead st3) by (rewrite A1, A2, A3; reflexivity).
  exists hashes, ws, text, (ahead st3). split; [exact Hs|]. split.
  { eapply Forall_impl; [exact Hhashes|]. intros c Hc. apply ascii_eqb_eq. exact Hc. }
  split; [lia|]. split; [exact Hws|]. split; [lia|]. split.
  { eapply Forall_impl; [exact Htext|]. intros c Hc. apply not_newline. exact Hc. }
  split; [apply at_eol_line_end; exact Heol|]. split.
  - unfold group. cbn [m_caps lookup_cap Nat.eqb]. unfold slice.
    rewrite O3. replace (off st2 + length text - off st2) with (length text) by lia.
    replace (off st2) with (length (hashes ++ ws)) by (rewrite O2, O1, length_app; lia).
    rewrite Hs.
    replace (hashes ++ ws ++ text ++ ahead st3) with ((hashes ++ ws) ++ text ++ ahead st3)
      by (rewrite <- !app_assoc; reflexivity).
    rewrite drop_app_length. apply take_app_length.
  - cbn [m_len]. rewrite O3, O2, O1, !length_app. lia.
Qed.

(** Two ways of cutting a text into a run of characters with a property
    and a rest that starts with a character without it are the same. *)
Lemma split_at_run (P : ascii -> Prop) : forall a a' b b',
  Forall P a -> Forall P a' ->
  match b with [] => True | c :: _ => ~ P c end ->
  match b' with [] => True | c :: _ => ~ P c end ->
  a ++ b = a' ++ b' -> a = a' /\ b = b'.
Proof.
  induction a as [|x a IH]; intros a' b b' Ha Ha' Hb Hb' H.
  - destruct a' as [|x' a']; [split; [reflexivity|exact H]|].
    exfalso. simpl in H. subst b. inversion Ha'; subst. exact (Hb ltac:(assumption)).
  - destruct a' as [|x' a'].
    + exfalso. simpl in H. subst b'. inversion Ha; subst. exact (Hb' ltac:(assumption)).
    + injection H as -> H. inversion Ha; inversion Ha'; subst.
      destruct (IH a' b b') as [-> ->]; try assumption. split; reflexivity.
Qed.

Lemma sub_pieces_hit repl mt s ps :
  sub_pieces repl (Hit mt s :: ps) = expand repl mt s ++ sub_pieces repl ps.
Proof. reflexivity. Qed.

Lemma header_shape_matches prev hashes ws text post :
  at_bol re_M prev = true ->
  1 <= length hashes <= 6 -> Forall (fun c => c = "#"%char) hashes ->
  0 < length ws -> all_space ws ->
  0 < length text -> Forall (fun c => c <> nl) text ->
  line_end post ->
  matches re_M header_re prev (hashes ++ ws ++ text) post.
Proof.
  intros Hbol Hn Hhash Hws Hspace Htx Htext Hpost. unfold header_re, Plus. simpl.
  exists [], (hashes ++ ws ++ text). split; [reflexivity|].
  split; [split; [reflexivity|exact Hbol]|].
  exists hashes, (ws ++ text). split; [reflexivity|]. split.
  { split; [lia|]. split; [lia|].
    eapply Forall_impl; [exact Hhash|]. intros c ->. reflexivity. }
  exists ws, text. split; [reflexivity|].
  split; [split; [lia|split; [exact I|exact Hspace]]|].
  exists text, []. split; [rewrite app_nil_r; reflexivity|]. split.
  { split; [lia|]. split; [exact I|].
    eapply Forall_impl; [exact Htext|]. intros c Hc. apply not_newline. exact Hc. }
  split; [reflexivity|]. apply at_eol_line_end. exact Hpost.
Qed.

(** X29.  Cleaning takes the markup off a heading line: a document that starts
    with one to six hashes, a whitespace character and a heading text, and
    that needs no other rewriting, is cleaned to the heading text followed
    by the rest of the document.  (So the title line of a write-up stands
    in the cleaned text without its hashes.) *)
Theorem heading_line_loses_its_hashes (hashes text post : str) (c : ascii) :
  1 <= length hashes <= 6 -> Forall (fun x => x = "#"%char) hashes ->
  is_space c = true ->
  text <> [] -> Forall (fun x => x <> nl) text ->
  line_end post ->
  ~ has_fence (hashes ++ [c] ++ text ++ post) ->
  ~ has_heading_line (text ++ post) ->
  ~ has_python_line (text ++ post) ->
  ~ substring [nl; nl; nl] (text ++ post) ->
  trimmed (text ++ post) ->
  clean_for_social (hashes ++ [c] ++ text ++ post) = text ++ post.
Proof.
  intros Hn Hhash Hc Hne Htext Hpost.
  rewrite <- fence_occurs, <- header_occurs, <- python_line_occurs, <- calm_substring.
  intros Hfence Hhead Hpy Hcalm Htrim.
  destruct text as [|x text']; [contradiction|]. clear Hne.
  assert (Hx : is_space x = false) by (apply (proj1 Htrim); reflexivity).
  set (T := x :: text') in *.
  assert (Hm : matches re_M header_re None (hashes ++ [c] ++ T) post).
  { apply header_shape_matches; try assumption; try reflexivity.
    - simpl. lia.
    - constructor; [exact Hc|constructor].
    - simpl. lia. }
  destruct (match_at_complete re_M header_re None ((hashes ++ [c] ++ T) ++ post) _ post
              eq_refl Hm) as [mt Hmt].
  assert (Hexact : group 1 mt ((hashes ++ [c] ++ T) ++ post) = T
                   /\ m_len mt = length (hashes ++ [c] ++ T)).
  { destruct (header_match_at _ _ _ _ Hmt)
      as (hashes' & ws' & body & post' & Hs & Hhash' & Hws' & Hspace' & Htx' & Htext'
          & Hpost' & G & L).
    assert (Hsame : hashes' = hashes /\ ws' = [c] /\ body = T).
    { clear G L Hmt Hm. rewrite <- !app_assoc in Hs.
      apply (split_at_run (fun y => y = "#"%char)) in Hs as [<- Hs]; try assumption.
      - destruct ws' as [|c' ws'']; [simpl in Hws'; lia|].
        injection Hs as <- Hs. inversion Hspace' as [|? ? _ Hspace'']; subst.
        destruct ws'' as [|y ws''].
        + simpl in Hs. change (x :: text' ++ post) with ((x :: text') ++ post) in Hs.
          apply (split_at_run (fun y => y <> nl)) in Hs as [<- _]; try assumption.
          * repeat split; reflexivity.
          * destruct Hpost as [->|Hpost]; [exact I|].
            destruct post as [|p post]; [exact I|]. injection Hpost as ->.
            intros H. exact (H eq_refl).
          * destruct Hpost' as [->|Hpost']; [exact I|].
            destruct post' as [|p post']; [exact I|]. injection Hpost' as ->.
            intros H. exact (H eq_refl).
        + exfalso. injection Hs as <- _. inversion Hspace''; subst. congruence.
      - simpl. intros ->. discriminate Hc.
      - destruct ws' as [|c' ws'']; [simpl in Hws'; lia|]. simpl.
        inversion Hspace'; subst. intros ->. discriminate. }
    destruct Hsame as (-> & -> & ->). split; [exact G|exact L]. }
  destruct Hexact as [G L].
  unfold clean_for_social.
  rewrite (re_sub_no_match re_S fence_re _ _ Hfence).
  assert (Hsub : re_sub re_M header_re [RGroup 1] (hashes ++ [c] ++ T ++ post) = T ++ post).
  { unfold re_sub.
    replace (hashes ++ [c] ++ T ++ post) with ([] ++ (hashes ++ [c] ++ T) ++ post)
      by (rewrite <- !app_assoc; reflexivity).
    rewrite (scan_single re_M header_re [] None _ post mt).
    - rewrite sub_pieces_app, sub_pieces_text, sub_pieces_hit, sub_pieces_text.
      unfold expand. cbn [map concat]. rewrite G, app_nil_r. reflexivity.
    - intros p1 c' p2 Hp. destruct p1; discriminate Hp.
    - exact Hmt.
    - exact L.
    - rewrite !length_app. simpl. lia.
    - destruct (search_from re_M header_re 0 (last_char None ([] ++ hashes ++ [c] ++ T)) post)
        as [f|] eqn:E; [|reflexivity].
      exfalso. apply search_from_sound in E as (pre & w & next & Hs & Hw & _).
      apply Hhead. exists (T ++ pre), w, next. split; [rewrite Hs, <- app_assoc; reflexivity|].
      replace (last_char None (T ++ pre))
        with (last_char (last_char None ([] ++ hashes ++ [c] ++ T)) pre); [exact Hw|].
      rewrite <- !last_char_app. cbn [app]. rewrite !last_char_app.
      unfold T. rewrite !last_char_cons. reflexivity. }
  rewrite Hsub.
  rewrite (re_sub_no_match re_M python_line_re _ _ Hpy).
  rewrite (re_sub_no_match no_flags blank_lines_re _ _ (calm_no_blank_lines _ Hcalm)).
  apply trimmed_strip. exact Htrim.
Qed.

Lemma heading_line_loses_its_hashes_witness :
  clean_for_social ("##" ++ [" "%char] ++ "Tip 1" ++ lines [""; ""; "**Do X**"; ""; "More text."]%string)
  = "Tip 1" ++ lines [""; ""; "**Do X**"; ""; "More text."]%string.
Proof.
  apply (heading_line_loses_its_hashes "##" "Tip 1"
           (lines [""; ""; "**Do X**"; ""; "More text."]%string) " "%char).
  - simpl. lia.
  - repeat constructor.
  - reflexivity.
  - discriminate.
  - repeat constructor; discriminate.
  - right. reflexivity.
  - rewrite <- fence_occurs. apply re_search_none. vm_compute. reflexivity.
  - rewrite <- header_occurs. apply re_search_none. vm_compute. reflexivity.
  - rewrite <- python_line_occurs. apply re_search_none. vm_compute. reflexivity.
  - intros H. apply contains_spec in H. vm_compute in H. discriminate H.
  - split; intros c Hc; vm_compute in Hc; injection Hc as <-; reflexivity.
Defined.
